(** * The tree-to-graph compiler of chinook (packages/brim, Compiler.ts)

    A shallow embedding of [compileTreeDefinition], its local-definition
    collector [visitToFindLocals], its depth-first resolver
    [traverseStreamExpr] and the entry point [compileGlobalTreeDefinition],
    followed by the properties stated about them. *)

From Stdlib Require Import ZArith String List Lia.
From stdpp Require Import base option list gmap sets strings.

Set Warnings "-register-all,-clear-no-such-hyp".

(** ** Identifiers (Tree.ts)

    [StreamID], [FunctionID] and [ApplicationID] are all [string] in the
    source. *)

Abbreviation StreamID := string (only parsing).
Abbreviation FunctionID := string (only parsing).
Abbreviation ApplicationID := string (only parsing).

(** The ids of the three kinds are told apart by their prefix. *)
Definition STREAM_ID_PREFIX : string := "S-".
Definition FUNCTION_ID_PREFIX : string := "F-".
Definition APPLICATION_ID_PREFIX : string := "A-".

(** [generateStreamId]; [uid] is the result of the call of [genuid],
    which is imported from [./uid]. *)
Definition generateStreamId (uid : string) : StreamID :=
  STREAM_ID_PREFIX +:+ uid.

Definition validStreamId (s : string) : bool :=
  String.prefix STREAM_ID_PREFIX s.

Definition generateFunctionId (uid : string) : FunctionID :=
  FUNCTION_ID_PREFIX +:+ uid.

Definition validFunctionId (s : string) : bool :=
  String.prefix FUNCTION_ID_PREFIX s.

Definition generateApplicationId (uid : string) : ApplicationID :=
  APPLICATION_ID_PREFIX +:+ uid.

Definition validApplicationId (s : string) : bool :=
  String.prefix APPLICATION_ID_PREFIX s.

(** ** Exceptions and results

    The compiler throws either a plain [Error] (an invariant violation) or a
    [CompilationError]; both carry the message given to the constructor
    (the empty message when none is given).  [OutOfFuel] is not a behaviour
    of the program: it is the answer of the recursive definitions below when
    the recursion budget they are given is too small. *)

Inductive Exn : Type :=
| Error (msg : string)
| CompilationError (msg : string).

Inductive Result (A : Type) : Type :=
| Ok (a : A)
| Throw (e : Exn)
| OutOfFuel.

Arguments Ok {A} a.
Arguments Throw {A} e.
Arguments OutOfFuel {A}.

Definition Result_bind {A B} (f : A → Result B) (m : Result A) : Result B :=
  match m with
  | Ok a => f a
  | Throw e => Throw e
  | OutOfFuel => OutOfFuel
  end.

#[global] Instance Result_mbind : MBind Result := @Result_bind.
#[global] Instance Result_mret : MRet Result := @Ok.

(** A [for (const x of xs) { ... }] loop whose body updates the state [S]
    and may throw.  The list is the recursive argument of the inner [fix],
    so the loop can run a function that is itself being defined by
    recursion on the tree. *)
Definition forM {A S : Type} (f : A → S → Result S) : list A → S → Result S :=
  fix go (xs : list A) (s : S) {struct xs} : Result S :=
    match xs with
    | [] => Ok s
    | x :: xs' =>
        match f x s with
        | Ok s' => go xs' s'
        | Throw e => Throw e
        | OutOfFuel => OutOfFuel
        end
    end.

(** ** The program tree (Tree.ts)

    One inductive type for the union type [Node], with one constructor per
    [NodeKind] the compiler looks at and the fields Compiler.ts reads
    ([sid], [val], [ref], [aid], [outs], [func], [sargs], [fargs], [idx],
    [expr], [fid], [sparams], [fparams], [body]).  The constructors of
    [NodeKind] carry a [K], the names without it being those of the nodes.
    The payload of a number literal is copied by the compiler and never
    inspected; it is an integer here.

    The compiler keeps two [Set<StreamExpressionNode>], and a JavaScript
    [Set] of objects compares them by reference: [oid] is that reference,
    the identity of the node object.  Only stream-expression nodes are
    ever put in those sets. *)

Inductive NodeKind : Type :=
| KUndefinedLiteral | KNumberLiteral | KTextLiteral | KBooleanLiteral
| KStreamReference | KApplication | KYieldExpression
| KNativeFunctionDefinition | KTreeFunctionDefinition.

#[global] Instance NodeKind_eq_dec : EqDecision NodeKind.
Proof. solve_decision. Defined.

(** [ApplicationOut]: [name] is [null] when the output has no local name. *)
Record ApplicationOut : Type := mkOut {
  out_sid : StreamID;
  out_name : option string;
}.

Inductive Node : Type :=
| UndefinedLiteral (oid : nat) (sid : StreamID)
| NumberLiteral (oid : nat) (sid : StreamID) (val : Z)
| TextLiteral (oid : nat) (sid : StreamID) (val : string)
| BooleanLiteral (oid : nat) (sid : StreamID) (val : bool)
| StreamReference (oid : nat) (ref : StreamID)
| Application (oid : nat) (aid : ApplicationID) (outs : list ApplicationOut)
    (func : FunctionID) (sargs : list Node) (fargs : list Node)
| YieldExpression (idx : nat) (expr : Node)
| NativeFunctionDefinition (fid : FunctionID)
| TreeFunctionDefinition (fid : FunctionID) (sparams : list StreamID)
    (fparams : list FunctionID) (body : list Node).

Definition kind (node : Node) : NodeKind :=
  match node with
  | UndefinedLiteral _ _ => KUndefinedLiteral
  | NumberLiteral _ _ _ => KNumberLiteral
  | TextLiteral _ _ _ => KTextLiteral
  | BooleanLiteral _ _ _ => KBooleanLiteral
  | StreamReference _ _ => KStreamReference
  | Application _ _ _ _ _ _ => KApplication
  | YieldExpression _ _ => KYieldExpression
  | NativeFunctionDefinition _ => KNativeFunctionDefinition
  | TreeFunctionDefinition _ _ _ _ => KTreeFunctionDefinition
  end.

Definition isSimpleLiteralNode (node : Node) : bool :=
  bool_decide (kind node = KUndefinedLiteral)
  || bool_decide (kind node = KNumberLiteral)
  || bool_decide (kind node = KTextLiteral)
  || bool_decide (kind node = KBooleanLiteral).

Definition isStreamExpressionNode (node : Node) : bool :=
  isSimpleLiteralNode node
  || bool_decide (kind node = KStreamReference)
  || bool_decide (kind node = KApplication).

Definition isFunctionDefinitionNode (node : Node) : bool :=
  bool_decide (kind node = KNativeFunctionDefinition)
  || bool_decide (kind node = KTreeFunctionDefinition).

(** The object identity of a stream-expression node. *)
Definition nodeId (node : Node) : option nat :=
  match node with
  | UndefinedLiteral o _ | NumberLiteral o _ _ | TextLiteral o _ _
  | BooleanLiteral o _ _ | StreamReference o _
  | Application o _ _ _ _ _ => Some o
  | _ => None
  end.

(** ** TreeUtil.ts *)

(** Modelled from the spec: [functionExprId], which the TreeUtil.ts among
    the sources does not have.  The function of an application is given by
    its id and a function argument is a function definition, whose id is
    its [fid]. *)
Definition functionExprId (node : Node) : Result FunctionID :=
  match node with
  | NativeFunctionDefinition fid | TreeFunctionDefinition fid _ _ _ => Ok fid
  | _ => Throw (Error EmptyString)
  end.

(** [streamExprReturnedId]: [Ok None] is the [undefined] of an application
    all of whose outputs are named. *)
Definition streamExprReturnedId (node : Node) : Result (option StreamID) :=
  match node with
  | UndefinedLiteral _ sid | NumberLiteral _ sid _ | TextLiteral _ sid _
  | BooleanLiteral _ sid _ => Ok (Some sid)
  | StreamReference _ ref => Ok (Some ref)
  | Application _ _ outs _ _ _ =>
      Ok (out_sid <$> head (filter (λ out, out_name out = None) outs))
  | _ => Throw (Error EmptyString)
  end.

(** [if (!sid) throw new Error()]: [undefined] and the empty string are
    the falsy values of type [StreamID | undefined]. *)
Definition requireTruthy (o : option StreamID) : Result StreamID :=
  match o with
  | None => Throw (Error EmptyString)
  | Some EmptyString => Throw (Error EmptyString)
  | Some s => Ok s
  end.

(** ** CompiledDefinition.ts *)

Inductive Value : Type :=
| VUndefined
| VNumber (n : Z)
| VText (s : string)
| VBoolean (b : bool).

Module CompiledDef.

Record ConstStreamSpec : Type := mkConst {
  sid : StreamID;
  val : Value;
}.

Record AppSpec : Type := mkApp {
  sids : list StreamID;
  appId : ApplicationID;
  funcId : FunctionID;
  sargIds : list StreamID;
  fargIds : list FunctionID;
}.

(** [yieldIds] is a JavaScript array filled by index assignment, so it
    may have holes: [None] is a hole. *)
Inductive CompiledDefinition : Type := mkDef {
  streamParamIds : list StreamID;
  funcParamIds : list FunctionID;
  constStreams : list ConstStreamSpec;
  apps : list AppSpec;
  localDefs : list (FunctionID * CompiledDefinition);
  yieldIds : list (option StreamID);
}.

End CompiledDef.

Abbreviation ConstStreamSpec := CompiledDef.ConstStreamSpec.
Abbreviation AppSpec := CompiledDef.AppSpec.
Abbreviation CompiledDefinition := CompiledDef.CompiledDefinition.

(** ** Environment.ts *)

Module Env.
Section Env.
Context {K : Type} `{Countable K} {V : Type}.

(** Modelled from the spec: the [Environment] class, whose file is not among
    the sources.  It is a chained mapping: a local frame [vars] and an
    optional [outer] environment.  A lookup ([has], [get]) checks the local
    frame first and then the outer chain; [get] answers [undefined] (here
    [None]) for an absent key, which is what its callers in Compiler.ts test
    for; [set] fails if the key is already present in the local frame and
    otherwise binds it there; [forEach] runs over the bindings of the local
    frame. *)
Inductive Environment : Type :=
| mkEnvironment (vars : gmap K V) (outer : option Environment).

Definition vars (e : Environment) : gmap K V :=
  match e with mkEnvironment m _ => m end.

Definition outer (e : Environment) : option Environment :=
  match e with mkEnvironment _ o => o end.

(** Modelled from the spec: [new Environment(outer)], a fresh frame chained
    onto [outer]; [new Environment()] has no outer environment. *)
Definition new (o : option Environment) : Environment := mkEnvironment ∅ o.

(** Modelled from the spec: [get], the binding of the innermost frame that
    has the key, [undefined] (here [None]) when no frame has it. *)
Fixpoint get (e : Environment) (k : K) : option V :=
  match e with
  | mkEnvironment m o =>
      match m !! k with
      | Some v => Some v
      | None => match o with Some e' => get e' k | None => None end
      end
  end.

(** Modelled from the spec: [has], the membership test of the chain. *)
Fixpoint has (e : Environment) (k : K) : bool :=
  match e with
  | mkEnvironment m o =>
      match m !! k with
      | Some _ => true
      | None => match o with Some e' => has e' k | None => false end
      end
  end.

(** Modelled from the spec: [set], which fails ([None]) if the key is
    already present in the local frame. *)
Definition set (e : Environment) (k : K) (v : V) : option Environment :=
  match e with
  | mkEnvironment m o =>
      match m !! k with
      | Some _ => None
      | None => Some (mkEnvironment (<[k := v]> m) o)
      end
  end.

(** Modelled from the spec: [forEach], which calls [f(value, key)] on the
    bindings of the local frame. *)
Definition forEach {S : Type} (e : Environment) (f : V → K → S → Result S)
    (s : S) : Result S :=
  forM (λ kv, f kv.2 kv.1) (map_to_list (vars e)) s.

End Env.
Arguments Environment K {_ _} V.
End Env.

Abbreviation Environment := Env.Environment.

(** [env.set(k, v)] as a statement of the compiler: the failure of [set] is
    a thrown [Error] (its message is not known; the compiler never calls
    [set] on a key its frame already holds, see [Env_set_after_has]). *)
Definition envSet {K} `{Countable K} {V} (e : Environment K V) (k : K) (v : V)
    : Result (Environment K V) :=
  match Env.set e k v with
  | Some e' => Ok e'
  | None => Throw (Error EmptyString)
  end.

(** A stream id maps to the expression node that defines it, or to [null]
    (here [None]) when it is a parameter. *)
Abbreviation CompilationStreamEnvironment := (Environment StreamID (option Node)).
Abbreviation CompilationFunctionEnvironment := (Environment FunctionID Node).

(** A [Set] iterated in insertion order: [add] appends unless present. *)
Definition orderedAdd (x : string) (xs : list string) : list string :=
  if bool_decide (x ∈ xs) then xs else xs ++ [x].

(** ** Compiler.ts: the local-definition collector *)

(** The four variables [compileTreeDefinition] fills while it looks for the
    locally defined ids. *)
Record Locals : Type := mkLocals {
  streamEnvironment : CompilationStreamEnvironment;
  functionEnvironment : CompilationFunctionEnvironment;
  localStreamIds : gset StreamID;
  localFunctionIds : list FunctionID;
}.

(** The statement that occurs three times in the source (for a stream
    parameter with [null], for a literal and for each output of an
    application with the node):
<<
    if (streamEnvironment.has(sid)) { throw new Error('must be unique'); }
    streamEnvironment.set(sid, node);
    localStreamIds.add(sid);
>> *)
Definition defineStream (sid : StreamID) (target : option Node) (L : Locals)
    : Result Locals :=
  if Env.has (streamEnvironment L) sid then Throw (Error "must be unique")
  else
    env ← envSet (streamEnvironment L) sid target;
    Ok {| streamEnvironment := env;
          functionEnvironment := functionEnvironment L;
          localStreamIds := {[ sid ]} ∪ localStreamIds L;
          localFunctionIds := localFunctionIds L |}.

(** The same statement for a local function definition. *)
Definition defineFunction (fid : FunctionID) (node : Node) (L : Locals)
    : Result Locals :=
  if Env.has (functionEnvironment L) fid then Throw (Error "must be unique")
  else
    env ← envSet (functionEnvironment L) fid node;
    Ok {| streamEnvironment := streamEnvironment L;
          functionEnvironment := env;
          localStreamIds := localStreamIds L;
          localFunctionIds := orderedAdd fid (localFunctionIds L) |}.

(** What [visitToFindLocals] does with the node itself, before it visits
    the children. *)
Definition registerNode (node : Node) (L : Locals) : Result Locals :=
  match node with
  | UndefinedLiteral _ sid | NumberLiteral _ sid _ | TextLiteral _ sid _
  | BooleanLiteral _ sid _ => defineStream sid (Some node) L
  | StreamReference _ _ => Ok L
  | Application _ _ outs _ _ _ =>
      forM (λ out, defineStream (out_sid out) (Some node)) outs L
  | NativeFunctionDefinition fid | TreeFunctionDefinition fid _ _ _ =>
      defineFunction fid node L
  | YieldExpression _ _ => Ok L
  end.

(** Modelled from the spec: [visitChildren] of Traversal.ts, which is not
    among the sources.  It calls the visitor on each child node in order:
    the stream arguments and then the function arguments of an
    application, the wrapped expression of a yield, the body entries of a
    tree function definition. *)
Definition visitChildren (node : Node) (visit : Node → Locals → Result Locals)
    (L : Locals) : Result Locals :=
  match node with
  | Application _ _ _ _ sargs fargs =>
      match forM visit sargs L with
      | Ok L' => forM visit fargs L'
      | Throw e => Throw e
      | OutOfFuel => OutOfFuel
      end
  | YieldExpression _ expr => visit expr L
  | TreeFunctionDefinition _ _ _ body => forM visit body L
  | _ => Ok L
  end.

Fixpoint visitToFindLocals (node : Node) (L : Locals) {struct node}
    : Result Locals :=
  match registerNode node L with
  | Ok L1 =>
      if negb (isFunctionDefinitionNode node)
      then visitChildren node visitToFindLocals L1
      else Ok L1
  | Throw e => Throw e
  | OutOfFuel => OutOfFuel
  end.

(** ** Compiler.ts: the depth-first resolver *)

(** The arrays and sets [traverseStreamExpr] updates. *)
Record CompileState : Type := mkState {
  constStreams : list ConstStreamSpec;
  apps : list AppSpec;
  yieldIds : list (option StreamID);
  externalReferencedStreamIds : gset StreamID;
  temporaryMarked : gset nat;
  permanentMarked : gset nat;
}.

Definition initialState : CompileState :=
  {| constStreams := []; apps := []; yieldIds := [];
     externalReferencedStreamIds := ∅;
     temporaryMarked := ∅; permanentMarked := ∅ |}.

(** [set.has(node)] for a set of node objects. *)
Definition marked (s : gset nat) (node : Node) : bool :=
  match nodeId node with
  | Some o => bool_decide (o ∈ s)
  | None => false
  end.

Definition pushConst (c : ConstStreamSpec) (st : CompileState) : CompileState :=
  {| constStreams := constStreams st ++ [c]; apps := apps st;
     yieldIds := yieldIds st;
     externalReferencedStreamIds := externalReferencedStreamIds st;
     temporaryMarked := temporaryMarked st;
     permanentMarked := permanentMarked st |}.

Definition pushApp (a : AppSpec) (st : CompileState) : CompileState :=
  {| constStreams := constStreams st; apps := apps st ++ [a];
     yieldIds := yieldIds st;
     externalReferencedStreamIds := externalReferencedStreamIds st;
     temporaryMarked := temporaryMarked st;
     permanentMarked := permanentMarked st |}.

Definition addExternal (sid : StreamID) (st : CompileState) : CompileState :=
  {| constStreams := constStreams st; apps := apps st;
     yieldIds := yieldIds st;
     externalReferencedStreamIds := {[ sid ]} ∪ externalReferencedStreamIds st;
     temporaryMarked := temporaryMarked st;
     permanentMarked := permanentMarked st |}.

Definition temporaryAdd (o : nat) (st : CompileState) : CompileState :=
  {| constStreams := constStreams st; apps := apps st;
     yieldIds := yieldIds st;
     externalReferencedStreamIds := externalReferencedStreamIds st;
     temporaryMarked := {[ o ]} ∪ temporaryMarked st;
     permanentMarked := permanentMarked st |}.

Definition temporaryDelete (o : nat) (st : CompileState) : CompileState :=
  {| constStreams := constStreams st; apps := apps st;
     yieldIds := yieldIds st;
     externalReferencedStreamIds := externalReferencedStreamIds st;
     temporaryMarked := temporaryMarked st ∖ {[ o ]};
     permanentMarked := permanentMarked st |}.

Definition permanentAdd (o : nat) (st : CompileState) : CompileState :=
  {| constStreams := constStreams st; apps := apps st;
     yieldIds := yieldIds st;
     externalReferencedStreamIds := externalReferencedStreamIds st;
     temporaryMarked := temporaryMarked st;
     permanentMarked := {[ o ]} ∪ permanentMarked st |}.

(** [yieldIds[idx] = sid] for an array index [idx] (an integer from 0 to
    2^32 - 2): an index assignment at or past the end of a JavaScript array
    extends it, leaving holes in between. *)
Definition arraySet {A} (xs : list (option A)) (i : nat) (x : A)
    : list (option A) :=
  if decide (i < length xs) then <[i := Some x]> xs
  else xs ++ replicate (i - length xs) None ++ [Some x].

Definition setYield (idx : nat) (sid : StreamID) (st : CompileState)
    : CompileState :=
  {| constStreams := constStreams st; apps := apps st;
     yieldIds := arraySet (yieldIds st) idx sid;
     externalReferencedStreamIds := externalReferencedStreamIds st;
     temporaryMarked := temporaryMarked st;
     permanentMarked := permanentMarked st |}.

Section Resolver.
(** The environments and the set of local stream ids are complete when
    the resolver starts, and it only reads them. *)
Variable L : Locals.

(** The body of [for (const sarg of node.sargs)], with the state and the
    array [streamArgIds] as the loop state. *)
Definition sargStep (traverse : Node → CompileState → Result CompileState)
    (sarg : Node) (acc : CompileState * list StreamID)
    : Result (CompileState * list StreamID) :=
  st ← traverse sarg acc.1;
  r ← streamExprReturnedId sarg;
  sargRetSid ← requireTruthy r;
  Ok (st, acc.2 ++ [sargRetSid]).

(** The body of [for (const farg of node.fargs)]; the loop state is the
    array [funcArgIds]. *)
Definition fargStep (farg : Node) (funcArgIds : list FunctionID)
    : Result (list FunctionID) :=
  fid ← functionExprId farg;
  match Env.get (functionEnvironment L) fid with
  | None => Throw (Error EmptyString)
  | Some _ => Ok (funcArgIds ++ [fid])
  end.

Fixpoint traverseStreamExpr (fuel : nat) (node : Node) (st : CompileState)
    {struct fuel} : Result CompileState :=
  match fuel with
  | 0 => OutOfFuel
  | S fuel' =>
      if marked (permanentMarked st) node then Ok st
      else if marked (temporaryMarked st) node
      then Throw (CompilationError "graph cycle")
      else
        match node with
        | UndefinedLiteral o sid =>
            Ok (permanentAdd o
                  (pushConst (CompiledDef.mkConst sid VUndefined) st))
        | NumberLiteral o sid v =>
            Ok (permanentAdd o
                  (pushConst (CompiledDef.mkConst sid (VNumber v)) st))
        | TextLiteral o sid v =>
            Ok (permanentAdd o
                  (pushConst (CompiledDef.mkConst sid (VText v)) st))
        | BooleanLiteral o sid v =>
            Ok (permanentAdd o
                  (pushConst (CompiledDef.mkConst sid (VBoolean v)) st))
        | StreamReference o ref =>
            if bool_decide (ref ∈ localStreamIds L) then
              match Env.get (streamEnvironment L) ref with
              | Some None => Ok (permanentAdd o st)
              | None => Throw (Error EmptyString)
              | Some (Some targetExpressionNode) =>
                  st1 ← traverseStreamExpr fuel' targetExpressionNode
                          (temporaryAdd o st);
                  Ok (permanentAdd o (temporaryDelete o st1))
              end
            else if negb (Env.has (streamEnvironment L) ref)
            then Throw (CompilationError EmptyString)
            else Ok (permanentAdd o (addExternal ref st))
        | Application o aid outs func sargs fargs =>
            match Env.get (functionEnvironment L) func with
            | None => Throw (CompilationError EmptyString)
            | Some _ =>
                acc ← forM (sargStep (traverseStreamExpr fuel')) sargs
                        (temporaryAdd o st, []);
                funcArgIds ← forM fargStep fargs [];
                Ok (permanentAdd o
                      (pushApp
                         (CompiledDef.mkApp (out_sid <$> outs) aid func
                            acc.2 funcArgIds)
                         (temporaryDelete o acc.1)))
            end
        | _ => Throw (Error EmptyString)
        end
  end.

(** The body of [for (const node of definition.body.exprs)]. *)
Definition bodyStep (fuel : nat) (node : Node) (st : CompileState)
    : Result CompileState :=
  match node with
  | YieldExpression idx expr =>
      st1 ← traverseStreamExpr fuel expr st;
      r ← streamExprReturnedId expr;
      exprRetSid ← requireTruthy r;
      Ok (setYield idx exprRetSid st1)
  | _ =>
      if isStreamExpressionNode node then traverseStreamExpr fuel node st
      else Throw (Error EmptyString)
  end.

End Resolver.

(** ** Compiler.ts: [compileTreeDefinition] *)

(** The body of [for (const fid of localFunctionIds)]; the loop state is
    the array [localDefs]. *)
Definition localDefStep
    (compile : Node → Result (CompiledDefinition * gset StreamID))
    (functionEnvironment : CompilationFunctionEnvironment) (fid : FunctionID)
    (localDefs : list (FunctionID * CompiledDefinition))
    : Result (list (FunctionID * CompiledDefinition)) :=
  match Env.get functionEnvironment fid with
  | None => Throw (Error EmptyString)
  | Some funcDef =>
      if bool_decide (kind funcDef = KTreeFunctionDefinition) then
        r ← compile funcDef;
        Ok (localDefs ++ [(fid, r.1)])
      else Ok localDefs
  end.

(** The locals [compileTreeDefinition] starts from: two fresh frames
    chained onto the outer environments. *)
Definition freshLocals (outerStreamEnvironment : CompilationStreamEnvironment)
    (outerFunctionEnvironment : CompilationFunctionEnvironment) : Locals :=
  {| streamEnvironment := Env.new (Some outerStreamEnvironment);
     functionEnvironment := Env.new (Some outerFunctionEnvironment);
     localStreamIds := ∅;
     localFunctionIds := [] |}.

(** The first part of [compileTreeDefinition], up to the call
    [visitChildren(definition.body, visitToFindLocals)]: it registers the
    stream parameters and then collects the local definitions of the
    body. *)
Definition collectLocals (sparams : list StreamID) (body : list Node)
    (outerStreamEnvironment : CompilationStreamEnvironment)
    (outerFunctionEnvironment : CompilationFunctionEnvironment)
    : Result Locals :=
  L0 ← forM (λ sid, defineStream sid None) sparams
         (freshLocals outerStreamEnvironment outerFunctionEnvironment);
  forM visitToFindLocals body L0.

(** [definition] has type [TreeFunctionDefinitionNode] in the source; on any
    other node [definition.sparams] is [undefined] and the first statement
    raises a [TypeError], which is an [Error]. *)
Fixpoint compileTreeDefinition (fuel : nat) (definition : Node)
    (outerStreamEnvironment : CompilationStreamEnvironment)
    (outerFunctionEnvironment : CompilationFunctionEnvironment) {struct fuel}
    : Result (CompiledDefinition * gset StreamID) :=
  match fuel with
  | 0 => OutOfFuel
  | S fuel' =>
      match definition with
      | TreeFunctionDefinition _ sparams fparams body =>
          L ← collectLocals sparams body outerStreamEnvironment
                outerFunctionEnvironment;
          localDefs ← forM
            (localDefStep
               (λ funcDef, compileTreeDefinition fuel' funcDef
                             (streamEnvironment L) (functionEnvironment L))
               (functionEnvironment L))
            (localFunctionIds L) [];
          st ← forM (bodyStep L fuel') body initialState;
          Ok (CompiledDef.mkDef sparams fparams (constStreams st) (apps st)
                localDefs (yieldIds st),
              externalReferencedStreamIds st)
      | _ => Throw (Error "TypeError")
      end
  end.

(** ** Compiler.ts: [compileGlobalTreeDefinition] *)

Definition compileGlobalTreeDefinition (fuel : nat) (definition : Node)
    (globalFunctionEnvironment : CompilationFunctionEnvironment)
    : Result CompiledDefinition :=
  let streamEnv : CompilationStreamEnvironment := Env.new None in
  compGlobalFuncEnv ← Env.forEach globalFunctionEnvironment
                        (λ defNode fid env, envSet env fid defNode)
                        (Env.new None);
  let funcEnv : CompilationFunctionEnvironment :=
    Env.new (Some compGlobalFuncEnv) in
  r ← compileTreeDefinition fuel definition streamEnv funcEnv;
  if bool_decide (0 < size r.2) then Throw (Error EmptyString)
  else Ok r.1.

(** ** EditReducer.ts: paths into the program tree *)

(** The numbers that occur as segments of a path and as indices of the
    expressions of a function: an integer, or [NaN], which has the type
    [number] as well and is what arithmetic on [NaN] gives.  Fractions and
    the infinities, which are the index of no element of an array, are not
    represented. *)
Inductive JsNumber : Type :=
| Integer (z : Z)
| NaN.

#[global] Instance JsNumber_eq_dec : EqDecision JsNumber.
Proof. solve_decision. Defined.

(** [Number.isSafeInteger]: the integers on which the arithmetic of
    JavaScript numbers is exact. *)
Definition isSafeInteger (x : JsNumber) : bool :=
  match x with
  | Integer z => (Z.abs z <=? 9007199254740991)%Z
  | NaN => false
  end.

(** [x + y] and [x - y] on numbers. *)
Definition numberAdd (x y : JsNumber) : JsNumber :=
  match x, y with
  | Integer a, Integer b => Integer (a + b)
  | _, _ => NaN
  end.

Definition numberSub (x y : JsNumber) : JsNumber :=
  match x, y with
  | Integer a, Integer b => Integer (a - b)
  | _, _ => NaN
  end.

(** [Math.max(x, y)] and [Math.min(x, y)]: [NaN] when an argument is. *)
Definition mathMax (x y : JsNumber) : JsNumber :=
  match x, y with
  | Integer a, Integer b => Integer (Z.max a b)
  | _, _ => NaN
  end.

Definition mathMin (x y : JsNumber) : JsNumber :=
  match x, y with
  | Integer a, Integer b => Integer (Z.min a b)
  | _, _ => NaN
  end.

(** [x === y] on numbers: [NaN] is not equal to anything, itself
    included. *)
Definition numberEquals (x y : JsNumber) : bool :=
  match x, y with
  | Integer a, Integer b => bool_decide (a = b)
  | _, _ => false
  end.

(** A path is an array of property names and array indices, such as the
    selection path [['mainDefinition', 'expressions', 0]] of the initial
    state.  An index is a JavaScript number. *)
Inductive PathSegment : Type :=
| Field (name : string)
| Index (idx : JsNumber).

#[global] Instance PathSegment_eq_dec : EqDecision PathSegment.
Proof. solve_decision. Defined.

Abbreviation Path := (list PathSegment) (only parsing).

(** [x === y] on the elements of a path, [None] being the [undefined] an
    access past the end of the array gives: a string and a number are
    never equal. *)
Definition strictEquals (x y : option PathSegment) : bool :=
  match x, y with
  | Some (Field s), Some (Field t) => bool_decide (s = t)
  | Some (Index m), Some (Index n) => numberEquals m n
  | None, None => true
  | _, _ => false
  end.

(** [pathIsPrefix]: after the test [a.length > b.length], the loop
    compares [a[i]] and [b[i]] with [!==] for each [i] below [a.length],
    and stops at the first difference. *)
Definition pathIsPrefix (a b : Path) : bool :=
  if decide (length b < length a) then false
  else forallb (λ i, strictEquals (a !! i) (b !! i)) (seq 0 (length a)).

Section PathWalk.
(** The functions that walk a path take the tree as a value of type [any]:
    [JsValue] is the type of the values met on the way, compared by [===],
    which on the node objects of a tree is their identity, and
    [getProperty cur seg] is the property access [cur[seg]], which throws
    when [cur] is [undefined] or [null]. *)
Context {JsValue : Type} `{EqDecision JsValue}.
Variable getProperty : JsValue → PathSegment → Result JsValue.

Fixpoint nodeFromPath (root : JsValue) (path : Path) : Result JsValue :=
  match path with
  | [] => Ok root
  | seg :: path' =>
      match getProperty root seg with
      | Ok cur => nodeFromPath cur path'
      | Throw e => Throw e
      | OutOfFuel => OutOfFuel
      end
  end.

(** The loop of [nodeSplitPath] and the test that follows it: [cur] and
    [idx] are the loop variables and [rest] is what is left of [path];
    [path.slice(0, idx)] and [path.slice(idx)] are [take] and [drop]. *)
Fixpoint nodeSplitPathFrom (node cur : JsValue) (path : Path) (idx : nat)
    (rest : Path) : Result (Path * Path) :=
  match rest with
  | [] =>
      if bool_decide (node = cur) then Ok (take idx path, drop idx path)
      else Throw (Error "node was not in path")
  | seg :: rest' =>
      if bool_decide (node = cur) then Ok (take idx path, drop idx path)
      else
        match getProperty cur seg with
        | Ok cur' => nodeSplitPathFrom node cur' path (S idx) rest'
        | Throw e => Throw e
        | OutOfFuel => OutOfFuel
        end
  end.

Definition nodeSplitPath (node root : JsValue) (path : Path)
    : Result (Path * Path) :=
  nodeSplitPathFrom node root path 0 path.

(** [before] is the shortest prefix of [path] that leads from [root] to
    [node], and [after] is the rest of [path]. *)
Definition SplitAt (node root : JsValue) (path before after : Path) : Prop :=
  before ++ after = path
  ∧ nodeFromPath root before = Ok node
  ∧ ∀ j, j < length before →
         nodeFromPath root (take j before) ≠ Ok node.

End PathWalk.

(** ** EditReducer.ts: the expressions of a user function *)

(** [ToIntegerOrInfinity], which [Array.prototype.slice] applies to its
    arguments: [NaN] becomes 0. *)
Definition toIntegerOrInfinity (x : JsNumber) : Z :=
  match x with
  | Integer z => z
  | NaN => 0%Z
  end.

(** The position [Array.prototype.slice] makes of an integer argument: a
    negative one counts from the end of the array, and the result is
    clamped to the array. *)
Definition sliceIndex (len : nat) (i : Z) : nat :=
  if decide (i < 0)%Z then Z.to_nat (Z.max (Z.of_nat len + i) 0)
  else Nat.min (Z.to_nat i) len.

(** [xs.slice(start, end)]. *)
Definition slice {A} (xs : list A) (start end_ : JsNumber) : list A :=
  let k := sliceIndex (length xs) (toIntegerOrInfinity start) in
  let final := sliceIndex (length xs) (toIntegerOrInfinity end_) in
  take (final - k) (drop k xs).

(** [xs.slice(start)]. *)
Definition sliceFrom {A} (xs : list A) (start : JsNumber) : list A :=
  drop (sliceIndex (length xs) (toIntegerOrInfinity start)) xs.

Section UserFunction.
(** [Expr] is the type of the expression nodes and [Other] that of the
    properties of a user function node other than [expressions], which
    the object spread [{...node, expressions: ...}] copies.
    [undefinedExpression uid] is the object literal
    [{type: 'UndefinedExpression', streamId: uid, identifier: null}]. *)
Context {Expr Other : Type}.
Variable undefinedExpression : string → Expr.

Record UserFunctionNode : Type := mkUserFunction {
  other : Other;
  expressions : list Expr;
}.

(** [NodeEditState]: [null] or [{originalNode, tentativeNode}]. *)
Definition NodeEditState : Type := option (Expr * Expr).

(** [deleteDefinitionExpression]; [uid] is the result of the call of
    [genuid], which is made in the second branch only.  [removeIdx] has
    type [number], so the [typeof] check at the top passes, for [NaN] as
    well. *)
Definition deleteDefinitionExpression (uid : string) (node : UserFunctionNode)
    (removeIdx : JsNumber)
    : UserFunctionNode * list PathSegment * NodeEditState :=
  let newExpressions :=
    slice (expressions node) (Integer 0) removeIdx
    ++ sliceFrom (expressions node) (numberAdd removeIdx (Integer 1)) in
  if bool_decide (length newExpressions ≠ 0) then
    let newIdx := numberSub removeIdx (Integer 1) in
    let newIdx := mathMax newIdx (Integer 0) in
    let newIdx :=
      mathMin newIdx
        (Integer (Z.of_nat (length (expressions node)) - 1)) in
    ({| other := other node; expressions := newExpressions |},
     [Field "expressions"; Index newIdx], None)
  else
    let n := undefinedExpression uid in
    ({| other := other node; expressions := newExpressions ++ [n] |},
     [Field "expressions"; Index (Integer 0)], Some (n, n)).

(** [newExpressionIdx] of the handler of [MOVE_UP] and [MOVE_DOWN] on a
    user function; [moveUp] is [action.type === 'MOVE_UP'].  The [typeof]
    check throws when [subpath[1]] is a string or [undefined]. *)
Definition newExpressionIdx (moveUp : bool) (node : UserFunctionNode)
    (subpath : list PathSegment) : Result JsNumber :=
  match subpath !! 1 with
  | Some (Index idx) =>
      let newIdx := numberAdd idx (Integer (if moveUp then -1 else 1)) in
      let newIdx := mathMax newIdx (Integer 0) in
      let newIdx :=
        mathMin newIdx
          (Integer (Z.of_nat (length (expressions node)) - 1)) in
      Ok newIdx
  | _ => Throw (Error EmptyString)
  end.

(** The handler of [MOVE_UP] and [MOVE_DOWN] on a user function; [None]
    is the [undefined] it returns when it does not handle the action. *)
Definition moveExpressionHandler (moveUp : bool) (node : UserFunctionNode)
    (subpath : list PathSegment)
    : Result (option (UserFunctionNode * list PathSegment * NodeEditState)) :=
  if bool_decide (length subpath = 2)
     && bool_decide (subpath !! 0 = Some (Field "expressions"))
  then
    newIdx ← newExpressionIdx moveUp node subpath;
    Ok (Some (node, [Field "expressions"; Index newIdx], None))
  else Ok None.

End UserFunction.

Arguments UserFunctionNode : clear implicits.
Arguments NodeEditState : clear implicits.

(** ** Vocabulary of the properties *)

(** A result that is a behaviour of the program: a value or an exception. *)
Definition Terminated {A} (r : Result A) : Prop :=
  match r with OutOfFuel => False | _ => True end.

(** The environment [compileGlobalTreeDefinition] builds from the supplied
    definitions: a fresh frame chained onto a root frame that holds them. *)
Definition seededFunctionEnvironment
    (globalFunctionEnvironment : CompilationFunctionEnvironment)
    : CompilationFunctionEnvironment :=
  Env.new (Some (Env.mkEnvironment (Env.vars globalFunctionEnvironment) None)).

(** The nodes [visitToFindLocals] is called on when it starts from [node],
    in the order of the calls: the node, then its children, without
    entering a function definition. *)
Fixpoint visited (node : Node) : list Node :=
  node ::
  match node with
  | Application _ _ _ _ sargs fargs =>
      flat_map visited sargs ++ flat_map visited fargs
  | YieldExpression _ expr => visited expr
  | _ => []
  end.

(** The stream ids a node defines. *)
Definition definedIds (node : Node) : list StreamID :=
  match node with
  | UndefinedLiteral _ sid | NumberLiteral _ sid _ | TextLiteral _ sid _
  | BooleanLiteral _ sid _ => [sid]
  | Application _ _ outs _ _ _ => out_sid <$> outs
  | _ => []
  end.

(** The number of nodes of a tree, nested definitions included. *)
Fixpoint nodeSize (node : Node) : nat :=
  S match node with
    | Application _ _ _ _ sargs fargs =>
        list_sum (map nodeSize sargs) + list_sum (map nodeSize fargs)
    | YieldExpression _ expr => nodeSize expr
    | TreeFunctionDefinition _ _ _ body => list_sum (map nodeSize body)
    | _ => 0
    end.

(** The local stream frame binds exactly the pairs of [R] to nodes (its
    other bindings are parameters), and its keys are the local stream ids. *)
Definition StreamsRegistered (R : StreamID → Node → Prop) (L : Locals) : Prop :=
  localStreamIds L = dom (Env.vars (streamEnvironment L))
  ∧ ∀ sid n, Env.vars (streamEnvironment L) !! sid = Some (Some n) ↔ R sid n.

(** The local function frame binds exactly the pairs of [R], and its keys
    are the local function ids, each listed once. *)
Definition FunctionsRegistered (R : FunctionID → Node → Prop) (L : Locals)
    : Prop :=
  (∀ fid, fid ∈ localFunctionIds L
          ↔ fid ∈ dom (Env.vars (functionEnvironment L)))
  ∧ NoDup (localFunctionIds L)
  ∧ ∀ fid f, Env.vars (functionEnvironment L) !! fid = Some f ↔ R fid f.

(** What the collector has established once it has visited the nodes [vs]
    of a scope: the outer environments are those it was given, the local
    stream frame binds each stream id defined by a visited node to that
    node, and the local function frame binds the id of each visited
    function definition to that definition. *)
Record Collected (outerStreamEnvironment : CompilationStreamEnvironment)
    (outerFunctionEnvironment : CompilationFunctionEnvironment)
    (vs : list Node) (L : Locals) : Prop := mkCollected {
  col_outer_stream :
    Env.outer (streamEnvironment L) = Some outerStreamEnvironment;
  col_outer_function :
    Env.outer (functionEnvironment L) = Some outerFunctionEnvironment;
  col_streams :
    StreamsRegistered (λ sid n, n ∈ vs ∧ sid ∈ definedIds n) L;
  col_functions :
    FunctionsRegistered (λ fid f, f ∈ vs ∧ functionExprId f = Ok fid) L;
}.

(** The constant-stream spec a literal node emits. *)
Definition constSpecOf (node : Node) : option ConstStreamSpec :=
  match node with
  | UndefinedLiteral _ sid => Some (CompiledDef.mkConst sid VUndefined)
  | NumberLiteral _ sid v => Some (CompiledDef.mkConst sid (VNumber v))
  | TextLiteral _ sid v => Some (CompiledDef.mkConst sid (VText v))
  | BooleanLiteral _ sid v => Some (CompiledDef.mkConst sid (VBoolean v))
  | _ => None
  end.

(** The ways a call of [traverseStreamExpr] returns, one constructor per
    path through its body; [fuel] is the budget of the nested calls. *)
Inductive TraverseOk (L : Locals) (fuel : nat)
    : Node → CompileState → CompileState → Prop :=
| TraversePermanent node st :
    marked (permanentMarked st) node = true →
    TraverseOk L fuel node st st
| TraverseLiteral node o c st :
    marked (permanentMarked st) node = false →
    marked (temporaryMarked st) node = false →
    nodeId node = Some o → constSpecOf node = Some c →
    TraverseOk L fuel node st (permanentAdd o (pushConst c st))
| TraverseParameter o ref st :
    o ∉ permanentMarked st → o ∉ temporaryMarked st →
    ref ∈ localStreamIds L →
    Env.get (streamEnvironment L) ref = Some None →
    TraverseOk L fuel (StreamReference o ref) st (permanentAdd o st)
| TraverseLocal o ref target st st1 :
    o ∉ permanentMarked st → o ∉ temporaryMarked st →
    ref ∈ localStreamIds L →
    Env.get (streamEnvironment L) ref = Some (Some target) →
    traverseStreamExpr L fuel target (temporaryAdd o st) = Ok st1 →
    TraverseOk L fuel (StreamReference o ref) st
      (permanentAdd o (temporaryDelete o st1))
| TraverseExternal o ref st :
    o ∉ permanentMarked st → o ∉ temporaryMarked st →
    ref ∉ localStreamIds L →
    Env.has (streamEnvironment L) ref = true →
    TraverseOk L fuel (StreamReference o ref) st
      (permanentAdd o (addExternal ref st))
| TraverseApplication o aid outs func sargs fargs functionNode st st1
    streamArgIds funcArgIds :
    o ∉ permanentMarked st → o ∉ temporaryMarked st →
    Env.get (functionEnvironment L) func = Some functionNode →
    forM (sargStep (traverseStreamExpr L fuel)) sargs (temporaryAdd o st, [])
      = Ok (st1, streamArgIds) →
    forM (fargStep L) fargs [] = Ok funcArgIds →
    TraverseOk L fuel (Application o aid outs func sargs fargs) st
      (permanentAdd o
         (pushApp (CompiledDef.mkApp (out_sid <$> outs) aid func
                     streamArgIds funcArgIds)
            (temporaryDelete o st1))).

(** What every returning call of [traverseStreamExpr] leaves as it found
    it, and what it may only add to. *)
Record Framed (L : Locals) (st st' : CompileState) : Prop := mkFramed {
  fr_temporary : temporaryMarked st' = temporaryMarked st;
  fr_permanent : permanentMarked st ⊆ permanentMarked st';
  fr_fresh : ∀ o,
    o ∈ permanentMarked st' → o ∈ permanentMarked st ∨ o ∉ temporaryMarked st;
  fr_yields : yieldIds st' = yieldIds st;
  fr_external : ∀ ref,
    ref ∈ externalReferencedStreamIds st' →
    ref ∈ externalReferencedStreamIds st
    ∨ ((ref ∉ localStreamIds L)
       ∧ Env.has (streamEnvironment L) ref = true);
}.

(** The object identities of the stream-expression nodes of a list. *)
Definition nodeIds (nodes : list Node) : gset nat :=
  list_to_set (omap nodeId nodes).

(** The nodes [N] are those of one scope, to which the environments [L]
    belong: the stream arguments of an application of the scope are in the
    scope, a local stream id bound to a node is bound to a node of the
    scope, and each stream id defined by a node of the scope is local and
    bound to that node. *)
Record Scope (L : Locals) (N : list Node) : Prop := mkScope {
  scope_sargs : ∀ o aid outs func sargs fargs x,
    Application o aid outs func sargs fargs ∈ N → x ∈ sargs → x ∈ N;
  scope_target : ∀ ref target,
    ref ∈ localStreamIds L →
    Env.get (streamEnvironment L) ref = Some (Some target) →
    target ∈ N ∧ ref ∈ definedIds target;
  scope_defines : ∀ node sid,
    node ∈ N → sid ∈ definedIds node →
    sid ∈ localStreamIds L
    ∧ Env.get (streamEnvironment L) sid = Some (Some node);
}.

(** [Invokes L fuel node st fuel' node' st']: the call of
    [traverseStreamExpr] on [node] in the state [st] makes, itself or
    through the calls it makes, the call of [traverseStreamExpr] on [node']
    in the state [st'] (the budgets of the two calls are [fuel] and
    [fuel']).  A call makes nested calls from two places: on the defining
    node of a local reference, and on each stream argument of an
    application once the arguments before it have been resolved. *)
Inductive Invokes (L : Locals)
    : nat → Node → CompileState → nat → Node → CompileState → Prop :=
| InvokesItself fuel node st :
    Invokes L fuel node st fuel node st
| InvokesTarget fuel o ref targetExpressionNode st fuel' node' st' :
    marked (permanentMarked st) (StreamReference o ref) = false →
    marked (temporaryMarked st) (StreamReference o ref) = false →
    bool_decide (ref ∈ localStreamIds L) = true →
    Env.get (streamEnvironment L) ref = Some (Some targetExpressionNode) →
    Invokes L fuel targetExpressionNode (temporaryAdd o st) fuel' node' st' →
    Invokes L (S fuel) (StreamReference o ref) st fuel' node' st'
| InvokesArgument fuel o aid outs func sargs fargs functionNode
    before sarg after st st1 streamArgIds fuel' node' st' :
    marked (permanentMarked st) (Application o aid outs func sargs fargs)
      = false →
    marked (temporaryMarked st) (Application o aid outs func sargs fargs)
      = false →
    Env.get (functionEnvironment L) func = Some functionNode →
    sargs = before ++ sarg :: after →
    forM (sargStep (traverseStreamExpr L fuel)) before (temporaryAdd o st, [])
      = Ok (st1, streamArgIds) →
    Invokes L fuel sarg st1 fuel' node' st' →
    Invokes L (S fuel) (Application o aid outs func sargs fargs) st
      fuel' node' st'.

(** The expression a body entry hands to [traverseStreamExpr]: the entry
    itself when it is a stream expression, the wrapped expression when it
    is a yield. *)
Definition entryExpression (entry : Node) : option Node :=
  match entry with
  | YieldExpression _ expr => Some expr
  | _ => if isStreamExpressionNode entry then Some entry else None
  end.

(** The id [streamExprReturnedId] answers for a node, as a total function
    (the empty string where it answers none). *)
Definition returnedId (node : Node) : StreamID :=
  match streamExprReturnedId node with
  | Ok (Some sid) => sid
  | _ => EmptyString
  end.

(** The id [functionExprId] answers for a node, as a total function. *)
Definition definitionId (node : Node) : FunctionID :=
  match functionExprId node with
  | Ok fid => fid
  | _ => EmptyString
  end.

(** The application spec an application node emits. *)
Definition appSpecOf (node : Node) : option AppSpec :=
  match node with
  | Application _ aid outs func sargs fargs =>
      Some (CompiledDef.mkApp (out_sid <$> outs) aid func
              (returnedId <$> sargs) (definitionId <$> fargs))
  | _ => None
  end.

(** The nodes of the scope of a definition: those its collector visits. *)
Definition scopeNodes (definition : Node) : list Node :=
  match definition with
  | TreeFunctionDefinition _ _ _ body => flat_map visited body
  | _ => []
  end.

(** The nodes a node waits for have been resolved, [before] being the
    nodes resolved so far: the stream arguments of an application (each of
    which has a returned id), and the defining node of a local reference. *)
Definition DependenciesResolved (L : Locals) (before : list Node)
    (node : Node) : Prop :=
  match node with
  | Application _ _ _ _ sargs _ =>
      ∀ x, x ∈ sargs →
           (∃ o, nodeId x = Some o ∧ o ∈ nodeIds before)
           ∧ ∃ sid, streamExprReturnedId x = Ok (Some sid)
  | StreamReference _ ref =>
      ∀ target,
        ref ∈ localStreamIds L →
        Env.get (streamEnvironment L) ref = Some (Some target) →
        ∃ o, nodeId target = Some o ∧ o ∈ nodeIds before
  | _ => True
  end.

(** The state of the resolver of a scope [N] after it has permanent-marked
    the nodes [order], in that order: they are the permanent-marked nodes,
    each occurs once, the emitted constant specs and application specs are
    those of the nodes of [order], in that order, and each node was marked
    after the nodes it waits for. *)
Record Resolved (L : Locals) (N : list Node) (order : list Node)
    (st : CompileState) : Prop := mkResolved {
  res_permanent : permanentMarked st = nodeIds order;
  res_nodup : NoDup (nodeId <$> order);
  res_scope : ∀ node, node ∈ order → node ∈ N ∧ is_Some (nodeId node);
  res_consts : constStreams st = omap constSpecOf order;
  res_apps : apps st = omap appSpecOf order;
  res_disjoint : temporaryMarked st ## permanentMarked st;
  res_dependencies : ∀ p node,
    order !! p = Some node → DependenciesResolved L (take p order) node;
}.

(** Distinct node objects have distinct identities: a node is determined
    by its identity. *)
Definition IdentityCoherent (nodes : list Node) : Prop :=
  ∀ n1 n2 o,
    n1 ∈ nodes → n2 ∈ nodes → nodeId n1 = Some o → nodeId n2 = Some o →
    n1 = n2.

(** The test of the loop over the local function ids: the id is bound to
    a tree function definition. *)
Definition isTreeFunction (functionEnvironment : CompilationFunctionEnvironment)
    (fid : FunctionID) : bool :=
  match Env.get functionEnvironment fid with
  | Some funcDef => bool_decide (kind funcDef = KTreeFunctionDefinition)
  | None => false
  end.

(** The id under which a function definition node is registered. *)
Definition definedFunctionId (node : Node) : option FunctionID :=
  match node with
  | NativeFunctionDefinition fid | TreeFunctionDefinition fid _ _ _ => Some fid
  | _ => None
  end.

(** What the collector has done to the locals once it has registered the
    stream ids [seen] and the function ids [fseen], in that order, the
    stream ids [params] being those of the parameters. *)
Record Registered (oS : CompilationStreamEnvironment)
    (oF : CompilationFunctionEnvironment) (params seen : list StreamID)
    (fseen : list FunctionID) (L : Locals) : Prop := mkRegistered {
  reg_outer_stream : Env.outer (streamEnvironment L) = Some oS;
  reg_outer_function : Env.outer (functionEnvironment L) = Some oF;
  reg_nodup : NoDup seen;
  reg_dom : dom (Env.vars (streamEnvironment L)) = list_to_set seen;
  reg_local : localStreamIds L = list_to_set seen;
  reg_fresh : ∀ sid, sid ∈ seen → Env.has oS sid = false;
  reg_params : ∀ sid,
    Env.vars (streamEnvironment L) !! sid = Some None → sid ∈ params;
  reg_fnodup : NoDup fseen;
  reg_fdom : ∀ fid, fid ∈ fseen ↔ fid ∈ dom (Env.vars (functionEnvironment L));
  reg_flocal : localFunctionIds L = fseen;
  reg_ffresh : ∀ fid, fid ∈ fseen → Env.has oF fid = false;
}.

(** The ids the collector of a scope registers: the stream parameters
    followed by the stream ids defined by the visited nodes, and the ids of
    the visited function definitions, in the order of the visits. *)
Definition scopeStreamIds (sparams : list StreamID) (body : list Node)
    : list StreamID :=
  sparams ++ flat_map definedIds (flat_map visited body).

Definition scopeFunctionIds (body : list Node) : list FunctionID :=
  omap definedFunctionId (flat_map visited body).

(** The condition under which the collector accepts a scope: no id is
    registered twice and none is visible in the outer environments. *)
Definition Registrable (sparams : list StreamID) (body : list Node)
    (oS : CompilationStreamEnvironment) (oF : CompilationFunctionEnvironment)
    : Prop :=
  NoDup (scopeStreamIds sparams body)
  ∧ (∀ sid, sid ∈ scopeStreamIds sparams body → Env.has oS sid = false)
  ∧ NoDup (scopeFunctionIds body)
  ∧ (∀ fid, fid ∈ scopeFunctionIds body → Env.has oF fid = false).

(** The stream ids a compiled definition defines: those of its stream
    parameters, of its constant streams and of the outputs of its
    applications. *)
Definition definedStreamIds (cd : CompiledDefinition) : list StreamID :=
  CompiledDef.streamParamIds cd
  ++ (CompiledDef.sid <$> CompiledDef.constStreams cd)
  ++ flat_map CompiledDef.sids (CompiledDef.apps cd).

(** The output index at which a body entry yields. *)
Definition yieldIndex (entry : Node) : option nat :=
  match entry with
  | YieldExpression idx _ => Some idx
  | _ => None
  end.

(** The stream id a body entry yields at the output index [i]. *)
Definition yieldAt (i : nat) (entry : Node) : option StreamID :=
  match entry with
  | YieldExpression idx expr =>
      if decide (idx = i) then Some (returnedId expr) else None
  | _ => None
  end.

(** An array index of the language: an integer from 0 to 2^32 - 2.  The
    assignment [yieldIds[idx] = sid] stores an element of the array, and
    extends the array when needed, for such an [idx] only. *)
Definition isArrayIndex (idx : nat) : bool :=
  (Z.of_nat idx <? 4294967295)%Z.

(** The id under which a tree function definition node is compiled. *)
Definition treeFunctionId (node : Node) : option FunctionID :=
  match node with
  | TreeFunctionDefinition fid _ _ _ => Some fid
  | _ => None
  end.

(** The stream ids the reference nodes of a list refer to. *)
Definition referencedIds (nodes : list Node) : list StreamID :=
  omap (λ node, match node with
                | StreamReference _ ref => Some ref
                | _ => None
                end) nodes.

(** What [traverseStreamExpr] has established about a node by the time it
    permanent-marks it: a local reference is to a parameter or to a node
    that is permanent-marked, any other reference is to an id visible in
    the environment and recorded as external, and an application applies a
    bound function to stream arguments that are permanent-marked and have
    a returned id, and to function arguments that are bound function
    definitions. *)
Definition Processed (L : Locals) (st : CompileState) (node : Node) : Prop :=
  match node with
  | StreamReference _ ref =>
      if bool_decide (ref ∈ localStreamIds L) then
        Env.get (streamEnvironment L) ref = Some None
        ∨ ∃ target o,
            Env.get (streamEnvironment L) ref = Some (Some target)
            ∧ nodeId target = Some o ∧ o ∈ permanentMarked st
      else
        Env.has (streamEnvironment L) ref = true
        ∧ ref ∈ externalReferencedStreamIds st
  | Application _ _ _ func sargs fargs =>
      is_Some (Env.get (functionEnvironment L) func)
      ∧ (∀ x, x ∈ sargs →
              ∃ o sid, nodeId x = Some o ∧ o ∈ permanentMarked st
                       ∧ streamExprReturnedId x = Ok (Some sid)
                       ∧ sid ≠ EmptyString)
      ∧ (∀ x, x ∈ fargs →
              ∃ fid, functionExprId x = Ok fid
                     ∧ is_Some (Env.get (functionEnvironment L) fid))
  | _ => True
  end.

(** The state of the resolver of a scope [N]: every permanent-marked node
    of the scope has been processed, and every external reference comes
    from a reference node of the scope to an id that is not local. *)
Record Complete (L : Locals) (N : list Node) (st : CompileState) : Prop :=
  mkComplete {
  cmp_processed : ∀ node o,
    node ∈ N → nodeId node = Some o → o ∈ permanentMarked st →
    Processed L st node;
  cmp_external : ∀ ref,
    ref ∈ externalReferencedStreamIds st →
    (ref ∉ localStreamIds L) ∧ ∃ o, StreamReference o ref ∈ N;
}.

(** A function id is bound in a scope: it is the id of a function
    definition the collector visits, or it is visible in the outer function
    environment. *)
Definition FunctionBound (body : list Node)
    (outerFunctionEnvironment : CompilationFunctionEnvironment)
    (fid : FunctionID) : Prop :=
  fid ∈ scopeFunctionIds body ∨ Env.has outerFunctionEnvironment fid = true.

(** The ids of an application spec are usable: the applied function and
    the function arguments are bound in the function environment, and no
    stream argument id is empty. *)
Definition AppBound (L : Locals) (a : AppSpec) : Prop :=
  is_Some (Env.get (functionEnvironment L) (CompiledDef.funcId a))
  ∧ (∀ fid, fid ∈ CompiledDef.fargIds a →
            is_Some (Env.get (functionEnvironment L) fid))
  ∧ ∀ sid, sid ∈ CompiledDef.sargIds a → sid ≠ EmptyString.

(** ** Example trees *)

Definition nativeAdd : Node := NativeFunctionDefinition "add".

Definition globalFunctions : CompilationFunctionEnvironment :=
  Env.mkEnvironment {[ "add" := nativeAdd ]} None.

(** A main definition whose only body entry yields a literal at output
    index 1; nothing yields at index 0. *)
Definition yieldGap : Node :=
  TreeFunctionDefinition "main" [] []
    [ YieldExpression 1 (NumberLiteral 1 "x" 3) ].

(** [x := 3; y := add(x, x)]. *)
Definition sharedLiteral : Node :=
  TreeFunctionDefinition "main" [] []
    [ NumberLiteral 1 "x" 3;
      Application 2 "A-1" [mkOut "y" None] "add"
        [StreamReference 3 "x"; StreamReference 4 "x"] [] ].

(** A frame that binds nothing, chained onto a frame that binds ["x"]. *)
Definition shadowingLocals : Locals :=
  {| streamEnvironment :=
       Env.new (Some (Env.mkEnvironment
                        {[ "x" := Some (NumberLiteral 1 "x" 3) ]} None));
     functionEnvironment := Env.new None;
     localStreamIds := ∅;
     localFunctionIds := [] |}.

(** [a := add(b); b := add(a)]: each application consumes a reference to
    the output of the other. *)
Definition mutualCycle : Node :=
  TreeFunctionDefinition "main" [] []
    [ Application 1 "A-1" [mkOut "a" None] "add" [StreamReference 3 "b"] [];
      Application 2 "A-2" [mkOut "b" None] "add" [StreamReference 4 "a"] [] ].

(** An application with two outputs, the first unnamed and yielded, the
    second named and referenced by another application, which also
    references the literal [x] twice; [x] is the argument of the first
    application as well. *)
Definition multiOutput : Node :=
  TreeFunctionDefinition "main" [] []
    [ YieldExpression 0
        (Application 1 "A-1" [mkOut "p" None; mkOut "q" (Some "q")] "add"
           [NumberLiteral 2 "x" 3] []);
      Application 3 "A-2" [mkOut "r" None] "add"
        [StreamReference 4 "q"; StreamReference 5 "x"; StreamReference 6 "x"]
        [] ].

(** An application whose function arguments are a local tree function
    definition [g], which references the stream [x] of the enclosing scope
    and its own parameter, and a native function definition [n]; neither
    is applied anywhere. *)
Definition localFunctions : Node :=
  TreeFunctionDefinition "main" [] []
    [ NumberLiteral 1 "x" 3;
      Application 2 "A-1" [mkOut "y" None] "add" [StreamReference 3 "x"]
        [ TreeFunctionDefinition "g" ["p"] []
            [ YieldExpression 0 (StreamReference 4 "x");
              StreamReference 5 "p" ];
          NativeFunctionDefinition "n" ] ].

(** A function definition placed directly among the body entries. *)
Definition bodyFunction : Node :=
  TreeFunctionDefinition "main" [] []
    [ NumberLiteral 1 "x" 3;
      TreeFunctionDefinition "g" [] [] [] ].

(** A local function [g] whose body defines a literal under the stream id
    [x] that the enclosing scope already defines. *)
Definition shadowedStream : Node :=
  TreeFunctionDefinition "main" [] []
    [ NumberLiteral 1 "x" 3;
      Application 2 "A-1" [mkOut "y" None] "add" []
        [ TreeFunctionDefinition "g" [] [] [NumberLiteral 3 "x" 4] ] ].

(** A main definition that yields twice at output index 2 and once at
    index 0, and never at index 1. *)
Definition repeatedYield : Node :=
  TreeFunctionDefinition "main" [] []
    [ YieldExpression 2 (NumberLiteral 1 "a" 1);
      YieldExpression 0 (NumberLiteral 2 "b" 2);
      YieldExpression 2 (StreamReference 3 "b") ].

(** The stream environment of a scope that encloses a local function: it
    binds [x] to a literal. *)
Definition enclosingStreams : CompilationStreamEnvironment :=
  Env.mkEnvironment {[ "x" := Some (NumberLiteral 1 "x" 3) ]} None.

(** The local function [g] of [localFunctions]: it yields the stream [x]
    of the enclosing scope and mentions its own parameter [p]. *)
Definition innerFunction : Node :=
  TreeFunctionDefinition "g" ["p"] []
    [ YieldExpression 0 (StreamReference 4 "x");
      StreamReference 5 "p" ].

(** A scope with the parameter [p] and the local literal [a], enclosed by
    the scope [enclosingStreams], which binds [x]; nothing binds [z]. *)
Definition resolutionLocals : Locals :=
  {| streamEnvironment :=
       Env.mkEnvironment
         {[ "p" := None; "a" := Some (NumberLiteral 1 "a" 3) ]}
         (Some enclosingStreams);
     functionEnvironment := Env.new None;
     localStreamIds := {[ "p"; "a" ]};
     localFunctionIds := [] |}.

(** The tree in which every node is its own address: the value at the end
    of a path is the path. *)
Definition addressTree (cur : Path) (seg : PathSegment) : Result Path :=
  Ok (cur ++ [seg]).

(** * Properties *)

(** ** Results and loops *)

Lemma bind_Ok {A B} (m : Result A) (f : A → Result B) (b : B) :
  m ≫= f = Ok b ↔ ∃ a, m = Ok a ∧ f a = Ok b.
Proof.
  destruct m as [a| |]; cbn; split; try (intros (? & ? & ?)); try done.
  - eauto.
  - by simplify_eq.
Qed.

Lemma forM_cons {A S} (f : A → S → Result S) x xs s :
  forM f (x :: xs) s = f x s ≫= forM f xs.
Proof. cbn. by destruct (f x s). Qed.

Lemma forM_app {A S} (f : A → S → Result S) xs ys s :
  forM f (xs ++ ys) s = forM f xs s ≫= forM f ys.
Proof.
  revert s. induction xs as [|x xs IH]; intros s; [done|].
  rewrite <- app_comm_cons, !forM_cons. destruct (f x s); cbn; auto.
Qed.

Lemma forM_flat_map {A B S} (g : A → list B) (f : B → S → Result S) xs s :
  forM (λ x, forM f (g x)) xs s = forM f (flat_map g xs) s.
Proof.
  revert s. induction xs as [|x xs IH]; intros s; [done|].
  cbn [flat_map]. rewrite forM_cons, forM_app.
  destruct (forM f (g x) s); cbn; auto.
Qed.

Lemma forM_ext_in {A S} (f g : A → S → Result S) xs s :
  (∀ x s', x ∈ xs → f x s' = g x s') → forM f xs s = forM g xs s.
Proof.
  revert s. induction xs as [|x xs IH]; intros s Hfg; [done|].
  rewrite !forM_cons, Hfg by left.
  destruct (g x s); cbn; auto. apply IH. intros; apply Hfg. by right.
Qed.

(** An invariant of the loop state is kept by a loop that returns. *)
Lemma forM_invariant {A S} (P : S → Prop) (f : A → S → Result S) xs s s' :
  (∀ x t t', x ∈ xs → P t → f x t = Ok t' → P t') →
  P s → forM f xs s = Ok s' → P s'.
Proof.
  revert s. induction xs as [|x xs IH]; intros s Hstep Hs Hrun.
  - by simplify_eq/=.
  - rewrite forM_cons in Hrun. apply bind_Ok in Hrun as (t & Hx & Hrest).
    eapply IH; [| |done].
    + intros; eapply Hstep; [by right|done..].
    + eapply Hstep; [by left|done..].
Qed.

(** ** Environments *)

Lemma Env_has_get {K} `{Countable K} {V} (e : Environment K V) k :
  Env.has e k = true ↔ is_Some (Env.get e k).
Proof.
  revert e. fix IH 1. intros [m [o|]]; cbn; destruct (m !! k); cbn.
  - split; eauto.
  - apply IH.
  - split; eauto.
  - split; [done|]. by intros [? ?].
Qed.

Lemma Env_has_frame {K} `{Countable K} {V} (e : Environment K V) k :
  Env.has e k =
    bool_decide (k ∈ dom (Env.vars e))
    || match Env.outer e with Some o => Env.has o k | None => false end.
Proof.
  destruct e as [m o]; cbn. destruct (m !! k) eqn:Hk.
  - rewrite bool_decide_eq_true_2; [done|]. apply elem_of_dom; eauto.
  - rewrite bool_decide_eq_false_2; [done|]. by apply not_elem_of_dom.
Qed.

Lemma Env_get_local {K} `{Countable K} {V} (e : Environment K V) k v :
  Env.vars e !! k = Some v → Env.get e k = Some v.
Proof. destruct e as [m o]; cbn. by intros ->. Qed.

Lemma Env_get_outer {K} `{Countable K} {V} (e : Environment K V) k :
  Env.vars e !! k = None →
  Env.get e k = match Env.outer e with Some o => Env.get o k | None => None end.
Proof. destruct e as [m o]; cbn. by intros ->. Qed.

Lemma envSet_fresh {K} `{Countable K} {V} (e : Environment K V) k v :
  Env.vars e !! k = None →
  envSet e k v = Ok (Env.mkEnvironment (<[k := v]> (Env.vars e)) (Env.outer e)).
Proof. destruct e as [m o]; unfold envSet; cbn. by intros ->. Qed.

(** [set] never fails after a [has] that answered [false]. *)
Lemma Env_set_after_has {K} `{Countable K} {V} (e : Environment K V) k v :
  Env.has e k = false →
  envSet e k v = Ok (Env.mkEnvironment (<[k := v]> (Env.vars e)) (Env.outer e)).
Proof.
  destruct e as [m o]; unfold envSet; cbn. by destruct (m !! k).
Qed.

(** ** The entry point *)

Lemma seed_loop (l : list (FunctionID * Node)) (m0 : gmap FunctionID Node) :
  NoDup l.*1 → (∀ k, k ∈ l.*1 → m0 !! k = None) →
  ∃ m, forM (λ kv env, envSet env kv.1 kv.2) l (Env.mkEnvironment m0 None)
         = Ok (Env.mkEnvironment m None)
       ∧ ∀ k, m !! k = match list_to_map (M := gmap FunctionID Node) l !! k with
                       | Some v => Some v
                       | None => m0 !! k
                       end.
Proof.
  revert m0. induction l as [|[k v] l IH]; intros m0 Hnd Hfresh.
  - exists m0. split; [done|]. intros k. done.
  - cbn in Hnd. apply NoDup_cons in Hnd as [Hk Hnd].
    rewrite forM_cons, envSet_fresh by (apply Hfresh; cbn; left). cbn.
    destruct (IH (<[k := v]> m0)) as (m & Hrun & Hm); [done| |].
    { intros k' Hk'. rewrite lookup_insert_ne; [|by intros ->].
      apply Hfresh. cbn. by right. }
    exists m. split; [done|]. intros k'. rewrite Hm.
    destruct (decide (k = k')) as [->|Hne].
    + rewrite lookup_insert_eq.
      rewrite (not_elem_of_list_to_map_1 _ k') by done.
      by rewrite lookup_insert_eq.
    + by rewrite !lookup_insert_ne by done.
Qed.

Lemma seed_forEach (genv : CompilationFunctionEnvironment) :
  Env.forEach genv (λ defNode fid env, envSet env fid defNode) (Env.new None)
  = Ok (Env.mkEnvironment (Env.vars genv) None).
Proof.
  unfold Env.forEach, Env.new.
  destruct (seed_loop (map_to_list (Env.vars genv)) ∅) as (m & Hrun & Hm).
  - apply NoDup_fst_map_to_list.
  - intros; apply lookup_empty.
  - cbn in Hrun |- *. rewrite Hrun. do 2 f_equal. apply map_eq. intros k.
    rewrite Hm, list_to_map_to_list. by destruct (_ !! k).
Qed.

(** C5: [compileGlobalTreeDefinition] compiles the main definition against
    an empty root stream environment and a function environment that holds
    every supplied definition; it throws when the set of externally
    referenced stream ids that call returns is not empty, returns the
    compiled definition when it is empty, and fails as that call fails. *)
Theorem C5_global_closure_check (fuel : nat) (definition : Node)
    (globalFunctionEnvironment : CompilationFunctionEnvironment) :
  (∀ fid, Env.get (seededFunctionEnvironment globalFunctionEnvironment) fid
          = Env.vars globalFunctionEnvironment !! fid)
  ∧ compileGlobalTreeDefinition fuel definition globalFunctionEnvironment =
    match compileTreeDefinition fuel definition (Env.new None)
            (seededFunctionEnvironment globalFunctionEnvironment) with
    | Ok (compiledDefinition, externalReferencedStreamIds) =>
        if decide (externalReferencedStreamIds = ∅)
        then Ok compiledDefinition
        else Throw (Error EmptyString)
    | Throw e => Throw e
    | OutOfFuel => OutOfFuel
    end.
Proof.
  split.
  - intros fid. unfold seededFunctionEnvironment. rewrite Env_get_outer by apply lookup_empty. cbn. by destruct (_ !! fid).
  - unfold compileGlobalTreeDefinition. rewrite seed_forEach. cbn.
    unfold seededFunctionEnvironment.
    destruct (compileTreeDefinition _ _ _ _) as [[cd ext]| |]; cbn; try done.
    destruct (decide (ext = ∅)) as [->|Hne].
    + by rewrite bool_decide_eq_false_2 by (rewrite size_empty; lia).
    + rewrite bool_decide_eq_true_2; [done|].
      destruct (size ext) eqn:Hsz; [|lia].
      apply size_empty_inv in Hsz. by apply leibniz_equiv in Hsz.
Qed.

(** ** Yield outputs *)

(** C3 (what the code does): a body that only yields at index 1 compiles,
    and the yield ids of the compiled definition have a hole at index 0. *)
Theorem C3_yield_gap_is_returned :
  compileGlobalTreeDefinition 2 yieldGap globalFunctions
  = Ok (CompiledDef.mkDef [] []
          [CompiledDef.mkConst "x" (VNumber 3)] [] [] [None; Some "x"]).
Proof. vm_compute. reflexivity. Qed.

(** ** Registration of local ids *)

Lemma defineStream_throws sid target L e :
  defineStream sid target L = Throw e →
  e = Error "must be unique" ∧ Env.has (streamEnvironment L) sid = true.
Proof.
  unfold defineStream. destruct (Env.has _ _) eqn:Hhas.
  - by intros [= <-].
  - by rewrite Env_set_after_has.
Qed.

Lemma defineStream_Ok sid target L :
  Env.has (streamEnvironment L) sid = false →
  defineStream sid target L =
    Ok {| streamEnvironment :=
            Env.mkEnvironment (<[sid := target]> (Env.vars (streamEnvironment L)))
              (Env.outer (streamEnvironment L));
          functionEnvironment := functionEnvironment L;
          localStreamIds := {[ sid ]} ∪ localStreamIds L;
          localFunctionIds := localFunctionIds L |}.
Proof.
  intros Hhas. unfold defineStream. by rewrite Hhas, Env_set_after_has.
Qed.

Lemma defineFunction_Ok fid node L :
  Env.has (functionEnvironment L) fid = false →
  defineFunction fid node L =
    Ok {| streamEnvironment := streamEnvironment L;
          functionEnvironment :=
            Env.mkEnvironment (<[fid := node]> (Env.vars (functionEnvironment L)))
              (Env.outer (functionEnvironment L));
          localStreamIds := localStreamIds L;
          localFunctionIds := orderedAdd fid (localFunctionIds L) |}.
Proof.
  intros Hhas. unfold defineFunction. by rewrite Hhas, Env_set_after_has.
Qed.

(** C6 (as stated, refuted): the id ["x"] is bound in the enclosing frame
    only, not in the local frame, and yet registering it fails. *)
Lemma C6_outer_binding_rejected :
  Env.vars (streamEnvironment shadowingLocals) !! "x" = None
  ∧ Env.has (streamEnvironment shadowingLocals) "x" = true
  ∧ defineStream "x" (Some (NumberLiteral 2 "x" 4)) shadowingLocals
    = Throw (Error "must be unique").
Proof. split_and!; vm_compute; reflexivity. Qed.

(** C6 (amended): registering a stream id or a function id fails, with the
    error "must be unique", exactly when the id is visible in the
    environment chain, that is when it is bound in the local frame or in
    an enclosing one; otherwise it succeeds and binds the id in the local
    frame. *)
Theorem C6_registration_fails_iff_visible (L : Locals) (id : string) :
  (∀ target,
     (∃ e, defineStream id target L = Throw e)
     ↔ (id ∈ dom (Env.vars (streamEnvironment L))
        ∨ ∃ o, Env.outer (streamEnvironment L) = Some o ∧ Env.has o id = true))
  ∧ (∀ target e, defineStream id target L = Throw e → e = Error "must be unique")
  ∧ (∀ target,
       Env.has (streamEnvironment L) id = false →
       ∃ L', defineStream id target L = Ok L'
             ∧ Env.vars (streamEnvironment L') !! id = Some target)
  ∧ (∀ node,
     (∃ e, defineFunction id node L = Throw e)
     ↔ (id ∈ dom (Env.vars (functionEnvironment L))
        ∨ ∃ o, Env.outer (functionEnvironment L) = Some o ∧ Env.has o id = true))
  ∧ (∀ node e, defineFunction id node L = Throw e → e = Error "must be unique")
  ∧ (∀ node,
       Env.has (functionEnvironment L) id = false →
       ∃ L', defineFunction id node L = Ok L'
             ∧ Env.vars (functionEnvironment L') !! id = Some node).
Proof.
  assert (Hvis : ∀ V (env : Environment string V),
            Env.has env id = true
            ↔ (id ∈ dom (Env.vars env)
               ∨ ∃ o, Env.outer env = Some o ∧ Env.has o id = true)).
  { intros V env. rewrite Env_has_frame, orb_true_iff, bool_decide_eq_true.
    destruct (Env.outer env) as [o|].
    - split; [intros [?|?]; [by left|right; by exists o]|].
      intros [?|(o' & [= <-] & ?)]; [by left|by right].
    - split; [intros [?|?]; [by left|done]|].
      intros [?|(? & ? & ?)]; [by left|done]. }
  split_and!.
  - intros target. split.
    + intros [e He]. apply Hvis. by apply defineStream_throws in He as [_ ?].
    + intros Hv. apply Hvis in Hv. unfold defineStream. rewrite Hv. by eexists.
  - intros target e He. by apply defineStream_throws in He as [? _].
  - intros target Hhas. eexists. split; [by apply defineStream_Ok|].
    cbn. apply lookup_insert_eq.
  - intros node. split.
    + intros [e He]. apply Hvis. unfold defineFunction in He.
      destruct (Env.has _ _) eqn:Hhas; [done|].
      by rewrite Env_set_after_has in He.
    + intros Hv. apply Hvis in Hv. unfold defineFunction. rewrite Hv. by eexists.
  - intros node e He. unfold defineFunction in He.
    destruct (Env.has _ _) eqn:Hhas; [by simplify_eq|].
    by rewrite Env_set_after_has in He.
  - intros node Hhas. eexists. split; [by apply defineFunction_Ok|].
    cbn. apply lookup_insert_eq.
Qed.

(** ** The program tree *)

Lemma Node_nested_ind (P : Node → Prop) :
  (∀ o sid, P (UndefinedLiteral o sid)) →
  (∀ o sid v, P (NumberLiteral o sid v)) →
  (∀ o sid v, P (TextLiteral o sid v)) →
  (∀ o sid v, P (BooleanLiteral o sid v)) →
  (∀ o ref, P (StreamReference o ref)) →
  (∀ o aid outs func sargs fargs,
     Forall P sargs → Forall P fargs →
     P (Application o aid outs func sargs fargs)) →
  (∀ idx expr, P expr → P (YieldExpression idx expr)) →
  (∀ fid, P (NativeFunctionDefinition fid)) →
  (∀ fid sparams fparams body,
     Forall P body → P (TreeFunctionDefinition fid sparams fparams body)) →
  ∀ node, P node.
Proof.
  intros Hund Hnum Htxt Hbool Href Happ Hyield Hnat Htree.
  fix IH 1. intros [o sid|o sid v|o sid v|o sid v|o ref
                   |o aid outs func sargs fargs|idx expr|fid
                   |fid sparams fparams body].
  - apply Hund.
  - apply Hnum.
  - apply Htxt.
  - apply Hbool.
  - apply Href.
  - apply Happ.
    + induction sargs as [|x xs IHxs]; constructor; [apply IH|apply IHxs].
    + induction fargs as [|x xs IHxs]; constructor; [apply IH|apply IHxs].
  - apply Hyield, IH.
  - apply Hnat.
  - apply Htree.
    induction body as [|x xs IHxs]; constructor; [apply IH|apply IHxs].
Qed.

Lemma visited_self node : node ∈ visited node.
Proof. destruct node; cbn; left. Qed.

Lemma elem_of_flat_map {A B} (f : A → list B) (xs : list A) (y : B) :
  y ∈ flat_map f xs ↔ ∃ x, x ∈ xs ∧ y ∈ f x.
Proof.
  rewrite list_elem_of_In, in_flat_map.
  split; intros (x & Hx & Hy); exists x; by rewrite ?list_elem_of_In in *.
Qed.

(** The visited nodes are closed under taking the visited nodes of one of
    them. *)
Lemma visited_trans root node x :
  node ∈ visited root → x ∈ visited node → x ∈ visited root.
Proof.
  revert node x. induction root as
    [| | | | |o aid outs func sargs fargs IHs IHf|idx expr IH| |]
    using Node_nested_ind; intros node x Hnode Hx; cbn in Hnode;
    try (apply list_elem_of_singleton in Hnode as ->; exact Hx).
  - apply elem_of_cons in Hnode as [->|Hnode]; [done|].
    cbn. right. apply elem_of_app in Hnode as [Hnode|Hnode];
      apply elem_of_flat_map in Hnode as (y & Hy & Hnode); apply elem_of_app.
    + left. apply elem_of_flat_map. exists y. split; [done|].
      rewrite Forall_forall in IHs. eapply IHs; eauto.
    + right. apply elem_of_flat_map. exists y. split; [done|].
      rewrite Forall_forall in IHf. eapply IHf; eauto.
  - apply elem_of_cons in Hnode as [->|Hnode]; [done|].
    cbn. right. eauto.
Qed.

Lemma visited_sargs root o aid outs func sargs fargs x :
  Application o aid outs func sargs fargs ∈ visited root →
  x ∈ sargs → x ∈ visited root.
Proof.
  intros Happ Hx. eapply visited_trans; [done|]. cbn. right.
  apply elem_of_app. left. apply elem_of_flat_map. exists x.
  split; [done|apply visited_self].
Qed.

Lemma list_sum_elem (f : Node → nat) xs x : x ∈ xs → f x ≤ list_sum (map f xs).
Proof.
  induction 1 as [x l|x y l Hx IH]; simpl; lia.
Qed.

Lemma visited_size root x : x ∈ visited root → nodeSize x ≤ nodeSize root.
Proof.
  revert x. induction root as
    [| | | | |o aid outs func sargs fargs IHs IHf|idx expr IH| |]
    using Node_nested_ind; intros x Hx; simpl in Hx;
    try (apply list_elem_of_singleton in Hx as ->; done).
  - apply elem_of_cons in Hx as [->|Hx]; [done|].
    simpl. apply elem_of_app in Hx as [Hx|Hx];
      apply elem_of_flat_map in Hx as (y & Hy & Hx).
    + rewrite Forall_forall in IHs. specialize (IHs y Hy x Hx).
      pose proof (list_sum_elem nodeSize sargs y Hy). lia.
    + rewrite Forall_forall in IHf. specialize (IHf y Hy x Hx).
      pose proof (list_sum_elem nodeSize fargs y Hy). lia.
  - apply elem_of_cons in Hx as [->|Hx]; [done|].
    simpl. specialize (IH x Hx). lia.
Qed.

Lemma visited_length root : length (visited root) ≤ nodeSize root.
Proof.
  induction root as
    [| | | | |o aid outs func sargs fargs IHs IHf|idx expr IH| |]
    using Node_nested_ind; simpl; try lia.
  rewrite length_app. apply le_n_S.
  assert (Hsum : ∀ xs, Forall (λ n, length (visited n) ≤ nodeSize n) xs →
            length (flat_map visited xs) ≤ list_sum (map nodeSize xs)).
  { induction 1 as [|y ys Hy Hys IHys]; simpl; [lia|]. rewrite length_app. lia. }
  pose proof (Hsum _ IHs). pose proof (Hsum _ IHf). lia.
Qed.

Lemma visited_flat_length xs :
  length (flat_map visited xs) ≤ list_sum (map nodeSize xs).
Proof.
  induction xs as [|y ys IH]; simpl; [lia|].
  rewrite length_app. pose proof (visited_length y). lia.
Qed.

Lemma visitToFindLocals_unfold node L :
  visitToFindLocals node L
  = registerNode node L ≫= λ L1,
      if negb (isFunctionDefinitionNode node)
      then visitChildren node visitToFindLocals L1
      else Ok L1.
Proof. destruct node; cbn [visitToFindLocals]; by destruct (registerNode _ L). Qed.

(** [visitToFindLocals] registers the visited nodes one after the other. *)
Lemma visitToFindLocals_visited node L :
  visitToFindLocals node L = forM registerNode (visited node) L.
Proof.
  revert L. induction node as
    [| | | | |o aid outs func sargs fargs IHs IHf|idx expr IH| |]
    using Node_nested_ind; intros L; rewrite visitToFindLocals_unfold;
    cbn [visited]; rewrite forM_cons;
    destruct (registerNode _ L) as [L1| |];
    cbn [mbind Result_mbind Result_bind]; try done.
  - change (negb (isFunctionDefinitionNode
                    (Application o aid outs func sargs fargs))) with true.
    cbn [visitChildren].
    assert (Hlist : ∀ xs,
              Forall (λ node, ∀ L, visitToFindLocals node L
                                   = forM registerNode (visited node) L) xs →
              ∀ L', forM visitToFindLocals xs L'
                    = forM registerNode (flat_map visited xs) L').
    { intros xs Hxs L'. rewrite <- forM_flat_map. apply forM_ext_in.
      intros x s Hx. rewrite Forall_forall in Hxs. by apply Hxs. }
    rewrite forM_app, (Hlist sargs IHs).
    destruct (forM _ _ L1) as [L2| |]; cbn; try done. by apply Hlist.
  - change (negb (isFunctionDefinitionNode (YieldExpression idx expr)))
      with true.
    cbn [visitChildren]. apply IH.
Qed.

Lemma collect_visited body L :
  forM visitToFindLocals body L = forM registerNode (flat_map visited body) L.
Proof.
  rewrite <- forM_flat_map. apply forM_ext_in. intros.
  apply visitToFindLocals_visited.
Qed.

(** ** The collector *)

Lemma forM_prefix_invariant {A S} (P : list A → S → Prop)
    (f : A → S → Result S) xs s s' :
  (∀ pre x post t t',
     xs = pre ++ x :: post → P pre t → f x t = Ok t' → P (pre ++ [x]) t') →
  P [] s → forM f xs s = Ok s' → P xs s'.
Proof.
  intros Hstep Hs Hrun.
  assert (Hgen : ∀ pre rest t,
            xs = pre ++ rest → P pre t → forM f rest t = Ok s' → P xs s').
  { intros pre rest. revert pre.
    induction rest as [|x rest IH]; intros pre t Hxs Ht Hrest.
    - rewrite app_nil_r in Hxs. by simplify_eq/=.
    - rewrite forM_cons in Hrest. apply bind_Ok in Hrest as (t' & Hx & Hrest).
      apply (IH (pre ++ [x]) t'); [by rewrite <- app_assoc| |done].
      by eapply Hstep. }
  by apply (Hgen [] xs s).
Qed.

Lemma defineStream_inv sid target L L' :
  defineStream sid target L = Ok L' →
  Env.has (streamEnvironment L) sid = false
  ∧ L' = {| streamEnvironment :=
              Env.mkEnvironment
                (<[sid := target]> (Env.vars (streamEnvironment L)))
                (Env.outer (streamEnvironment L));
            functionEnvironment := functionEnvironment L;
            localStreamIds := {[ sid ]} ∪ localStreamIds L;
            localFunctionIds := localFunctionIds L |}.
Proof.
  destruct (Env.has (streamEnvironment L) sid) eqn:Hhas.
  - unfold defineStream. by rewrite Hhas.
  - rewrite defineStream_Ok by done. by intros [= <-].
Qed.

Lemma defineFunction_inv fid node L L' :
  defineFunction fid node L = Ok L' →
  Env.has (functionEnvironment L) fid = false
  ∧ L' = {| streamEnvironment := streamEnvironment L;
            functionEnvironment :=
              Env.mkEnvironment
                (<[fid := node]> (Env.vars (functionEnvironment L)))
                (Env.outer (functionEnvironment L));
            localStreamIds := localStreamIds L;
            localFunctionIds := orderedAdd fid (localFunctionIds L) |}.
Proof.
  destruct (Env.has (functionEnvironment L) fid) eqn:Hhas.
  - unfold defineFunction. by rewrite Hhas.
  - rewrite defineFunction_Ok by done. by intros [= <-].
Qed.

Lemma Env_has_false_local {K} `{Countable K} {V} (e : Environment K V) k :
  Env.has e k = false → Env.vars e !! k = None.
Proof.
  rewrite Env_has_frame, orb_false_iff, bool_decide_eq_false.
  intros [Hk _]. by apply not_elem_of_dom.
Qed.

Lemma StreamsRegistered_ext (R R' : StreamID → Node → Prop) L :
  (∀ sid n, R sid n ↔ R' sid n) → StreamsRegistered R L → StreamsRegistered R' L.
Proof. intros HR [Hdom Hreg]. split; [done|]. intros. by rewrite Hreg. Qed.

Lemma FunctionsRegistered_ext (R R' : FunctionID → Node → Prop) L :
  (∀ fid f, R fid f ↔ R' fid f) →
  FunctionsRegistered R L → FunctionsRegistered R' L.
Proof.
  intros HR (Hids & Hnd & Hreg). split_and!; [done..|]. intros. by rewrite Hreg.
Qed.

(** Registering a parameter keeps the bindings to nodes as they are. *)
Lemma defineStream_param R sid L L' :
  defineStream sid None L = Ok L' →
  StreamsRegistered R L → StreamsRegistered R L'.
Proof.
  intros [Hhas ->]%defineStream_inv [Hdom Hreg].
  apply Env_has_false_local in Hhas. split; cbn.
  - rewrite dom_insert_L. by rewrite Hdom.
  - intros s n. rewrite <- Hreg. destruct (decide (sid = s)) as [->|Hne].
    + rewrite lookup_insert_eq, Hhas. split; intros; simplify_eq.
    + by rewrite lookup_insert_ne.
Qed.

(** Registering a stream id for a node adds that one binding. *)
Lemma defineStream_node R sid node L L' :
  defineStream sid (Some node) L = Ok L' →
  StreamsRegistered R L →
  StreamsRegistered (λ s n, R s n ∨ (s = sid ∧ n = node)) L'.
Proof.
  intros [Hhas ->]%defineStream_inv [Hdom Hreg].
  apply Env_has_false_local in Hhas. split; cbn.
  - rewrite dom_insert_L. by rewrite Hdom.
  - intros s n. rewrite <- Hreg. destruct (decide (sid = s)) as [->|Hne].
    + rewrite lookup_insert_eq, Hhas. split.
      * intros; simplify_eq. by right.
      * intros [?|[_ ->]]; by simplify_eq.
    + rewrite lookup_insert_ne by done. split; [by left|].
      intros [?|[ -> _ ]]; by simplify_eq.
Qed.

Lemma defineStream_frame sid target L L' :
  defineStream sid target L = Ok L' →
  Env.outer (streamEnvironment L') = Env.outer (streamEnvironment L)
  ∧ functionEnvironment L' = functionEnvironment L
  ∧ localFunctionIds L' = localFunctionIds L.
Proof. by intros [_ ->]%defineStream_inv. Qed.

Lemma defineFunction_node R fid node L L' :
  defineFunction fid node L = Ok L' →
  FunctionsRegistered R L →
  FunctionsRegistered (λ k f, R k f ∨ (k = fid ∧ f = node)) L'.
Proof.
  intros [Hhas ->]%defineFunction_inv (Hids & Hnd & Hreg).
  apply Env_has_false_local in Hhas.
  assert (Hfresh : fid ∉ localFunctionIds L).
  { rewrite Hids. by apply not_elem_of_dom. }
  unfold orderedAdd. rewrite bool_decide_eq_false_2 by done.
  split_and!; cbn.
  - intros k. rewrite elem_of_app, list_elem_of_singleton, dom_insert_L, Hids.
    set_solver.
  - apply NoDup_app. split_and!; [done| |apply NoDup_singleton].
    intros k Hk ->%list_elem_of_singleton. done.
  - intros k f. rewrite <- Hreg. destruct (decide (fid = k)) as [->|Hne].
    + rewrite lookup_insert_eq, Hhas. split.
      * intros; simplify_eq. by right.
      * intros [?|[_ ->]]; by simplify_eq.
    + rewrite lookup_insert_ne by done. split; [by left|].
      intros [?|[ -> _ ]]; by simplify_eq.
Qed.

Lemma defineFunction_frame fid node L L' :
  defineFunction fid node L = Ok L' →
  Env.outer (functionEnvironment L') = Env.outer (functionEnvironment L)
  ∧ streamEnvironment L' = streamEnvironment L
  ∧ localStreamIds L' = localStreamIds L.
Proof. by intros [_ ->]%defineFunction_inv. Qed.

Lemma registerNode_collected oS oF vs node L L' :
  Collected oS oF vs L → registerNode node L = Ok L' →
  Collected oS oF (vs ++ [node]) L'.
Proof.
  intros [HoS HoF Hstr Hfun] Hreg.
  assert (Hstream_case : ∀ sid,
            definedIds node = [sid] → functionExprId node = Throw (Error EmptyString) →
            defineStream sid (Some node) L = Ok L' →
            Collected oS oF (vs ++ [node]) L').
  { intros sid Hdef Hnf Hrun.
    destruct (defineStream_frame _ _ _ _ Hrun) as (Ho & Hf & Hids).
    split; [congruence|congruence| |].
    - eapply StreamsRegistered_ext; [|by eapply defineStream_node].
      intros s n; cbn. rewrite elem_of_app, list_elem_of_singleton. split.
      + intros [[? ?]|[ -> -> ]]; [by auto|]. rewrite Hdef. split; [by right|left].
      + intros [[?| ->] Hs]; [by left; auto|]. right.
        rewrite Hdef in Hs. by apply list_elem_of_singleton in Hs as ->.
    - destruct Hfun as (H1 & H2 & H3). split_and!; rewrite ?Hf, ?Hids; [done..|].
      intros fid f. rewrite H3, elem_of_app, list_elem_of_singleton.
      split; [intros [? ?]; by auto|]. intros [[?| ->] Hfid]; [done|congruence]. }
  assert (Hnone_case :
            definedIds node = [] → functionExprId node = Throw (Error EmptyString) →
            L' = L → Collected oS oF (vs ++ [node]) L').
  { intros Hdef Hnf ->. split; [done..| |].
    - eapply StreamsRegistered_ext; [|done].
      intros s n; cbn. rewrite elem_of_app, list_elem_of_singleton.
      split; [intros [? ?]; by auto|].
      intros [[?| ->] Hs]; [done|]. rewrite Hdef in Hs. by apply elem_of_nil in Hs.
    - eapply FunctionsRegistered_ext; [|done].
      intros fid f; cbn. rewrite elem_of_app, list_elem_of_singleton.
      split; [intros [? ?]; by auto|]. intros [[?| ->] Hfid]; [done|congruence]. }
  assert (Hfun_case : ∀ fid,
            definedIds node = [] → functionExprId node = Ok fid →
            defineFunction fid node L = Ok L' →
            Collected oS oF (vs ++ [node]) L').
  { intros fid Hdef Hnf Hrun.
    destruct (defineFunction_frame _ _ _ _ Hrun) as (Ho & Hs & Hids).
    split; [congruence|congruence| |].
    - destruct Hstr as (H1 & H2). split; rewrite ?Hs, ?Hids; [done|].
      intros s n. rewrite H2, elem_of_app, list_elem_of_singleton.
      split; [intros [? ?]; by auto|].
      intros [[?| ->] Hsid]; [done|]. rewrite Hdef in Hsid. by apply elem_of_nil in Hsid.
    - eapply FunctionsRegistered_ext; [|by eapply defineFunction_node].
      intros k f; cbn. rewrite elem_of_app, list_elem_of_singleton. split.
      + intros [[? ?]|[ -> -> ]]; [by auto|]. split; [by right|done].
      + intros [[?| ->] Hk]; [by left; auto|]. right. split; [congruence|done]. }
  destruct node as [o sid|o sid v|o sid v|o sid v|o ref
                   |o aid outs func sargs fargs|idx expr|fid
                   |fid sparams fparams body]; cbn in Hreg;
    try (by eapply Hstream_case); try (by eapply Hfun_case);
    try (by apply Hnone_case; [done|done|congruence]).
  (* an application registers its outputs one after the other *)
  set (node := Application o aid outs func sargs fargs) in *.
  pose (P := λ (pre : list ApplicationOut) (M : Locals),
          Env.outer (streamEnvironment M) = Some oS
          ∧ functionEnvironment M = functionEnvironment L
          ∧ localFunctionIds M = localFunctionIds L
          ∧ StreamsRegistered
              (λ s n, (n ∈ vs ∧ s ∈ definedIds n)
                      ∨ (s ∈ out_sid <$> pre ∧ n = node)) M).
  assert (HP : P outs L').
  { eapply (forM_prefix_invariant P); [| |exact Hreg].
    - intros pre out post M M' _ (Ho & Hf & Hids & HM) Hrun.
      destruct (defineStream_frame _ _ _ _ Hrun) as (Ho' & Hf' & Hids').
      split_and!; [congruence..|].
      eapply StreamsRegistered_ext; [|by eapply defineStream_node].
      intros s n; cbn. rewrite fmap_app, elem_of_app; cbn.
      rewrite list_elem_of_singleton. tauto.
    - split_and!; [done..|]. eapply StreamsRegistered_ext; [|done].
      intros s n; cbn. split; [by left|]. intros [?|[Hs _]]; [done|].
      by apply elem_of_nil in Hs. }
  destruct HP as (Ho & Hf & Hids & HM). split; [done|congruence| |].
  - eapply StreamsRegistered_ext; [|done].
    intros s n; cbn. rewrite elem_of_app, list_elem_of_singleton. split.
    + intros [[? ?]|[? ->]]; [by auto|]. split; [by right|done].
    + intros [[?| ->] Hs]; [by left|by right].
  - destruct Hfun as (H1 & H2 & H3). split_and!; rewrite ?Hf, ?Hids; [done..|].
    intros fid f. rewrite H3, elem_of_app, list_elem_of_singleton.
    split; [intros [? ?]; by auto|]. intros [[?| ->] Hfid]; [done|].
    by subst node.
Qed.

Lemma freshLocals_collected oS oF : Collected oS oF [] (freshLocals oS oF).
Proof.
  split; [done..| |].
  - split; cbn; [by rewrite dom_empty_L|]. intros sid n.
    rewrite lookup_empty. split; [done|]. intros [Hn _]. by apply elem_of_nil in Hn.
  - split_and!; cbn; [|apply NoDup_nil_2|].
    + intros fid. rewrite dom_empty_L. set_solver.
    + intros fid f. rewrite lookup_empty. split; [done|].
      intros [Hf _]. by apply elem_of_nil in Hf.
Qed.

Lemma parameters_collected oS oF sparams L0 :
  forM (λ sid, defineStream sid None) sparams (freshLocals oS oF) = Ok L0 →
  Collected oS oF [] L0.
Proof.
  apply forM_invariant; [|apply freshLocals_collected].
  intros sid M M' _ [HoS HoF Hstr Hfun] Hrun.
  destruct (defineStream_frame _ _ _ _ Hrun) as (Ho & Hf & Hids).
  split; [congruence|congruence|by eapply defineStream_param|].
  destruct Hfun as (H1 & H2 & H3). by split_and!; rewrite ?Hf, ?Hids.
Qed.

(** The collector of a scope, when it returns, has established
    [Collected] for the visited nodes of the body. *)
Lemma collector_collected oS oF sparams body L0 L :
  forM (λ sid, defineStream sid None) sparams (freshLocals oS oF) = Ok L0 →
  forM visitToFindLocals body L0 = Ok L →
  Collected oS oF (flat_map visited body) L.
Proof.
  intros Hparams Hbody. rewrite collect_visited in Hbody.
  eapply (forM_prefix_invariant (Collected oS oF)); [| |exact Hbody].
  - intros; by eapply registerNode_collected.
  - by eapply parameters_collected.
Qed.

Lemma collectLocals_collected sparams body oS oF L :
  collectLocals sparams body oS oF = Ok L →
  Collected oS oF (flat_map visited body) L.
Proof.
  intros (L0 & HL0 & HL)%bind_Ok. by eapply collector_collected.
Qed.

(** ** The resolver: how a call returns *)

Lemma marked_false s node o :
  nodeId node = Some o → marked s node = false ↔ o ∉ s.
Proof. unfold marked. intros ->. apply bool_decide_eq_false. Qed.

Lemma marked_true s node o :
  nodeId node = Some o → marked s node = true ↔ o ∈ s.
Proof. unfold marked. intros ->. apply bool_decide_eq_true. Qed.

Lemma traverse_Ok_inv L fuel node st st' :
  traverseStreamExpr L (S fuel) node st = Ok st' → TraverseOk L fuel node st st'.
Proof.
  cbn [traverseStreamExpr].
  destruct (marked (permanentMarked st) node) eqn:Hperm.
  { intros [= <-]. by constructor. }
  destruct (marked (temporaryMarked st) node) eqn:Htemp; [done|].
  destruct node as [o sid|o sid v|o sid v|o sid v|o ref
                   |o aid outs func sargs fargs|idx expr|fid
                   |fid sparams fparams body]; try done;
    try (intros [= <-]; by eapply TraverseLiteral).
  - apply (marked_false _ _ o) in Hperm, Htemp; [|done..].
    case_bool_decide as Hlocal.
    + destruct (Env.get _ ref) as [[target|]|] eqn:Hget; [| |done].
      * intros (st1 & Hrun & [= <-])%bind_Ok. by eapply TraverseLocal.
      * intros [= <-]. by eapply TraverseParameter.
    + destruct (Env.has _ ref) eqn:Hhas; [|done].
      intros [= <-]. by eapply TraverseExternal.
  - apply (marked_false _ _ o) in Hperm, Htemp; [|done..].
    destruct (Env.get _ func) as [functionNode|] eqn:Hget; [|done].
    intros ([st1 ids] & Hsargs & (fids & Hfargs & [= <-])%bind_Ok)%bind_Ok.
    by eapply TraverseApplication.
Qed.

(** Case analysis on a returning call, with the names the proofs below
    use for what each case provides. *)
Ltac traverse_cases H :=
  destruct H as [node st Hperm
                |node o c st Hperm Htemp Hid Hc
                |o ref st Hperm Htemp Hlocal Hget
                |o ref target st st1 Hperm Htemp Hlocal Hget Hrun
                |o ref st Hperm Htemp Hlocal Hhas
                |o aid outs func sargs fargs fn st st1 ids fids
                   Hperm Htemp Hget Hsargs Hfargs].

(** A call on a permanent-marked node returns at once and changes
    nothing: resolution is idempotent. *)
Lemma traverse_permanent_marked L fuel node st :
  marked (permanentMarked st) node = true →
  traverseStreamExpr L (S fuel) node st = Ok st.
Proof. intros Hperm. cbn [traverseStreamExpr]. by rewrite Hperm. Qed.

(** What one turn of the stream-argument loop does when it returns. *)
Lemma sargStep_Ok_inv (traverse : Node → CompileState → Result CompileState)
    sarg st ids st' ids' :
  sargStep traverse sarg (st, ids) = Ok (st', ids') →
  ∃ sid, traverse sarg st = Ok st'
         ∧ streamExprReturnedId sarg = Ok (Some sid)
         ∧ sid ≠ EmptyString
         ∧ ids' = ids ++ [sid].
Proof.
  unfold sargStep. cbn [fst snd].
  intros (st1 & Hrun & (r & Hret & (sid & Hsid & [= <- <-])%bind_Ok)%bind_Ok)%bind_Ok.
  exists sid. destruct r as [[|a s]|]; cbn in Hsid; simplify_eq. done.
Qed.

(** An invariant of the state is kept by the stream-argument loop. *)
Lemma sargs_invariant (P : CompileState → Prop)
    (traverse : Node → CompileState → Result CompileState)
    sargs st ids st' ids' :
  (∀ x s s', x ∈ sargs → P s → traverse x s = Ok s' → P s') →
  P st → forM (sargStep traverse) sargs (st, ids) = Ok (st', ids') → P st'.
Proof.
  intros Hstep Hst Hrun.
  apply (forM_invariant (λ a, P a.1) _ _ _ _) in Hrun; [done| |done].
  intros x [s l] [s' l'] Hx Hs Hx'.
  apply sargStep_Ok_inv in Hx' as (sid & Hx' & _). cbn in *. eauto.
Qed.

(** ** The resolver: marks *)

Lemma Framed_refl L st : Framed L st st.
Proof. split; auto. Qed.

Lemma Framed_trans L st1 st2 st3 :
  Framed L st1 st2 → Framed L st2 st3 → Framed L st1 st3.
Proof.
  intros [Ht1 Hp1 Hf1 Hy1 He1] [Ht2 Hp2 Hf2 Hy2 He2]. split.
  - congruence.
  - set_solver.
  - intros o Ho. destruct (Hf2 o Ho) as [?|?]; [by auto|]. right. congruence.
  - congruence.
  - intros ref Href. destruct (He2 ref Href) as [?|?]; auto.
Qed.

(** A call that returns has restored the temporary marks, has only added
    permanent marks, none on a node that was temporary-marked and among
    them the one of its node, has not touched the yield ids, and has only
    added external ids that are not local and are visible in the
    environment. *)
Lemma traverse_framed L fuel node st st' :
  traverseStreamExpr L fuel node st = Ok st' →
  Framed L st st' ∧ ∀ o, nodeId node = Some o → o ∈ permanentMarked st'.
Proof.
  revert node st st'. induction fuel as [|fuel IH]; intros node st st' Hrun;
    [done|].
  apply traverse_Ok_inv in Hrun.
  traverse_cases Hrun.
  - split; [apply Framed_refl|]. intros o Ho. by apply (marked_true _ _ o) in Hperm.
  - apply (marked_false _ _ o) in Htemp; [|done].
    split; [split; cbn; auto; set_solver|].
    intros o' Ho'. cbn. set_solver.
  - split; [split; cbn; auto; set_solver|]. intros o' [= <-]. cbn. set_solver.
  - apply IH in Hrun as [[Ht Hp Hf Hy He] _].
    split; [split; cbn in *; auto|].
    + rewrite Ht. set_solver.
    + set_solver.
    + intros o' [->%elem_of_singleton|Ho']%elem_of_union; [by right|].
      destruct (Hf o' Ho') as [?|?]; [by left|right; set_solver].
    + intros o' [= <-]. cbn. set_solver.
  - split; [split; cbn; auto|].
    + set_solver.
    + set_solver.
    + intros ref' [->%elem_of_singleton|?]%elem_of_union; auto.
    + intros o' [= <-]. cbn. set_solver.
  - assert (Hloop : Framed L (temporaryAdd o st) st1).
    { eapply (sargs_invariant (Framed L (temporaryAdd o st)));
        [|apply Framed_refl|exact Hsargs].
      intros x s s' _ Hs Hx. eapply Framed_trans; [done|]. by apply IH in Hx as [? _]. }
    destruct Hloop as [Ht Hp Hf Hy He]. split; [split; cbn in *; auto|].
    + rewrite Ht. set_solver.
    + set_solver.
    + intros o' [->%elem_of_singleton|Ho']%elem_of_union; [by right|].
      destruct (Hf o' Ho') as [?|?]; [by left|right; set_solver].
    + intros o' [= <-]. cbn. set_solver.
Qed.

(** No node is both temporary-marked and permanent-marked, in the states
    the resolver goes through. *)
Lemma Framed_disjoint L st st' :
  Framed L st st' → temporaryMarked st ## permanentMarked st →
  temporaryMarked st' ## permanentMarked st'.
Proof.
  intros [Ht _ Hf _ _] Hdisj. rewrite Ht. intros o Ho Ho'.
  destruct (Hf o Ho') as [?|?]; [by eapply Hdisj|done].
Qed.

(** ** [compileTreeDefinition]: how a call returns *)

Lemma compile_Ok_inv fuel definition oS oF cd ext :
  compileTreeDefinition (S fuel) definition oS oF = Ok (cd, ext) →
  ∃ fid sparams fparams body L localDefs st,
    definition = TreeFunctionDefinition fid sparams fparams body
    ∧ collectLocals sparams body oS oF = Ok L
    ∧ forM (localDefStep
              (λ funcDef, compileTreeDefinition fuel funcDef
                            (streamEnvironment L) (functionEnvironment L))
              (functionEnvironment L))
        (localFunctionIds L) [] = Ok localDefs
    ∧ forM (bodyStep L fuel) body initialState = Ok st
    ∧ cd = CompiledDef.mkDef sparams fparams (constStreams st) (apps st)
             localDefs (yieldIds st)
    ∧ ext = externalReferencedStreamIds st.
Proof.
  cbn [compileTreeDefinition].
  destruct definition as [| | | | | | | |fid sparams fparams body]; try done.
  intros (L & HL & (localDefs & Hdefs
            & (st & Hst & [= <- <-])%bind_Ok)%bind_Ok)%bind_Ok.
  by exists fid, sparams, fparams, body, L, localDefs, st.
Qed.

(** What one turn of the body loop does when it returns: it resolves the
    expression of the entry, and records its returned id if the entry is a
    yield. *)
Lemma bodyStep_Ok_inv L fuel node st st' :
  bodyStep L fuel node st = Ok st' →
  (∃ idx expr sid st1,
      node = YieldExpression idx expr
      ∧ traverseStreamExpr L fuel expr st = Ok st1
      ∧ streamExprReturnedId expr = Ok (Some sid)
      ∧ sid ≠ EmptyString
      ∧ st' = setYield idx sid st1)
  ∨ (isStreamExpressionNode node = true
     ∧ traverseStreamExpr L fuel node st = Ok st').
Proof.
  destruct node as [o sid|o sid v|o sid v|o sid v|o ref
                   |o aid outs func sargs fargs|idx expr|fid
                   |fid sparams fparams body]; cbn [bodyStep]; try done;
    try (intros Hrun; right; by split).
  intros (st1 & Hrun & (r & Hret & (sid & Hsid & [= <-])%bind_Ok)%bind_Ok)%bind_Ok.
  left. exists idx, expr, sid, st1.
  destruct r as [[|a s]|]; cbn in Hsid; by simplify_eq.
Qed.

(** The expression an entry of the body hands to [traverseStreamExpr]. *)
Lemma body_entry_visited body node expr :
  node ∈ body →
  (node = expr ∨ ∃ idx, node = YieldExpression idx expr) →
  expr ∈ flat_map visited body.
Proof.
  intros Hnode Hexpr. apply elem_of_flat_map. exists node. split; [done|].
  destruct Hexpr as [->|(idx & ->)]; [apply visited_self|].
  cbn. right. apply visited_self.
Qed.

(** ** External references *)

Lemma collected_has oS oF vs L ref :
  Collected oS oF vs L →
  Env.has (streamEnvironment L) ref
  = bool_decide (ref ∈ localStreamIds L) || Env.has oS ref.
Proof.
  intros [HoS _ [Hdom _] _]. by rewrite Env_has_frame, HoS, Hdom.
Qed.

Lemma body_external L fuel body st st' :
  forM (bodyStep L fuel) body st = Ok st' →
  ∀ ref, ref ∈ externalReferencedStreamIds st' →
         ref ∈ externalReferencedStreamIds st
         ∨ ((ref ∉ localStreamIds L)
            ∧ Env.has (streamEnvironment L) ref = true).
Proof.
  apply (forM_invariant
           (λ s, ∀ ref, ref ∈ externalReferencedStreamIds s →
                        ref ∈ externalReferencedStreamIds st ∨ _)); [|by auto].
  intros node s s' _ Hs [(idx & expr & sid & s1 & -> & Hrun & _ & _ & ->)
                        |[_ Hrun]]%bodyStep_Ok_inv ref Href;
    apply traverse_framed in Hrun as [[_ _ _ _ He] _];
    destruct (He ref Href) as [?|?]; auto.
Qed.

Lemma compile_external_closed fuel definition oS oF cd ext ref :
  compileTreeDefinition fuel definition oS oF = Ok (cd, ext) →
  ref ∈ ext → Env.has oS ref = true.
Proof.
  destruct fuel as [|fuel]; [done|].
  intros (fid & sparams & fparams & body & L & localDefs & st & ->
          & HL & _ & Hst & _ & ->)%compile_Ok_inv Href.
  pose proof (collectLocals_collected _ _ _ _ _ HL) as Hcol.
  destruct (body_external _ _ _ _ _ Hst ref Href) as [Hinit|[Hlocal Hhas]].
  - by apply elem_of_empty in Hinit.
  - rewrite (collected_has _ _ _ _ _ Hcol), orb_true_iff in Hhas.
    destruct Hhas as [Hhas|Hhas]; [|done]. by apply bool_decide_eq_true in Hhas.
Qed.

(** C10: compiled against an outer stream environment in which no id is
    visible, such as the empty root environment handed over by
    [compileGlobalTreeDefinition], a definition that compiles has an empty
    set of externally referenced stream ids. *)
Theorem C10_root_has_no_external_references (fuel : nat) (definition : Node)
    (outerStreamEnvironment : CompilationStreamEnvironment)
    (outerFunctionEnvironment : CompilationFunctionEnvironment)
    (cd : CompiledDefinition) (ext : gset StreamID) :
  (∀ sid, Env.has outerStreamEnvironment sid = false) →
  compileTreeDefinition fuel definition outerStreamEnvironment
    outerFunctionEnvironment = Ok (cd, ext) →
  ext = ∅.
Proof.
  intros Hempty Hrun. apply leibniz_equiv, elem_of_equiv_empty. intros ref Href.
  pose proof (compile_external_closed _ _ _ _ _ _ _ Hrun Href). congruence.
Qed.

(** The theorem at the tree [sharedLiteral], compiled at the root. *)
Lemma C10_root_has_no_external_references_witness :
  ∃ cd ext,
    compileTreeDefinition 6 sharedLiteral (Env.new None)
      (seededFunctionEnvironment globalFunctions) = Ok (cd, ext)
    ∧ ext = ∅.
Proof.
  eexists _, _. split; [vm_compute; reflexivity|].
  eapply (C10_root_has_no_external_references 6 sharedLiteral (Env.new None)
            (seededFunctionEnvironment globalFunctions));
    [intros sid; reflexivity|vm_compute; reflexivity].
Defined.

(** X12: the closure check of [compileGlobalTreeDefinition] never fires: the
    entry point returns or fails exactly as the root call does. *)
Lemma global_check_never_fires (fuel : nat) (definition : Node)
    (globalFunctionEnvironment : CompilationFunctionEnvironment) :
  compileGlobalTreeDefinition fuel definition globalFunctionEnvironment
  = match compileTreeDefinition fuel definition (Env.new None)
            (seededFunctionEnvironment globalFunctionEnvironment) with
    | Ok r => Ok r.1
    | Throw e => Throw e
    | OutOfFuel => OutOfFuel
    end.
Proof.
  unfold compileGlobalTreeDefinition. rewrite seed_forEach. cbn.
  unfold seededFunctionEnvironment.
  destruct (compileTreeDefinition _ _ _ _) as [[cd ext]| |] eqn:Hrun; cbn; try done.
  assert (ext = ∅) as ->.
  { apply leibniz_equiv, elem_of_equiv_empty. intros ref Href.
    by pose proof (compile_external_closed _ _ _ _ _ _ _ Hrun Href). }
  by rewrite bool_decide_eq_false_2 by (rewrite size_empty; lia).
Qed.

(** ** Recursion budget *)

Lemma bind_terminated {A B} (m : Result A) (f : A → Result B) :
  Terminated (m ≫= f) → Terminated m.
Proof. by destruct m. Qed.

Lemma forM_terminated {A S} (P : S → Prop) (f : A → S → Result S) xs s :
  (∀ x t, x ∈ xs → P t →
          Terminated (f x t) ∧ ∀ t', f x t = Ok t' → P t') →
  P s → Terminated (forM f xs s).
Proof.
  revert s. induction xs as [|x xs IH]; intros s Hstep Hs; [done|].
  rewrite forM_cons. destruct (Hstep x s) as [Hterm Hpost]; [by left|done|].
  destruct (f x s) as [t| |]; cbn; try done.
  apply IH; [|by apply Hpost]. intros; apply Hstep; [by right|done].
Qed.

(** A loop that terminates runs the same with a body that agrees with its
    own wherever that one terminates. *)
Lemma forM_agree {A S} (f g : A → S → Result S) xs s :
  (∀ x t, x ∈ xs → Terminated (f x t) → g x t = f x t) →
  Terminated (forM f xs s) → forM g xs s = forM f xs s.
Proof.
  revert s. induction xs as [|x xs IH]; intros s Hfg Hterm; [done|].
  rewrite forM_cons in Hterm. rewrite !forM_cons.
  rewrite Hfg; [|by left|by eapply bind_terminated].
  destruct (f x s) as [t| |]; cbn in *; try done.
  apply IH; [|done]. intros; apply Hfg; [by right|done].
Qed.

Lemma sargStep_agree (f g : Node → CompileState → Result CompileState) x acc :
  (Terminated (f x acc.1) → g x acc.1 = f x acc.1) →
  Terminated (sargStep f x acc) → sargStep g x acc = sargStep f x acc.
Proof.
  unfold sargStep. intros Hfg Hterm. by rewrite Hfg by by eapply bind_terminated.
Qed.

(** More budget does not change a result that is a behaviour. *)
Lemma traverse_fuel_mono L fuel fuel' node st :
  fuel ≤ fuel' → Terminated (traverseStreamExpr L fuel node st) →
  traverseStreamExpr L fuel' node st = traverseStreamExpr L fuel node st.
Proof.
  revert fuel' node st. induction fuel as [|fuel IH]; intros fuel' node st Hle;
    [done|].
  destruct fuel' as [|fuel']; [lia|]. assert (fuel ≤ fuel') as Hle' by lia.
  cbn [traverseStreamExpr].
  destruct (marked (permanentMarked st) node); [done|].
  destruct (marked (temporaryMarked st) node); [done|].
  destruct node as [o sid|o sid v|o sid v|o sid v|o ref
                   |o aid outs func sargs fargs|idx expr|fid
                   |fid sparams fparams body]; try done.
  - case_bool_decide; [|done].
    destruct (Env.get _ ref) as [[target|]|]; [|done..].
    intros Hterm%bind_terminated. by rewrite IH.
  - destruct (Env.get _ func); [|done].
    intros Hterm%bind_terminated.
    rewrite (forM_agree (sargStep (traverseStreamExpr L fuel))); [done| |done].
    intros x acc _. apply sargStep_agree. by apply IH.
Qed.

Lemma localDefStep_agree (f g : Node → Result (CompiledDefinition * gset StreamID))
    fenv fid acc :
  (∀ funcDef, Terminated (f funcDef) → g funcDef = f funcDef) →
  Terminated (localDefStep f fenv fid acc) →
  localDefStep g fenv fid acc = localDefStep f fenv fid acc.
Proof.
  unfold localDefStep. intros Hfg. destruct (Env.get fenv fid); [|done].
  case_bool_decide; [|done]. intros Hterm%bind_terminated. by rewrite Hfg.
Qed.

Lemma bodyStep_agree L fuel fuel' node st :
  fuel ≤ fuel' → Terminated (bodyStep L fuel node st) →
  bodyStep L fuel' node st = bodyStep L fuel node st.
Proof.
  intros Hle.
  destruct node; cbn [bodyStep isStreamExpressionNode isSimpleLiteralNode kind];
    cbn; try done; try (by apply traverse_fuel_mono).
  intros Hterm%bind_terminated. by rewrite (traverse_fuel_mono L fuel).
Qed.

Lemma compile_fuel_mono fuel fuel' definition oS oF :
  fuel ≤ fuel' → Terminated (compileTreeDefinition fuel definition oS oF) →
  compileTreeDefinition fuel' definition oS oF
  = compileTreeDefinition fuel definition oS oF.
Proof.
  revert fuel' definition oS oF.
  induction fuel as [|fuel IH]; intros fuel' definition oS oF Hle; [done|].
  destruct fuel' as [|fuel']; [lia|]. assert (fuel ≤ fuel') as Hle' by lia.
  cbn [compileTreeDefinition].
  destruct definition as [| | | | | | | |fid sparams fparams body]; try done.
  destruct (collectLocals sparams body oS oF) as [L| |]; cbn; try done.
  intros Hterm.
  rewrite (forM_agree
             (localDefStep
                (λ funcDef, compileTreeDefinition fuel funcDef
                              (streamEnvironment L) (functionEnvironment L))
                (functionEnvironment L)));
    [| |by eapply bind_terminated].
  2:{ intros fid' acc _. apply localDefStep_agree. intros funcDef. by apply IH. }
  destruct (forM (localDefStep _ _) _ _) as [localDefs| |]; cbn in *; try done.
  rewrite (forM_agree (bodyStep L fuel)); [done| |by eapply bind_terminated].
  intros node st _. by apply bodyStep_agree.
Qed.

(** The visited nodes of a body are a scope for the environments the
    collector builds from it. *)
Lemma collected_scope oS oF body L :
  Collected oS oF (flat_map visited body) L → Scope L (flat_map visited body).
Proof.
  intros [_ _ [Hdom Hstr] _]. split.
  - intros o aid outs func sargs fargs x
      (root & Hroot & Happ)%elem_of_flat_map Hx.
    apply elem_of_flat_map. exists root. split; [done|].
    by eapply visited_sargs.
  - intros ref target Hlocal Hget.
    rewrite Hdom in Hlocal. apply elem_of_dom in Hlocal as [v Hv].
    rewrite (Env_get_local _ _ _ Hv) in Hget. simplify_eq. by apply Hstr.
  - intros node sid Hnode Hsid.
    assert (Hv : Env.vars (streamEnvironment L) !! sid = Some (Some node))
      by by apply Hstr.
    split; [|by apply Env_get_local].
    rewrite Hdom. apply elem_of_dom. by eexists.
Qed.

Lemma elem_of_nodeIds nodes o :
  o ∈ nodeIds nodes ↔ ∃ node, node ∈ nodes ∧ nodeId node = Some o.
Proof. unfold nodeIds. by rewrite elem_of_list_to_set, list_elem_of_omap. Qed.

Lemma size_nodeIds nodes : size (nodeIds nodes) ≤ length nodes.
Proof.
  unfold nodeIds. induction nodes as [|x xs IH]; cbn.
  - by rewrite size_empty.
  - destruct (nodeId x); cbn; [|lia].
    rewrite size_union_alt, size_singleton.
    assert (size (list_to_set (omap nodeId xs) ∖ {[n]} : gset nat)
            ≤ size (list_to_set (omap nodeId xs) : gset nat))
      by (apply subseteq_size; set_solver).
    lia.
Qed.

Lemma size_difference_mark (X T : gset nat) o :
  o ∈ X → o ∉ T → size (X ∖ ({[ o ]} ∪ T)) < size (X ∖ T).
Proof.
  intros HX HT. apply subset_size. split; [set_solver|].
  intros Hsub. assert (o ∈ X ∖ ({[ o ]} ∪ T)) by set_solver. set_solver.
Qed.

Lemma returnedId_terminated node : Terminated (streamExprReturnedId node).
Proof. by destruct node. Qed.

Lemma fargs_terminated L fargs ids : Terminated (forM (fargStep L) fargs ids).
Proof.
  apply (forM_terminated (λ _, True)); [|done].
  intros x t _ _. split; [|done]. unfold fargStep.
  destruct x; cbn; try done; by destruct (Env.get _ _).
Qed.

(** A call on a node of the scope terminates when its budget exceeds the
    number of nodes of the scope that are not temporary-marked: each
    nested call finds one more node marked. *)
Lemma traverse_terminates L N fuel node st :
  Scope L N → node ∈ N →
  size (nodeIds N ∖ temporaryMarked st) < fuel →
  Terminated (traverseStreamExpr L fuel node st).
Proof.
  intros HN. revert node st.
  induction fuel as [|fuel IH]; intros node st Hnode Hsize; [lia|].
  cbn [traverseStreamExpr].
  destruct (marked (permanentMarked st) node) eqn:Hperm; [done|].
  destruct (marked (temporaryMarked st) node) eqn:Htemp; [done|].
  assert (Hnested : ∀ o s,
            nodeId node = Some o → temporaryMarked s = {[ o ]} ∪ temporaryMarked st →
            size (nodeIds N ∖ temporaryMarked s) < fuel).
  { intros o s Ho ->. apply (marked_false _ _ o) in Htemp; [|done].
    assert (Hin : o ∈ nodeIds N) by (apply elem_of_nodeIds; eauto).
    pose proof (size_difference_mark (nodeIds N) (temporaryMarked st) o Hin Htemp).
    lia. }
  destruct node as [o sid|o sid v|o sid v|o sid v|o ref
                   |o aid outs func sargs fargs|idx expr|fid
                   |fid sparams fparams body]; try done.
  - case_bool_decide as Hlocal; [|by destruct (negb _)].
    destruct (Env.get _ ref) as [[target|]|] eqn:Hget; [|done..].
    destruct (scope_target _ _ HN ref target Hlocal Hget) as [Htarget _].
    specialize (IH target (temporaryAdd o st) Htarget
                  (Hnested o (temporaryAdd o st) eq_refl eq_refl)).
    by destruct (traverseStreamExpr L fuel target _).
  - destruct (Env.get _ func); [|done].
    assert (Hloop : Terminated
              (forM (sargStep (traverseStreamExpr L fuel)) sargs
                 (temporaryAdd o st, []))).
    { apply (forM_terminated
               (λ acc, temporaryMarked acc.1 = {[ o ]} ∪ temporaryMarked st));
        [|done].
      intros x [s ids] Hx Hs; cbn in Hs. split.
      - unfold sargStep; cbn [fst snd].
        assert (Hterm : Terminated (traverseStreamExpr L fuel x s)).
        { apply IH; [by eapply (scope_sargs _ _ HN)|by eapply Hnested]. }
        destruct (traverseStreamExpr L fuel x s); cbn; try done.
        pose proof (returnedId_terminated x) as Hret.
        destruct (streamExprReturnedId x) as [[[|? ?]|]| |]; cbn; done.
      - intros [s' ids'] (sid & Hrun & _)%sargStep_Ok_inv; cbn.
        apply traverse_framed in Hrun as [[Ht _ _ _ _] _]. congruence. }
    destruct (forM (sargStep _) _ _) as [acc| |]; cbn; try done.
    pose proof (fargs_terminated L fargs []) as Hfargs.
    by destruct (forM (fargStep L) _ _).
Qed.

Lemma defineStream_terminated sid target L :
  Terminated (defineStream sid target L).
Proof.
  unfold defineStream. destruct (Env.has _ sid) eqn:Hhas; [done|].
  by rewrite Env_set_after_has.
Qed.

Lemma defineFunction_terminated fid node L :
  Terminated (defineFunction fid node L).
Proof.
  unfold defineFunction. destruct (Env.has _ fid) eqn:Hhas; [done|].
  by rewrite Env_set_after_has.
Qed.

Lemma registerNode_terminated node L : Terminated (registerNode node L).
Proof.
  destruct node; cbn; auto using defineStream_terminated,
    defineFunction_terminated.
  apply (forM_terminated (λ _, True)); [|done].
  intros; split; [apply defineStream_terminated|done].
Qed.

Lemma collector_terminated body L : Terminated (forM visitToFindLocals body L).
Proof.
  rewrite collect_visited. apply (forM_terminated (λ _, True)); [|done].
  intros; split; [apply registerNode_terminated|done].
Qed.

Lemma collectLocals_terminated sparams body oS oF :
  Terminated (collectLocals sparams body oS oF).
Proof.
  unfold collectLocals.
  assert (Hparams : Terminated
            (forM (λ sid, defineStream sid None) sparams (freshLocals oS oF))).
  { apply (forM_terminated (λ _, True)); [|done].
    intros; split; [apply defineStream_terminated|done]. }
  destruct (forM _ sparams _) as [L0| |]; cbn; try done.
  apply collector_terminated.
Qed.

Lemma visited_flat_size body x :
  x ∈ flat_map visited body → nodeSize x ≤ list_sum (map nodeSize body).
Proof.
  intros (root & Hroot & Hx)%elem_of_flat_map.
  pose proof (visited_size root x Hx).
  pose proof (list_sum_elem nodeSize body root Hroot). lia.
Qed.

(** The body loop of a scope terminates when the budget exceeds the number
    of visited nodes, and leaves no temporary mark when it returns. *)
Lemma body_terminated L fuel body entries :
  Scope L (flat_map visited body) →
  length (flat_map visited body) < fuel →
  entries ⊆ body →
  ∀ st, temporaryMarked st = ∅ →
        Terminated (forM (bodyStep L fuel) entries st).
Proof.
  intros HN Hfuel Hsub st Hst.
  apply (forM_terminated (λ s, temporaryMarked s = ∅)); [|done].
  clear st Hst. intros node st Hnode Hst.
  assert (Hexpr : ∀ expr,
            (node = expr ∨ ∃ idx, node = YieldExpression idx expr) →
            Terminated (traverseStreamExpr L fuel expr st)).
  { intros expr Hexpr. eapply traverse_terminates; [done| |].
    - eapply body_entry_visited; [|done]. by apply Hsub.
    - rewrite Hst, difference_empty_L.
      pose proof (size_nodeIds (flat_map visited body)). lia. }
  split.
  - destruct node as [o sid|o sid v|o sid v|o sid v|o ref
                     |o aid outs func sargs fargs|idx expr|fid
                     |fid sparams fparams body']; cbn [bodyStep];
      try done; try (cbn; apply Hexpr; by left).
    specialize (Hexpr expr (or_intror (ex_intro _ idx eq_refl))).
    destruct (traverseStreamExpr L fuel expr st); cbn; try done.
    pose proof (returnedId_terminated expr) as Hret.
    destruct (streamExprReturnedId expr) as [[[|? ?]|]| |]; cbn; done.
  - intros st' [(idx & expr & sid & st1 & -> & Hrun & _ & _ & ->)
               |[_ Hrun]]%bodyStep_Ok_inv;
      apply traverse_framed in Hrun as [[Ht _ _ _ _] _]; cbn; congruence.
Qed.

(** [compileTreeDefinition] terminates when its budget exceeds the number
    of nodes of the definition. *)
Lemma compile_terminates fuel definition oS oF :
  nodeSize definition < fuel →
  Terminated (compileTreeDefinition fuel definition oS oF).
Proof.
  revert definition oS oF.
  induction fuel as [|fuel IH]; intros definition oS oF Hfuel; [lia|].
  cbn [compileTreeDefinition].
  destruct definition as [| | | | | | | |fid sparams fparams body]; try done.
  pose proof (collectLocals_terminated sparams body oS oF) as Hcollect.
  destruct (collectLocals sparams body oS oF) as [L| |] eqn:HL; cbn; try done.
  pose proof (collectLocals_collected _ _ _ _ _ HL) as Hcol.
  cbn in Hfuel.
  assert (Hdefs : Terminated
            (forM (localDefStep
                     (λ funcDef, compileTreeDefinition fuel funcDef
                                   (streamEnvironment L) (functionEnvironment L))
                     (functionEnvironment L))
               (localFunctionIds L) [])).
  { apply (forM_terminated (λ _, True)); [|done].
    intros fid' acc Hfid _. split; [|done]. unfold localDefStep.
    destruct (Env.get _ fid') as [funcDef|] eqn:Hget; [|done].
    case_bool_decide; [|done].
    destruct Hcol as [_ _ _ (Hids & _ & Hreg)].
    apply Hids, elem_of_dom in Hfid as [f Hf].
    rewrite (Env_get_local _ _ _ Hf) in Hget. simplify_eq.
    apply Hreg in Hf as [Hf _]. apply visited_flat_size in Hf.
    assert (Hterm : Terminated
              (compileTreeDefinition fuel funcDef (streamEnvironment L)
                 (functionEnvironment L))) by (apply IH; lia).
    by destruct (compileTreeDefinition fuel funcDef _ _). }
  destruct (forM (localDefStep _ _) _ _) as [localDefs| |]; cbn; try done.
  assert (Hbody : Terminated (forM (bodyStep L fuel) body initialState)).
  { eapply body_terminated; [by eapply collected_scope| |done|done].
    pose proof (visited_flat_length body). lia. }
  by destruct (forM (bodyStep L fuel) body initialState).
Qed.

(** C9: [compileTreeDefinition] terminates on every tree: with a recursion
    budget above the number of nodes of the definition the result is a
    compiled definition or an exception, never an exhausted budget, and it
    is the same result for every such budget; cyclic references included. *)
Theorem C9_compilation_terminates (definition : Node)
    (outerStreamEnvironment : CompilationStreamEnvironment)
    (outerFunctionEnvironment : CompilationFunctionEnvironment) (fuel : nat) :
  nodeSize definition < fuel →
  Terminated (compileTreeDefinition fuel definition outerStreamEnvironment
                outerFunctionEnvironment)
  ∧ compileTreeDefinition fuel definition outerStreamEnvironment
      outerFunctionEnvironment
    = compileTreeDefinition (S (nodeSize definition)) definition
        outerStreamEnvironment outerFunctionEnvironment.
Proof.
  intros Hfuel. split; [by apply compile_terminates|].
  apply compile_fuel_mono; [lia|]. apply compile_terminates. lia.
Qed.

(** The theorem at the cyclic tree [mutualCycle]. *)
Lemma C9_compilation_terminates_witness :
  Terminated (compileTreeDefinition 9 mutualCycle (Env.new None)
                (seededFunctionEnvironment globalFunctions))
  ∧ compileTreeDefinition 9 mutualCycle (Env.new None)
      (seededFunctionEnvironment globalFunctions)
    = compileTreeDefinition (S (nodeSize mutualCycle)) mutualCycle
        (Env.new None) (seededFunctionEnvironment globalFunctions).
Proof.
  apply (C9_compilation_terminates mutualCycle (Env.new None)
           (seededFunctionEnvironment globalFunctions) 9).
  vm_compute. lia.
Defined.

(** ** Cycles *)

(** A call on a temporary-marked node throws the cycle error. *)
Lemma traverse_temporary_marked L fuel node st :
  marked (permanentMarked st) node = false →
  marked (temporaryMarked st) node = true →
  traverseStreamExpr L (S fuel) node st = Throw (CompilationError "graph cycle").
Proof. intros Hperm Htemp. cbn [traverseStreamExpr]. by rewrite Hperm, Htemp. Qed.

Lemma sargStep_throw (traverse : Node → CompileState → Result CompileState)
    sarg st ids e :
  traverse sarg st = Throw e → sargStep traverse sarg (st, ids) = Throw e.
Proof. unfold sargStep. cbn [fst]. by intros ->. Qed.

(** An exception of a nested call is the exception of the call. *)
Lemma invokes_throw L fuel node st fuel' node' st' e :
  Invokes L fuel node st fuel' node' st' →
  traverseStreamExpr L fuel' node' st' = Throw e →
  traverseStreamExpr L fuel node st = Throw e.
Proof.
  induction 1 as [fuel node st
                 |fuel o ref target st fuel' node' st' Hperm Htemp Hlocal Hget _ IH
                 |fuel o aid outs func sargs fargs fn before sarg after st st1
                    ids fuel' node' st' Hperm Htemp Hget -> Hbefore _ IH];
    intros Hthrow; [done|..]; specialize (IH Hthrow);
    cbn [traverseStreamExpr]; rewrite Hperm, Htemp.
  - by rewrite Hlocal, Hget, IH.
  - rewrite Hget, forM_app, Hbefore. cbn [mbind Result_mbind Result_bind].
    by rewrite forM_cons, (sargStep_throw _ _ _ _ _ IH).
Qed.

Lemma forM_Throw_inv {A S} (f : A → S → Result S) xs s e :
  forM f xs s = Throw e →
  ∃ before x after t,
    xs = before ++ x :: after ∧ forM f before s = Ok t ∧ f x t = Throw e.
Proof.
  revert s. induction xs as [|y ys IH]; intros s; [done|].
  rewrite forM_cons. destruct (f y s) as [t| |] eqn:Hy; cbn; [|by intros [= <-]; exists [], y, ys, s|done].
  intros (before & x & after & t' & -> & Hbefore & Hx)%IH.
  exists (y :: before), x, after, t'. split_and!; [done| |done].
  by rewrite forM_cons, Hy.
Qed.

(** Conversely, the cycle error of a call comes from a call, made by it
    or through the calls it makes, on a temporary-marked node. *)
Lemma cycle_error_invokes L fuel node st :
  traverseStreamExpr L fuel node st = Throw (CompilationError "graph cycle") →
  ∃ fuel' node' st',
    Invokes L fuel node st (S fuel') node' st'
    ∧ marked (permanentMarked st') node' = false
    ∧ marked (temporaryMarked st') node' = true.
Proof.
  revert node st. induction fuel as [|fuel IH]; intros node st; [done|].
  cbn [traverseStreamExpr].
  destruct (marked (permanentMarked st) node) eqn:Hperm; [done|].
  destruct (marked (temporaryMarked st) node) eqn:Htemp.
  { intros _. exists fuel, node, st. split_and!; [constructor|done..]. }
  destruct node as [o sid|o sid v|o sid v|o sid v|o ref
                   |o aid outs func sargs fargs|idx expr|fid
                   |fid sparams fparams body]; try done.
  - case_bool_decide as Hlocal; [|by destruct (negb _)].
    destruct (Env.get _ ref) as [[target|]|] eqn:Hget; [|done..].
    destruct (traverseStreamExpr L fuel target _) as [st1| |] eqn:Hrun;
      cbn; [done| |done].
    intros [= ->]. apply IH in Hrun as (fuel' & node' & st' & Hinv & Hmarks).
    exists fuel', node', st'. split; [|done].
    eapply InvokesTarget; [done..|by apply bool_decide_eq_true_2|done|done].
  - destruct (Env.get _ func) as [fn|] eqn:Hget; [|done].
    destruct (forM (sargStep _) sargs _) as [acc| |] eqn:Hsargs; cbn; [| |done].
    + destruct (forM (fargStep L) fargs []) as [fids| |] eqn:Hfargs;
        cbn; [done| |done].
      intros [= ->].
      apply forM_Throw_inv in Hfargs as (before & x & after & t & _ & _ & Hx).
      unfold fargStep in Hx. destruct x; cbn in Hx; try done;
        match type of Hx with
        | context [Env.get ?env ?k] => by destruct (Env.get env k)
        end.
    + intros [= ->].
      apply forM_Throw_inv in Hsargs
        as (before & x & after & [st1 ids] & -> & Hbefore & Hx).
      unfold sargStep in Hx. cbn [fst snd] in Hx.
      destruct (traverseStreamExpr L fuel x st1) as [st2| |] eqn:Hrun;
        cbn in Hx; [| |done].
      * destruct (streamExprReturnedId x) as [[[|? ?]|]| |] eqn:Hret;
          cbn in Hx; try done. simplify_eq. by destruct x.
      * simplify_eq. apply IH in Hrun as (fuel' & node' & st' & Hinv & Hmarks).
        exists fuel', node', st'. split; [|done].
        by eapply InvokesArgument.
Qed.

Lemma invokes_disjoint L fuel node st fuel' node' st' :
  Invokes L fuel node st fuel' node' st' →
  temporaryMarked st ## permanentMarked st →
  temporaryMarked st' ## permanentMarked st'.
Proof.
  induction 1 as [fuel node st
                 |fuel o ref target st fuel' node' st' Hperm Htemp Hlocal Hget _ IH
                 |fuel o aid outs func sargs fargs fn before sarg after st st1
                    ids fuel' node' st' Hperm Htemp Hget -> Hbefore _ IH];
    intros Hdisj; [done|..]; apply IH.
  - apply (marked_false _ _ o) in Hperm; [|done]. cbn. set_solver.
  - apply (marked_false _ _ o) in Hperm; [|done].
    eapply (sargs_invariant
              (λ s, temporaryMarked s ## permanentMarked s)); [| |exact Hbefore].
    + intros x s s' _ Hs [Hfr _]%traverse_framed. by eapply Framed_disjoint.
    + cbn. set_solver.
Qed.

Lemma body_disjoint L fuel entries st :
  forM (bodyStep L fuel) entries initialState = Ok st →
  temporaryMarked st ## permanentMarked st.
Proof.
  apply (forM_invariant (λ s, temporaryMarked s ## permanentMarked s));
    [|cbn; set_solver].
  intros node s s' _ Hs [(idx & expr & sid & s1 & -> & Hrun & _ & _ & ->)
                        |[_ Hrun]]%bodyStep_Ok_inv;
    apply traverse_framed in Hrun as [Hfr _]; cbn;
    by eapply Framed_disjoint.
Qed.

Lemma bodyStep_throw L fuel entry expr st e :
  entryExpression entry = Some expr →
  traverseStreamExpr L fuel expr st = Throw e →
  bodyStep L fuel entry st = Throw e.
Proof.
  destruct entry; cbn; intros [= <-]; try done. intros ->. done.
Qed.

(** C2: when the collector and the compilation of the local definitions
    have returned, and the resolution of a body entry, after the entries
    before it have been resolved, invokes [traverseStreamExpr] on a node
    that is temporary-marked, [compileTreeDefinition] throws the
    [CompilationError] "graph cycle"; it returns no compiled definition. *)
Theorem C2_cycle_aborts_compilation (fuel : nat) (fid : FunctionID)
    (sparams : list StreamID) (fparams : list FunctionID) (body : list Node)
    (outerStreamEnvironment : CompilationStreamEnvironment)
    (outerFunctionEnvironment : CompilationFunctionEnvironment)
    (L : Locals) (localDefs : list (FunctionID * CompiledDefinition))
    (before : list Node) (entry : Node) (after : list Node) (expr : Node)
    (st : CompileState) (fuel' : nat) (node : Node) (st' : CompileState) :
  collectLocals sparams body outerStreamEnvironment outerFunctionEnvironment
    = Ok L →
  forM (localDefStep
          (λ funcDef, compileTreeDefinition fuel funcDef
                        (streamEnvironment L) (functionEnvironment L))
          (functionEnvironment L))
    (localFunctionIds L) [] = Ok localDefs →
  body = before ++ entry :: after →
  forM (bodyStep L fuel) before initialState = Ok st →
  entryExpression entry = Some expr →
  Invokes L fuel expr st (S fuel') node st' →
  marked (temporaryMarked st') node = true →
  compileTreeDefinition (S fuel)
    (TreeFunctionDefinition fid sparams fparams body)
    outerStreamEnvironment outerFunctionEnvironment
  = Throw (CompilationError "graph cycle").
Proof.
  intros HL Hdefs -> Hbefore Hexpr Hinvokes Htemp.
  assert (Hperm : marked (permanentMarked st') node = false).
  { unfold marked in *. destruct (nodeId node) as [o|]; [|done].
    apply bool_decide_eq_true in Htemp. apply bool_decide_eq_false.
    intros Ho.
    eapply (invokes_disjoint _ _ _ _ _ _ _ Hinvokes); [|done..].
    by eapply body_disjoint. }
  pose proof (traverse_temporary_marked L fuel' node st' Hperm Htemp) as Hcycle.
  pose proof (invokes_throw _ _ _ _ _ _ _ _ Hinvokes Hcycle) as Hthrow.
  cbn [compileTreeDefinition]. rewrite HL. cbn [mbind Result_mbind Result_bind].
  rewrite Hdefs. cbn [mbind Result_mbind Result_bind].
  rewrite forM_app, Hbefore. cbn [mbind Result_mbind Result_bind].
  rewrite forM_cons, (bodyStep_throw _ _ _ _ _ _ Hexpr Hthrow). done.
Qed.

(** The theorem at the tree [mutualCycle]: the resolution of the first
    application reaches, through the reference to [b], the second
    application and, through the reference to [a], the first one again,
    which is temporary-marked. *)
Lemma C2_cycle_aborts_compilation_witness :
  compileTreeDefinition 6 mutualCycle (Env.new None)
    (seededFunctionEnvironment globalFunctions)
  = Throw (CompilationError "graph cycle").
Proof.
  eapply (C2_cycle_aborts_compilation 5 "main" [] [] _ (Env.new None)
            (seededFunctionEnvironment globalFunctions) _ _ [] _ _ _
            initialState 0).
  - vm_compute; reflexivity.
  - vm_compute; reflexivity.
  - reflexivity.
  - reflexivity.
  - reflexivity.
  - eapply (InvokesArgument _ 4) with (before := []);
      [vm_compute; reflexivity..|].
    eapply (InvokesTarget _ 3); [vm_compute; reflexivity..|].
    eapply (InvokesArgument _ 2) with (before := []);
      [vm_compute; reflexivity..|].
    eapply (InvokesTarget _ 1); [vm_compute; reflexivity..|].
    apply InvokesItself.
  - vm_compute; reflexivity.
Defined.

(** ** Stream references *)

(** C4: the resolution of a stream reference that is not marked, in a
    scope whose local stream ids are the keys of its local frame (which is
    what the collector establishes), stated on the arrays and sets the
    resolver updates.  A local target id has an entry.  If the entry is the
    null of a parameter, the call returns with the reference
    permanent-marked and nothing else changed, whatever the budget left
    for nested calls.  If the entry is a node, the call is decided by the
    nested call on that node, made while the reference is temporary-marked:
    when the nested call returns, the reference loses the temporary mark
    and gets the permanent one, and when it throws, the call throws the
    same.  If the target id is not local but visible in the enclosing
    environment, the call returns with the target id among the externally
    referenced stream ids and the reference permanent-marked; no spec is
    emitted and no other node is marked, so no nested call is made.  If
    the target id is visible nowhere, the [CompilationError] without
    message is thrown. *)
Theorem C4_stream_reference_resolution (L : Locals)
    (outerStreamEnvironment : CompilationStreamEnvironment)
    (fuel o : nat) (ref : StreamID) (st : CompileState) :
  localStreamIds L = dom (Env.vars (streamEnvironment L)) →
  Env.outer (streamEnvironment L) = Some outerStreamEnvironment →
  o ∉ permanentMarked st → o ∉ temporaryMarked st →
  (ref ∈ localStreamIds L →
     ∃ entry, Env.get (streamEnvironment L) ref = Some entry)
  ∧ (ref ∈ localStreamIds L →
     Env.get (streamEnvironment L) ref = Some None →
     traverseStreamExpr L (S fuel) (StreamReference o ref) st
     = Ok {| constStreams := constStreams st; apps := apps st;
             yieldIds := yieldIds st;
             externalReferencedStreamIds := externalReferencedStreamIds st;
             temporaryMarked := temporaryMarked st;
             permanentMarked := {[ o ]} ∪ permanentMarked st |})
  ∧ (∀ targetExpressionNode,
       ref ∈ localStreamIds L →
       Env.get (streamEnvironment L) ref = Some (Some targetExpressionNode) →
       match traverseStreamExpr L fuel targetExpressionNode
               {| constStreams := constStreams st; apps := apps st;
                  yieldIds := yieldIds st;
                  externalReferencedStreamIds :=
                    externalReferencedStreamIds st;
                  temporaryMarked := {[ o ]} ∪ temporaryMarked st;
                  permanentMarked := permanentMarked st |}
       with
       | Ok st1 =>
           traverseStreamExpr L (S fuel) (StreamReference o ref) st
           = Ok {| constStreams := constStreams st1; apps := apps st1;
                   yieldIds := yieldIds st1;
                   externalReferencedStreamIds :=
                     externalReferencedStreamIds st1;
                   temporaryMarked := temporaryMarked st1 ∖ {[ o ]};
                   permanentMarked := {[ o ]} ∪ permanentMarked st1 |}
       | Throw e =>
           traverseStreamExpr L (S fuel) (StreamReference o ref) st = Throw e
       | OutOfFuel =>
           traverseStreamExpr L (S fuel) (StreamReference o ref) st
           = OutOfFuel
       end)
  ∧ (ref ∉ localStreamIds L → Env.has outerStreamEnvironment ref = true →
     ∃ st', traverseStreamExpr L (S fuel) (StreamReference o ref) st = Ok st'
       ∧ ref ∈ externalReferencedStreamIds st'
       ∧ st' = {| constStreams := constStreams st; apps := apps st;
                  yieldIds := yieldIds st;
                  externalReferencedStreamIds :=
                    {[ ref ]} ∪ externalReferencedStreamIds st;
                  temporaryMarked := temporaryMarked st;
                  permanentMarked := {[ o ]} ∪ permanentMarked st |})
  ∧ (ref ∉ localStreamIds L → Env.has outerStreamEnvironment ref = false →
     traverseStreamExpr L (S fuel) (StreamReference o ref) st
     = Throw (CompilationError EmptyString)).
Proof.
  intros Hdom Houter Hperm Htemp.
  assert (Hhas : ref ∉ localStreamIds L →
            Env.has (streamEnvironment L) ref = Env.has outerStreamEnvironment ref).
  { intros Hlocal. rewrite Env_has_frame, Houter, <- Hdom.
    by rewrite bool_decide_eq_false_2. }
  assert (Hunmarked : marked (permanentMarked st) (StreamReference o ref) = false
            ∧ marked (temporaryMarked st) (StreamReference o ref) = false).
  { unfold marked; cbn [nodeId]. by rewrite !bool_decide_eq_false_2 by done. }
  destruct Hunmarked as [Hp Ht].
  split_and!.
  - intros Hlocal. rewrite Hdom in Hlocal.
    apply elem_of_dom in Hlocal as [entry Hentry].
    exists entry. by apply Env_get_local.
  - intros Hlocal Hentry. cbn [traverseStreamExpr].
    by rewrite Hp, Ht, bool_decide_eq_true_2, Hentry.
  - intros target Hlocal Hentry. cbn [traverseStreamExpr].
    rewrite Hp, Ht, bool_decide_eq_true_2, Hentry by done.
    unfold temporaryAdd.
    by destruct (traverseStreamExpr L fuel target _).
  - intros Hlocal Hvisible. eexists. split; [|split; [|reflexivity]].
    + cbn [traverseStreamExpr].
      by rewrite Hp, Ht, bool_decide_eq_false_2, Hhas, Hvisible.
    + cbn [externalReferencedStreamIds]. set_solver.
  - intros Hlocal Hvisible. cbn [traverseStreamExpr].
    by rewrite Hp, Ht, bool_decide_eq_false_2, Hhas, Hvisible.
Qed.

(** The theorem in the scope [resolutionLocals], at a reference to the
    parameter [p], to the local literal [a], to the stream [x] of the
    enclosing scope and to [z], which nothing binds. *)
Lemma C4_stream_reference_resolution_witness :
  let L := resolutionLocals in
  let st := initialState in
  traverseStreamExpr L 2 (StreamReference 7 "p") st
  = Ok {| constStreams := []; apps := []; yieldIds := [];
          externalReferencedStreamIds := ∅;
          temporaryMarked := ∅; permanentMarked := {[ 7 ]} ∪ ∅ |}
  ∧ traverseStreamExpr L 2 (StreamReference 7 "a") st
    = Ok {| constStreams := [CompiledDef.mkConst "a" (VNumber 3)];
            apps := []; yieldIds := [];
            externalReferencedStreamIds := ∅;
            temporaryMarked := ({[ 7 ]} ∪ ∅) ∖ {[ 7 ]};
            permanentMarked := {[ 7 ]} ∪ ({[ 1 ]} ∪ ∅) |}
  ∧ (∃ st', traverseStreamExpr L 2 (StreamReference 7 "x") st = Ok st'
       ∧ "x" ∈ externalReferencedStreamIds st'
       ∧ st' = {| constStreams := []; apps := []; yieldIds := [];
                  externalReferencedStreamIds := {[ "x" ]} ∪ ∅;
                  temporaryMarked := ∅; permanentMarked := {[ 7 ]} ∪ ∅ |})
  ∧ traverseStreamExpr L 2 (StreamReference 7 "z") st
    = Throw (CompilationError EmptyString).
Proof.
  assert (H := λ ref,
    C4_stream_reference_resolution resolutionLocals enclosingStreams 1 7 ref initialState
      ltac:(vm_compute; reflexivity) ltac:(reflexivity)
      ltac:(apply not_elem_of_empty) ltac:(apply not_elem_of_empty)).
  split_and!.
  - apply (H "p"); [|reflexivity].
    apply (bool_decide_unpack _). vm_compute. exact I.
  - destruct (H "a") as (_ & _ & Hnode & _).
    apply (Hnode (NumberLiteral 1 "a" 3)); [|reflexivity].
    apply (bool_decide_unpack _). vm_compute. exact I.
  - apply (H "x"); [|reflexivity].
    apply (bool_decide_unpack _). vm_compute. exact I.
  - apply (H "z"); [|reflexivity].
    apply (bool_decide_unpack _). vm_compute. exact I.
Defined.

(** ** The order of resolution *)

Lemma nodeIds_app xs ys : nodeIds (xs ++ ys) = nodeIds xs ∪ nodeIds ys.
Proof. unfold nodeIds. by rewrite omap_app, list_to_set_app_L. Qed.

Lemma nodeIds_singleton node o : nodeId node = Some o → nodeIds [node] = {[ o ]}.
Proof. unfold nodeIds. cbn. intros ->. cbn. set_solver. Qed.

Lemma traverse_Ok_nodeId L fuel node st st' :
  traverseStreamExpr L fuel node st = Ok st' → is_Some (nodeId node).
Proof.
  destruct fuel as [|fuel]; [done|]. intros Hrun%traverse_Ok_inv.
  destruct Hrun as [node st Hperm|node o c st Hperm Htemp Hid Hc| | | |];
    try by eexists.
  unfold marked in Hperm. by destruct (nodeId node).
Qed.

Lemma fargs_ids L fargs acc fids :
  forM (fargStep L) fargs acc = Ok fids →
  fids = acc ++ (definitionId <$> fargs).
Proof.
  revert acc. induction fargs as [|x xs IH]; intros acc.
  - intros [= <-]. by rewrite app_nil_r.
  - rewrite forM_cons. intros (acc' & Hx & Hrest)%bind_Ok.
    apply IH in Hrest as ->. unfold fargStep in Hx.
    apply bind_Ok in Hx as (fid & Hfid & Hx).
    destruct (Env.get _ fid); [|done]. simplify_eq.
    rewrite <- app_assoc. cbn. unfold definitionId. by rewrite Hfid.
Qed.

Lemma Resolved_temporaryAdd L N order st o :
  Resolved L N order st → o ∉ permanentMarked st →
  Resolved L N order (temporaryAdd o st).
Proof.
  intros [Hp Hnd Hsc Hc Ha Hd Hdep] Ho. split; cbn; auto. set_solver.
Qed.

(** The resolver state when one more node has been permanent-marked. *)
Lemma Resolved_finish L N order st node o st' :
  Resolved L N order st → node ∈ N → nodeId node = Some o →
  o ∉ permanentMarked st →
  DependenciesResolved L order node →
  permanentMarked st' = {[ o ]} ∪ permanentMarked st →
  temporaryMarked st' ## permanentMarked st' →
  constStreams st' = constStreams st ++ omap constSpecOf [node] →
  apps st' = apps st ++ omap appSpecOf [node] →
  Resolved L N (order ++ [node]) st'.
Proof.
  intros [Hp Hnd Hsc Hc Ha Hd Hdep] Hnode Ho Hfresh Hnew Hp' Hd' Hc' Ha'.
  split.
  - rewrite Hp', Hp, nodeIds_app, (nodeIds_singleton node o) by done. set_solver.
  - rewrite fmap_app. apply NoDup_app. split_and!; [done| |apply NoDup_singleton].
    intros x (n & -> & Hn)%list_elem_of_fmap Heq%list_elem_of_singleton.
    apply Hfresh. rewrite Hp. apply elem_of_nodeIds. exists n.
    split; [done|congruence].
  - intros n [Hn| ->%list_elem_of_singleton]%elem_of_app; [by apply Hsc|].
    split; [done|by eexists].
  - by rewrite Hc', Hc, omap_app.
  - by rewrite Ha', Ha, omap_app.
  - done.
  - intros p n [Hn|[Hp_ge Hn]]%lookup_app_Some.
    + rewrite take_app_le by (apply lookup_lt_Some in Hn; lia). by apply Hdep.
    + apply list_lookup_singleton_Some in Hn as [Hp_eq <-].
      assert (p = length order) as -> by lia. by rewrite take_app_length.
Qed.

(** A call on a node of the scope that returns has permanent-marked some
    more nodes of the scope, each once and after the nodes it waits for,
    and has emitted their specs. *)
Lemma traverse_resolved L N fuel node st st' order :
  Scope L N → node ∈ N → Resolved L N order st →
  traverseStreamExpr L fuel node st = Ok st' →
  ∃ order', Resolved L N (order ++ order') st'.
Proof.
  intros HN. revert node st st' order.
  induction fuel as [|fuel IH]; intros node st st' order Hnode Hres Hrun;
    [done|].
  apply traverse_Ok_inv in Hrun.
  traverse_cases Hrun.
  - exists []. by rewrite app_nil_r.
  - apply (marked_false _ _ o) in Hperm, Htemp; [|done..].
    exists [node]. eapply Resolved_finish; try done.
    + by destruct node.
    + cbn. pose proof (res_disjoint _ _ _ _ Hres). set_solver.
    + cbn. by rewrite Hc.
    + cbn. destruct node; try done; by rewrite app_nil_r.
  - exists [StreamReference o ref]. eapply Resolved_finish; try done.
    + cbn. intros target _ Htarget. congruence.
    + cbn. pose proof (res_disjoint _ _ _ _ Hres). set_solver.
    + cbn. by rewrite app_nil_r.
    + cbn. by rewrite app_nil_r.
  - destruct (scope_target _ _ HN ref target Hlocal Hget) as [Htarget _].
    pose proof (traverse_framed _ _ _ _ _ Hrun) as [[Ht Hp Hf Hy He] Hmark].
    destruct (traverse_Ok_nodeId _ _ _ _ _ Hrun) as [o' Ho'].
    apply (IH _ _ _ order) in Hrun as [order1 Hres1];
      [|done|by apply Resolved_temporaryAdd].
    pose proof (res_disjoint _ _ _ _ Hres1) as Hdisj. cbn in Ht.
    exists (order1 ++ [StreamReference o ref]). rewrite app_assoc.
    eapply Resolved_finish; try done.
    + set_solver.
    + cbn. intros target' _ Htarget'. simplify_eq. exists o'. split; [done|].
      rewrite <- (res_permanent _ _ _ _ Hres1). by apply Hmark.
    + cbn. set_solver.
    + cbn. by rewrite app_nil_r.
    + cbn. by rewrite app_nil_r.
  - exists [StreamReference o ref]. eapply Resolved_finish; try done.
    + cbn. by intros target Hlocal'.
    + cbn. pose proof (res_disjoint _ _ _ _ Hres). set_solver.
    + cbn. by rewrite app_nil_r.
    + cbn. by rewrite app_nil_r.
  - set (node := Application o aid outs func sargs fargs) in *.
    pose (P := λ (pre : list Node) (acc : CompileState * list StreamID),
            (∃ order1, Resolved L N (order ++ order1) acc.1)
            ∧ temporaryMarked acc.1 = {[ o ]} ∪ temporaryMarked st
            ∧ acc.2 = returnedId <$> pre
            ∧ ∀ x, x ∈ pre →
                   (∃ o', nodeId x = Some o' ∧ o' ∈ permanentMarked acc.1)
                   ∧ ∃ sid, streamExprReturnedId x = Ok (Some sid)).
    assert (HP : P sargs (st1, ids)).
    { eapply (forM_prefix_invariant P); [| |exact Hsargs].
      - intros pre x post [s l] [s' l'] Hsplit
          ([order1 Hres1] & Htemp1 & Hids & Hpre)
          (sid & Hx & Hret & _ & ->)%sargStep_Ok_inv. cbn in *.
        assert (Hxin : x ∈ N).
        { eapply (scope_sargs _ _ HN); [exact Hnode|].
          rewrite Hsplit. set_solver. }
        pose proof (traverse_framed _ _ _ _ _ Hx) as [[Ht Hp Hf Hy He] Hmark].
        destruct (traverse_Ok_nodeId _ _ _ _ _ Hx) as [o' Ho'].
        apply (IH _ _ _ (order ++ order1)) in Hx as [order2 Hres2]; [|done..].
        split_and!; cbn [fst snd].
        + exists (order1 ++ order2). by rewrite app_assoc.
        + by rewrite Ht.
        + rewrite fmap_app, Hids. cbn. unfold returnedId. by rewrite Hret.
        + intros y [Hy'| ->%list_elem_of_singleton]%elem_of_app.
          * destruct (Hpre y Hy') as [(oy & Hoy & Hin) Hsid].
            split; [|done]. exists oy. split; [done|]. by apply Hp.
          * split; [|by eexists]. exists o'. split; [done|]. by apply Hmark.
      - split_and!; cbn; [|done|done|].
        + exists []. rewrite app_nil_r. by apply Resolved_temporaryAdd.
        + intros x Hx. by apply elem_of_nil in Hx. }
    destruct HP as ([order1 Hres1] & Htemp1 & Hids & Hpre). cbn in *.
    pose proof (res_disjoint _ _ _ _ Hres1) as Hdisj.
    apply fargs_ids in Hfargs. cbn in Hfargs.
    exists (order1 ++ [node]). rewrite app_assoc.
    eapply Resolved_finish; try done.
    + set_solver.
    + cbn. intros x Hx. destruct (Hpre x Hx) as [(o' & Ho' & Hin) Hsid].
      split; [|done]. exists o'. split; [done|].
      by rewrite <- (res_permanent _ _ _ _ Hres1).
    + cbn. set_solver.
    + cbn. by rewrite app_nil_r.
    + cbn. by rewrite Hids, Hfargs.
Qed.

Lemma Resolved_initial L N : Resolved L N [] initialState.
Proof.
  split; cbn; try done.
  - apply NoDup_nil_2.
  - intros node Hnode. by apply elem_of_nil in Hnode.
Qed.

Lemma Resolved_setYield L N order idx sid st :
  Resolved L N order st → Resolved L N order (setYield idx sid st).
Proof. intros [Hp Hnd Hsc Hc Ha Hd Hdep]. by split. Qed.

Lemma body_resolved L fuel body st :
  Scope L (flat_map visited body) →
  forM (bodyStep L fuel) body initialState = Ok st →
  ∃ order, Resolved L (flat_map visited body) order st.
Proof.
  intros HN.
  apply (forM_invariant (λ s, ∃ order, Resolved L (flat_map visited body) order s));
    [|exists []; apply Resolved_initial].
  intros entry s s' Hentry [order Hres]
    [(idx & expr & sid & s1 & -> & Hrun & _ & _ & ->)|[Hstream Hrun]]%bodyStep_Ok_inv.
  - eapply traverse_resolved in Hrun as [order' Hres']; [|done| |done].
    + exists (order ++ order'). by apply Resolved_setYield.
    + eapply body_entry_visited; [done|]. right. by eexists.
  - eapply traverse_resolved in Hrun as [order' Hres']; [|done| |done].
    + by exists (order ++ order').
    + eapply body_entry_visited; [done|]. by left.
Qed.

(** A compiled definition comes from a resolver state of its scope. *)
Lemma compile_resolved fuel definition oS oF cd ext :
  compileTreeDefinition fuel definition oS oF = Ok (cd, ext) →
  ∃ L order st,
    Scope L (scopeNodes definition)
    ∧ Resolved L (scopeNodes definition) order st
    ∧ CompiledDef.constStreams cd = constStreams st
    ∧ CompiledDef.apps cd = apps st.
Proof.
  destruct fuel as [|fuel]; [done|].
  intros (fid & sparams & fparams & body & L & localDefs & st & ->
          & HL & _ & Hst & -> & _)%compile_Ok_inv.
  pose proof (collectLocals_collected _ _ _ _ _ HL) as Hcol.
  pose proof (collected_scope _ _ _ _ Hcol) as HN.
  destruct (body_resolved _ _ _ _ HN Hst) as [order Hres].
  by exists L, order, st.
Qed.

(** ** One spec per node *)

(** C7: the output of a compilation lists one spec per resolved node.
    There is a list of stream-expression nodes of the scope in which no
    node object occurs twice, such that the constant specs of the compiled
    definition are those of the literal nodes of the list and its
    application specs are those of the application nodes of the list, one
    each, in the order of the list; how often a node is referenced or
    reached plays no part. *)
Theorem C7_one_spec_per_node (fuel : nat) (definition : Node)
    (outerStreamEnvironment : CompilationStreamEnvironment)
    (outerFunctionEnvironment : CompilationFunctionEnvironment)
    (cd : CompiledDefinition) (ext : gset StreamID) :
  compileTreeDefinition fuel definition outerStreamEnvironment
    outerFunctionEnvironment = Ok (cd, ext) →
  ∃ order : list Node,
    NoDup (nodeId <$> order)
    ∧ (∀ node, node ∈ order →
               node ∈ scopeNodes definition ∧ is_Some (nodeId node))
    ∧ CompiledDef.constStreams cd = omap constSpecOf order
    ∧ CompiledDef.apps cd = omap appSpecOf order.
Proof.
  intros (L & order & st & _ & [Hp Hnd Hsc Hc Ha Hd Hdep] & Hconsts & Happs)
    %compile_resolved.
  exists order. split_and!; [done|done|congruence|congruence].
Qed.

(** The theorem at the tree [multiOutput]: one application spec for the
    application with two outputs, one constant spec for the literal
    referenced from three places. *)
Lemma C7_one_spec_per_node_witness :
  ∃ cd ext,
    compileTreeDefinition 8 multiOutput (Env.new None)
      (seededFunctionEnvironment globalFunctions) = Ok (cd, ext)
    ∧ CompiledDef.constStreams cd = [CompiledDef.mkConst "x" (VNumber 3)]
    ∧ CompiledDef.apps cd
      = [CompiledDef.mkApp ["p"; "q"] "A-1" "add" ["x"] [];
         CompiledDef.mkApp ["r"] "A-2" "add" ["q"; "x"; "x"] []]
    ∧ ∃ order : list Node,
        NoDup (nodeId <$> order)
        ∧ (∀ node, node ∈ order →
                   node ∈ scopeNodes multiOutput ∧ is_Some (nodeId node))
        ∧ CompiledDef.constStreams cd = omap constSpecOf order
        ∧ CompiledDef.apps cd = omap appSpecOf order.
Proof.
  eexists _, _. split; [vm_compute; reflexivity|].
  split; [reflexivity|]. split; [reflexivity|].
  eapply (C7_one_spec_per_node 8 multiOutput (Env.new None)
            (seededFunctionEnvironment globalFunctions)).
  vm_compute; reflexivity.
Defined.

(** ** Topological order *)

Lemma omap_lookup_index {A B} (f : A → option B) (l : list A) i b :
  omap f l !! i = Some b →
  ∃ p x, l !! p = Some x ∧ f x = Some b ∧ length (omap f (take p l)) = i.
Proof.
  revert i. induction l as [|y l IH]; intros i Hi; [done|].
  cbn in Hi. destruct (f y) as [c|] eqn:Hy; cbn in Hi.
  - destruct i as [|i]; cbn in Hi.
    + simplify_eq. by exists 0, y.
    + destruct (IH i Hi) as (p & x & Hp & Hx & Hlen).
      exists (S p), x. split_and!; [done..|]. cbn. rewrite Hy. cbn. by rewrite Hlen.
  - destruct (IH i Hi) as (p & x & Hp & Hx & Hlen).
    exists (S p), x. split_and!; [done..|]. cbn. by rewrite Hy.
Qed.

Lemma omap_take_lt {A B} (f : A → option B) (l : list A) p q x :
  q < p → l !! q = Some x → is_Some (f x) →
  length (omap f (take q l)) < length (omap f (take p l)).
Proof.
  revert p q. induction l as [|y l IH]; intros p q Hlt Hq [b Hb]; [done|].
  destruct p as [|p]; [lia|]. destruct q as [|q]; cbn in *.
  - simplify_eq. rewrite Hb. cbn. lia.
  - specialize (IH p q ltac:(lia) Hq (ex_intro _ b Hb)).
    destruct (f y); cbn; lia.
Qed.

Lemma elem_of_nodeIds_take order p o :
  o ∈ nodeIds (take p order) →
  ∃ q node, q < p ∧ order !! q = Some node ∧ nodeId node = Some o.
Proof.
  intros (node & Hnode & Hid)%elem_of_nodeIds.
  apply list_elem_of_lookup in Hnode as [q Hq].
  apply lookup_take_Some in Hq as [Hq Hlt]. by exists q, node.
Qed.

Lemma order_position_unique (order : list Node) q1 q2 n1 n2 :
  NoDup (nodeId <$> order) →
  order !! q1 = Some n1 → order !! q2 = Some n2 → nodeId n1 = nodeId n2 →
  q1 = q2.
Proof.
  intros Hnd H1 H2 Heq.
  apply (NoDup_lookup (nodeId <$> order) q1 q2 (nodeId n1)); [done|..];
    rewrite list_lookup_fmap; [by rewrite H1|by rewrite H2, Heq].
Qed.

(** The id returned for a literal or an application is one of the ids the
    node defines; a reference returns its target id. *)
Lemma returned_defined node sid :
  streamExprReturnedId node = Ok (Some sid) →
  sid ∈ definedIds node ∨ ∃ o, node = StreamReference o sid.
Proof.
  destruct node as [o s|o s v|o s v|o s v|o ref
                   |o aid outs func sargs fargs|idx expr|fid
                   |fid sparams fparams body]; cbn; intros Hret; simplify_eq;
    try (left; by apply list_elem_of_singleton).
  - right. by exists o.
  - left. destruct (head (filter _ outs)) as [out|] eqn:Hhead; [|done].
    cbn in Hret. simplify_eq. apply list_elem_of_fmap. exists out. split; [done|].
    apply head_Some_elem_of in Hhead. by apply list_elem_of_filter in Hhead as [_ ?].
Qed.

(** In the order of resolution, the node that defines an id consumed by
    an application comes before that application. *)
Lemma producer_before_consumer L N order st p q consumer producer sid :
  Scope L N → IdentityCoherent N → Resolved L N order st →
  order !! p = Some consumer → order !! q = Some producer →
  (∃ o aid outs func sargs fargs,
      consumer = Application o aid outs func sargs fargs
      ∧ sid ∈ returnedId <$> sargs) →
  sid ∈ definedIds producer →
  q < p.
Proof.
  intros HN Hcoh [Hp Hnd Hsc Hc Ha Hd Hdep] Hcons Hprod
    (o & aid & outs & func & sargs & fargs & -> & Hsid) Hdef.
  apply list_elem_of_fmap in Hsid as (x & -> & Hx).
  destruct (Hsc _ (list_elem_of_lookup_2 _ _ _ Hcons)) as [HconsN _].
  destruct (Hsc _ (list_elem_of_lookup_2 _ _ _ Hprod)) as [HprodN [oq Hoq]].
  destruct (scope_defines _ _ HN _ _ HprodN Hdef) as [Hlocal Hget].
  pose proof (Hdep p _ Hcons) as Hdeps. cbn in Hdeps.
  destruct (Hdeps x Hx) as [(ox & Hox & Hin) [sid Hret]].
  unfold returnedId in Hdef, Hlocal, Hget. rewrite Hret in Hdef, Hlocal, Hget.
  apply elem_of_nodeIds_take in Hin as (qx & x' & Hqx & Hx' & Hox').
  assert (x' = x) as ->.
  { eapply Hcoh; [| |done..].
    - by apply (Hsc _ (list_elem_of_lookup_2 _ _ _ Hx')).
    - by eapply (scope_sargs _ _ HN). }
  destruct (returned_defined _ _ Hret) as [Hxdef|[o' ->]].
  - (* the argument is the node that defines the id *)
    destruct (Hsc _ (list_elem_of_lookup_2 _ _ _ Hx')) as [HxN _].
    destruct (scope_defines _ _ HN _ _ HxN Hxdef) as [_ Hget'].
    assert (x = producer) as -> by congruence.
    assert (q = qx) as -> by by eapply order_position_unique.
    done.
  - (* the argument is a reference, resolved after its defining node *)
    pose proof (Hdep qx _ Hx') as Hdeps'. cbn in Hdeps'.
    destruct (Hdeps' producer Hlocal Hget) as (oq' & Hoq' & Hin').
    apply elem_of_nodeIds_take in Hin' as (q' & n' & Hq' & Hn' & Hid').
    assert (q = q') as ->; [|lia].
    eapply order_position_unique; [done..|congruence].
Qed.

Lemma NoDup_identity_coherent nodes :
  NoDup (omap nodeId nodes) → IdentityCoherent nodes.
Proof.
  induction nodes as [|x xs IH]; intros Hnd n1 n2 o H1 H2 Ho1 Ho2.
  - by apply elem_of_nil in H1.
  - assert (Htail : NoDup (omap nodeId xs)).
    { cbn in Hnd. destruct (nodeId x); [by apply NoDup_cons in Hnd as [_ ?]|done]. }
    assert (Hfresh : ∀ n, n ∈ xs → nodeId n = Some o → nodeId x ≠ Some o).
    { intros n Hn Hid Hx. cbn in Hnd. rewrite Hx in Hnd.
      apply NoDup_cons in Hnd as [Hnot _]. apply Hnot.
      apply list_elem_of_omap. by exists n. }
    apply elem_of_cons in H1 as [->|H1], H2 as [->|H2]; [done| | |by eapply IH].
    + by destruct (Hfresh n2 H2 Ho2).
    + by destruct (Hfresh n1 H1 Ho1).
Qed.

(** C1: the application specs of a compiled definition are in topological
    order.  When distinct node objects of the scope have distinct
    identities, every stream id an application spec consumes that is an
    output of an application spec of the definition is an output of a spec
    at a strictly smaller position. *)
Theorem C1_apps_topological_order (fuel : nat) (definition : Node)
    (outerStreamEnvironment : CompilationStreamEnvironment)
    (outerFunctionEnvironment : CompilationFunctionEnvironment)
    (cd : CompiledDefinition) (ext : gset StreamID)
    (i j : nat) (consumer producer : AppSpec) (sid : StreamID) :
  compileTreeDefinition fuel definition outerStreamEnvironment
    outerFunctionEnvironment = Ok (cd, ext) →
  IdentityCoherent (scopeNodes definition) →
  CompiledDef.apps cd !! i = Some consumer →
  CompiledDef.apps cd !! j = Some producer →
  sid ∈ CompiledDef.sargIds consumer →
  sid ∈ CompiledDef.sids producer →
  j < i.
Proof.
  intros (L & order & st & HN & Hres & _ & Happs)%compile_resolved
    Hcoh Hi Hj Hconsumed Hproduced.
  rewrite Happs, (res_apps _ _ _ _ Hres) in Hi, Hj.
  apply omap_lookup_index in Hi as (p & a & Hp & Ha & <-).
  apply omap_lookup_index in Hj as (q & b & Hq & Hb & <-).
  destruct a as [| | | | |o aid outs func sargs fargs| | |]; try done.
  destruct b as [| | | | |o' aid' outs' func' sargs' fargs'| | |]; try done.
  cbn in Ha, Hb. simplify_eq. cbn in Hconsumed, Hproduced.
  eapply omap_take_lt; [|done|done].
  eapply (producer_before_consumer L); [done..| |done].
  by eexists _, _, _, _, _, _.
Qed.

(** The theorem at the tree [multiOutput]: the spec that consumes [q] is
    at position 1, the spec that produces it at position 0. *)
Lemma C1_apps_topological_order_witness :
  ∃ cd ext consumer producer,
    compileTreeDefinition 8 multiOutput (Env.new None)
      (seededFunctionEnvironment globalFunctions) = Ok (cd, ext)
    ∧ CompiledDef.apps cd !! 1 = Some consumer
    ∧ CompiledDef.apps cd !! 0 = Some producer
    ∧ "q" ∈ CompiledDef.sargIds consumer
    ∧ "q" ∈ CompiledDef.sids producer
    ∧ 0 < 1.
Proof.
  eexists _, _, _, _. split; [vm_compute; reflexivity|].
  split; [reflexivity|]. split; [reflexivity|].
  split; [by left|].
  split; [by right; left|].
  eapply (C1_apps_topological_order 8 multiOutput (Env.new None)
            (seededFunctionEnvironment globalFunctions) _ _ 1 0 _ _ "q").
  - vm_compute; reflexivity.
  - apply NoDup_identity_coherent. vm_compute.
    repeat (apply NoDup_cons_2; [set_solver|]). apply NoDup_nil_2.
  - reflexivity.
  - reflexivity.
  - by left.
  - by right; left.
Defined.

(** ** Local function definitions *)

Lemma localDefs_loop
    (compile : Node → Result (CompiledDefinition * gset StreamID))
    (fenv : CompilationFunctionEnvironment) fids acc defs :
  forM (localDefStep compile fenv) fids acc = Ok defs →
  ∃ rest,
    defs = acc ++ rest
    ∧ rest.*1 = filter (λ fid, Is_true (isTreeFunction fenv fid)) fids
    ∧ ∀ fid d, (fid, d) ∈ rest →
               ∃ funcDef ext,
                 Env.get fenv fid = Some funcDef
                 ∧ kind funcDef = KTreeFunctionDefinition
                 ∧ compile funcDef = Ok (d, ext).
Proof.
  revert acc. induction fids as [|fid fids IH]; intros acc.
  - intros [= <-]. exists []. rewrite app_nil_r. split_and!; [done..|].
    intros fid d Hin. by apply elem_of_nil in Hin.
  - rewrite forM_cons. intros (acc' & Hstep & Hrest)%bind_Ok.
    apply IH in Hrest as (rest & -> & Hkeys & Hdefs).
    unfold localDefStep in Hstep.
    destruct (Env.get fenv fid) as [funcDef|] eqn:Hget; [|done].
    case_bool_decide as Hkind.
    + apply bind_Ok in Hstep as ([d ext] & Hcompile & [= <-]).
      exists ((fid, d) :: rest). rewrite <- app_assoc. split_and!; [done| |].
      * rewrite fmap_cons, filter_cons_True; [by rewrite Hkeys|].
        unfold isTreeFunction. rewrite Hget. by apply bool_decide_pack.
      * intros fid' d' [[= -> ->]|Hin]%elem_of_cons; [|by apply Hdefs].
        by exists funcDef, ext.
    + simplify_eq. exists rest. split_and!; [done| |done].
      rewrite filter_cons_False; [done|].
      unfold isTreeFunction. rewrite Hget. by intros ?%bool_decide_unpack.
Qed.



(** ** Further examples *)

(** The scenario [x := 3; y := add(x, x)]: one constant spec for [x] and
    one application spec with the arguments [x, x]. *)
Lemma sharedLiteral_compiles :
  compileGlobalTreeDefinition 6 sharedLiteral globalFunctions
  = Ok (CompiledDef.mkDef [] []
          [CompiledDef.mkConst "x" (VNumber 3)]
          [CompiledDef.mkApp ["y"] "A-1" "add" ["x"; "x"] []] [] []).
Proof. vm_compute. reflexivity. Qed.

(** A function definition among the body entries is collected and
    compiled, and then makes the body pass throw. *)
Lemma bodyFunction_rejected :
  compileGlobalTreeDefinition 4 bodyFunction globalFunctions
  = Throw (Error EmptyString).
Proof. vm_compute. reflexivity. Qed.

(** A local function that defines a stream id of its enclosing scope is
    rejected by the collector of the local function. *)
Lemma shadowedStream_rejected :
  compileGlobalTreeDefinition 6 shadowedStream globalFunctions
  = Throw (Error "must be unique").
Proof. vm_compute. reflexivity. Qed.

(** ** The collector: which ids it accepts *)

Lemma Env_has_false_frame {K} `{Countable K} {V} (e o : Environment K V) k :
  Env.outer e = Some o →
  Env.has e k = false ↔ (k ∉ dom (Env.vars e)) ∧ Env.has o k = false.
Proof.
  intros Ho. rewrite Env_has_frame, Ho, orb_false_iff, bool_decide_eq_false.
  done.
Qed.

Lemma forM_fmap {A B S} (g : A → B) (f : B → S → Result S) xs s :
  forM f (g <$> xs) s = forM (λ x, f (g x)) xs s.
Proof.
  revert s. induction xs as [|x xs IH]; intros s; [done|].
  cbn. destruct (f (g x) s); [apply IH|done..].
Qed.

Lemma Registered_fresh oS oF params :
  Registered oS oF params [] [] (freshLocals oS oF).
Proof.
  split; cbn; try done; try apply NoDup_nil_2.
  - intros sid Hsid. by apply elem_of_nil in Hsid.
  - intros fid. rewrite dom_empty_L. set_solver.
  - intros fid Hfid. by apply elem_of_nil in Hfid.
Qed.

Lemma defineStream_registered oS oF params seen fseen sid target L L' :
  Registered oS oF params seen fseen L →
  (target = None → sid ∈ params) →
  defineStream sid target L = Ok L' →
  Registered oS oF params (seen ++ [sid]) fseen L'.
Proof.
  intros [HoS HoF Hnd Hdom Hloc Hfresh Hpar Hfnd Hfdom Hfloc Hffresh] Htarget
    [Hhas ->]%defineStream_inv.
  apply (Env_has_false_frame _ oS) in Hhas as [Hnew Hout]; [|done].
  assert (Hnotin : sid ∉ seen) by (rewrite Hdom in Hnew; set_solver).
  split; cbn [streamEnvironment functionEnvironment localStreamIds
                localFunctionIds Env.vars Env.outer]; auto.
  - apply NoDup_app. split_and!; [done| |apply NoDup_singleton].
    intros x Hx ->%list_elem_of_singleton. done.
  - rewrite dom_insert_L, Hdom, list_to_set_app_L. set_solver.
  - rewrite Hloc, list_to_set_app_L. set_solver.
  - intros x [Hx| ->%list_elem_of_singleton]%elem_of_app; auto.
  - intros x. destruct (decide (x = sid)) as [->|Hne].
    + rewrite lookup_insert_eq. intros [= Heq]. auto.
    + rewrite lookup_insert_ne by done. auto.
Qed.

Lemma orderedAdd_fresh x xs : x ∉ xs → orderedAdd x xs = xs ++ [x].
Proof. intros Hx. unfold orderedAdd. by rewrite bool_decide_eq_false_2. Qed.

Lemma defineFunction_registered oS oF params seen fseen fid node L L' :
  Registered oS oF params seen fseen L →
  defineFunction fid node L = Ok L' →
  Registered oS oF params seen (fseen ++ [fid]) L'.
Proof.
  intros [HoS HoF Hnd Hdom Hloc Hfresh Hpar Hfnd Hfdom Hfloc Hffresh]
    [Hhas ->]%defineFunction_inv.
  apply (Env_has_false_frame _ oF) in Hhas as [Hnew Hout]; [|done].
  assert (Hnotin : fid ∉ fseen) by (by rewrite Hfdom).
  split; cbn [streamEnvironment functionEnvironment localStreamIds
                localFunctionIds Env.vars Env.outer]; auto.
  - apply NoDup_app. split_and!; [done| |apply NoDup_singleton].
    intros x Hx ->%list_elem_of_singleton. done.
  - intros x. rewrite dom_insert_L, elem_of_app, list_elem_of_singleton, Hfdom.
    set_solver.
  - rewrite Hfloc. by apply orderedAdd_fresh.
  - intros x [Hx| ->%list_elem_of_singleton]%elem_of_app; auto.
Qed.

Lemma defineStreams_registered oS oF params seen fseen ids target L L' :
  Registered oS oF params seen fseen L →
  (target = None → ids ⊆ params) →
  forM (λ sid, defineStream sid target) ids L = Ok L' →
  Registered oS oF params (seen ++ ids) fseen L'.
Proof.
  intros HL Htarget.
  apply (forM_prefix_invariant
           (λ pre K, Registered oS oF params (seen ++ pre) fseen K)).
  - intros pre sid post K K' Hsplit HK Hstep. rewrite app_assoc.
    eapply defineStream_registered; [done| |done].
    intros Hnone. apply (Htarget Hnone). rewrite Hsplit. set_solver.
  - by rewrite app_nil_r.
Qed.

Lemma registerNode_registered oS oF params seen fseen node L L' :
  Registered oS oF params seen fseen L →
  registerNode node L = Ok L' →
  Registered oS oF params (seen ++ definedIds node)
    (fseen ++ option_list (definedFunctionId node)) L'.
Proof.
  intros HL.
  destruct node as [o sid|o sid v|o sid v|o sid v|o ref
                   |o aid outs func sargs fargs|idx expr|fid
                   |fid sparams fparams body]; cbn [registerNode definedIds
                     definedFunctionId option_list];
    rewrite ?app_nil_r;
    try (intros Hrun;
         by eapply defineStream_registered; [exact HL| |exact Hrun]);
    try (intros [= <-]; done);
    try (intros Hrun; by eapply defineFunction_registered).
  intros Hrun.
  assert (Hloop : forM (λ sid, defineStream sid
                          (Some (Application o aid outs func sargs fargs)))
                    (out_sid <$> outs) L = Ok L').
  { by rewrite forM_fmap. }
  eapply defineStreams_registered; [exact HL| |exact Hloop]. done.
Qed.

Lemma collector_registered oS oF params seen fseen vs L L' :
  Registered oS oF params seen fseen L →
  forM registerNode vs L = Ok L' →
  Registered oS oF params (seen ++ flat_map definedIds vs)
    (fseen ++ omap definedFunctionId vs) L'.
Proof.
  intros HL.
  apply (forM_prefix_invariant
           (λ pre K, Registered oS oF params (seen ++ flat_map definedIds pre)
                       (fseen ++ omap definedFunctionId pre) K)).
  - intros pre node post K K' _ HK Hstep.
    rewrite flat_map_app, omap_app, !app_assoc. cbn. rewrite app_nil_r.
    replace (from_option (λ y, [y]) [] (definedFunctionId node))
      with (option_list (definedFunctionId node))
      by (by destruct (definedFunctionId node)).
    by eapply registerNode_registered.
  - cbn. by rewrite !app_nil_r.
Qed.

Lemma collectLocals_registered sparams body oS oF L :
  collectLocals sparams body oS oF = Ok L →
  Registered oS oF sparams
    (sparams ++ flat_map definedIds (flat_map visited body))
    (omap definedFunctionId (flat_map visited body)) L.
Proof.
  intros (L0 & HL0 & HL)%bind_Ok. rewrite collect_visited in HL.
  eapply (defineStreams_registered oS oF sparams [] []) in HL0;
    [|apply Registered_fresh|done].
  by eapply (collector_registered oS oF sparams _ []) in HL.
Qed.

Lemma defineStreams_accepted oS oF params seen fseen ids target L :
  Registered oS oF params seen fseen L →
  (target = None → ids ⊆ params) →
  NoDup (seen ++ ids) → (∀ sid, sid ∈ ids → Env.has oS sid = false) →
  ∃ L', forM (λ sid, defineStream sid target) ids L = Ok L'.
Proof.
  revert seen L. induction ids as [|sid ids IH]; intros seen L HL Htarget Hnd Hfresh;
    [by eexists|].
  assert (Hhas : Env.has (streamEnvironment L) sid = false).
  { apply (Env_has_false_frame _ oS); [apply HL|]. split; [|apply Hfresh; by left].
    rewrite (reg_dom _ _ _ _ _ _ HL), elem_of_list_to_set.
    apply NoDup_app in Hnd as (_ & Hdisj & _). intros Hin.
    apply (Hdisj _ Hin). by left. }
  pose proof (defineStream_Ok sid target L Hhas) as Hstep.
  rewrite forM_cons, Hstep. cbn.
  eapply (IH (seen ++ [sid])).
  - eapply defineStream_registered; [exact HL| |exact Hstep].
    intros Hnone. apply (Htarget Hnone). by left.
  - intros Hnone x Hx. apply (Htarget Hnone). by right.
  - by rewrite <- app_assoc.
  - intros x Hx. apply Hfresh. by right.
Qed.

Lemma registerNode_accepted oS oF params seen fseen node L :
  Registered oS oF params seen fseen L →
  NoDup (seen ++ definedIds node) →
  (∀ sid, sid ∈ definedIds node → Env.has oS sid = false) →
  NoDup (fseen ++ option_list (definedFunctionId node)) →
  (∀ fid, definedFunctionId node = Some fid → Env.has oF fid = false) →
  ∃ L', registerNode node L = Ok L'.
Proof.
  intros HL Hnd Hfresh Hfnd Hffresh.
  assert (Hstreams : ∀ target, is_Some target →
            ∃ L', forM (λ sid, defineStream sid target) (definedIds node) L
                  = Ok L').
  { intros target [n ->]. by eapply defineStreams_accepted. }
  assert (Hfunction : ∀ fid, definedFunctionId node = Some fid →
            ∃ L', defineFunction fid node L = Ok L').
  { intros fid Hfid. eexists. apply defineFunction_Ok.
    apply (Env_has_false_frame _ oF); [apply HL|]. split; [|by apply Hffresh].
    rewrite <- (reg_fdom _ _ _ _ _ _ HL). rewrite Hfid in Hfnd. cbn in Hfnd.
    apply NoDup_app in Hfnd as (_ & Hdisj & _). intros Hin.
    apply (Hdisj _ Hin). by left. }
  destruct node as [o sid|o sid v|o sid v|o sid v|o ref
                   |o aid outs func sargs fargs|idx expr|fid
                   |fid sparams fparams body];
    cbn [registerNode definedIds definedFunctionId] in *;
    try (by eexists); try (by apply Hfunction).
  all: try (match goal with
            | |- ∃ L', defineStream _ ?t _ = _ =>
                destruct (Hstreams t) as [L' HL']; [by eexists|]
            end;
            rewrite forM_cons in HL'; cbn [forM] in HL';
            exists L'; rewrite <- HL';
            match goal with |- ?x = _ => by destruct x end).
  destruct (Hstreams (Some (Application o aid outs func sargs fargs)))
    as [L' HL']; [by eexists|].
  rewrite forM_fmap in HL'. by exists L'.
Qed.

Lemma collector_accepted oS oF params seen fseen vs L :
  Registered oS oF params seen fseen L →
  NoDup (seen ++ flat_map definedIds vs) →
  (∀ sid, sid ∈ flat_map definedIds vs → Env.has oS sid = false) →
  NoDup (fseen ++ omap definedFunctionId vs) →
  (∀ fid, fid ∈ omap definedFunctionId vs → Env.has oF fid = false) →
  ∃ L', forM registerNode vs L = Ok L'.
Proof.
  revert seen fseen L.
  induction vs as [|node vs IH]; intros seen fseen L HL Hnd Hfresh Hfnd Hffresh;
    [by eexists|].
  assert (Hsplit : omap definedFunctionId (node :: vs)
                   = option_list (definedFunctionId node)
                     ++ omap definedFunctionId vs).
  { cbn. by destruct (definedFunctionId node). }
  rewrite Hsplit in Hfnd, Hffresh. cbn [flat_map] in Hnd, Hfresh.
  rewrite app_assoc in Hnd, Hfnd.
  destruct (registerNode_accepted oS oF params seen fseen node L) as [L1 HL1];
    [done| | | | |].
  - by apply NoDup_app in Hnd as (? & _ & _).
  - intros sid Hsid. apply Hfresh. set_solver.
  - by apply NoDup_app in Hfnd as (? & _ & _).
  - intros fid Hfid. apply Hffresh. rewrite Hfid. cbn. set_solver.
  - rewrite forM_cons, HL1. cbn.
    eapply IH; [by eapply registerNode_registered|done| |done|].
    + intros sid Hsid. apply Hfresh. set_solver.
    + intros fid Hfid. apply Hffresh. set_solver.
Qed.

Lemma collectLocals_accepted sparams body oS oF :
  Registrable sparams body oS oF →
  ∃ L, collectLocals sparams body oS oF = Ok L.
Proof.
  intros (Hnd & Hfresh & Hfnd & Hffresh). unfold collectLocals.
  destruct (defineStreams_accepted oS oF sparams [] [] sparams None
              (freshLocals oS oF)) as [L0 HL0].
  - apply Registered_fresh.
  - done.
  - by apply NoDup_app in Hnd as (? & _ & _).
  - intros sid Hsid. apply Hfresh. unfold scopeStreamIds. set_solver.
  - rewrite HL0. cbn. rewrite collect_visited.
    eapply (collector_accepted oS oF sparams sparams []); [|done| |done|done].
    + eapply (defineStreams_registered oS oF sparams [] []) in HL0;
        [done|apply Registered_fresh|done].
    + intros sid Hsid. apply Hfresh. unfold scopeStreamIds. set_solver.
Qed.

Lemma defineFunction_throws fid node L e :
  defineFunction fid node L = Throw e → e = Error "must be unique".
Proof.
  unfold defineFunction. destruct (Env.has _ fid) eqn:Hhas; [by intros [= <-]|].
  by rewrite (Env_set_after_has _ _ _ Hhas).
Qed.

Lemma registerNode_throws node L e :
  registerNode node L = Throw e → e = Error "must be unique".
Proof.
  destruct node as [o sid|o sid v|o sid v|o sid v|o ref
                   |o aid outs func sargs fargs|idx expr|fid
                   |fid sparams fparams body]; cbn [registerNode]; try done;
    try (by intros [? _]%defineStream_throws);
    try apply defineFunction_throws.
  intros (before & out & after & K & _ & _ & [? _]%defineStream_throws)
    %forM_Throw_inv.
  done.
Qed.

Lemma collectLocals_throws sparams body oS oF e :
  collectLocals sparams body oS oF = Throw e → e = Error "must be unique".
Proof.
  unfold collectLocals.
  destruct (forM _ sparams _) as [L0|e0|] eqn:HL0; cbn; [| |done].
  - rewrite collect_visited.
    intros (before & node & after & K & _ & _ & ?%registerNode_throws)
      %forM_Throw_inv.
    done.
  - intros [= <-].
    apply forM_Throw_inv in HL0
      as (before & sid & after & K & _ & _ & [? _]%defineStream_throws).
    done.
Qed.

(** X1: the collector accepts a scope exactly when no stream id and no
    function id is registered twice and none of them is visible in the
    outer environments; it then holds the registered ids as the local ids.
    Otherwise it throws the error ['must be unique']. *)
Theorem collector_accepts_exactly (sparams : list StreamID) (body : list Node)
    (outerStreamEnvironment : CompilationStreamEnvironment)
    (outerFunctionEnvironment : CompilationFunctionEnvironment) :
  match collectLocals sparams body outerStreamEnvironment
          outerFunctionEnvironment with
  | Ok L =>
      Registrable sparams body outerStreamEnvironment outerFunctionEnvironment
      ∧ localStreamIds L = list_to_set (scopeStreamIds sparams body)
      ∧ localFunctionIds L = scopeFunctionIds body
  | Throw e =>
      e = Error "must be unique"
      ∧ ¬ Registrable sparams body outerStreamEnvironment
            outerFunctionEnvironment
  | OutOfFuel => False
  end.
Proof.
  destruct (collectLocals _ _ _ _) as [L|e|] eqn:Hrun.
  - apply collectLocals_registered in Hrun
      as [_ _ Hnd _ Hloc Hfresh _ Hfnd _ Hfloc Hffresh].
    by repeat split.
  - split; [by eapply collectLocals_throws|].
    intros [L HL]%collectLocals_accepted. congruence.
  - pose proof (collectLocals_terminated sparams body outerStreamEnvironment
                  outerFunctionEnvironment) as Hterm.
    by rewrite Hrun in Hterm.
Qed.

Lemma definedFunctionId_Some node fid :
  definedFunctionId node = Some fid ↔ functionExprId node = Ok fid.
Proof. destruct node; cbn; split; intros H; by simplify_eq. Qed.

Lemma elem_of_scopeFunctionIds body fid :
  fid ∈ scopeFunctionIds body
  ↔ ∃ node, node ∈ flat_map visited body ∧ definedFunctionId node = Some fid.
Proof. unfold scopeFunctionIds. by rewrite list_elem_of_omap. Qed.

Lemma elem_of_scopeStreamIds sparams body sid :
  sid ∈ scopeStreamIds sparams body
  ↔ sid ∈ sparams
    ∨ ∃ node, node ∈ flat_map visited body ∧ sid ∈ definedIds node.
Proof. unfold scopeStreamIds. by rewrite elem_of_app, elem_of_flat_map. Qed.

(** The bindings of a parameter in the frame of the collector. *)
Lemma collected_parameter sparams body oS oF L sid :
  collectLocals sparams body oS oF = Ok L →
  sid ∈ sparams ↔ Env.vars (streamEnvironment L) !! sid = Some None.
Proof.
  intros Hrun.
  pose proof (collectLocals_collected _ _ _ _ _ Hrun) as [_ _ [_ Hreg] _].
  pose proof (collectLocals_registered _ _ _ _ _ Hrun)
    as [_ _ Hnd Hdom _ _ Hpar _ _ _ _].
  split; [|by apply Hpar]. intros Hsid.
  assert (Hin : sid ∈ dom (Env.vars (streamEnvironment L)))
    by (rewrite Hdom; set_solver).
  apply elem_of_dom in Hin as [[n|] Hn]; [|done].
  apply Hreg in Hn as [Hn Hdef].
  apply NoDup_app in Hnd as (_ & Hdisj & _). destruct (Hdisj _ Hsid).
  apply elem_of_flat_map. by exists n.
Qed.

(** X2: after the collector has accepted a scope, a lookup in its stream
    environment gives [null] for a stream parameter, the defining node for
    a stream id defined by a visited node, and the binding of the outer
    environment for every other id; a lookup in its function environment
    gives the definition node for the id of a visited function definition
    and the binding of the outer environment for every other id. *)
Theorem collector_bindings (sparams : list StreamID) (body : list Node)
    (outerStreamEnvironment : CompilationStreamEnvironment)
    (outerFunctionEnvironment : CompilationFunctionEnvironment) (L : Locals) :
  collectLocals sparams body outerStreamEnvironment outerFunctionEnvironment
    = Ok L →
  (∀ sid, sid ∈ sparams → Env.get (streamEnvironment L) sid = Some None)
  ∧ (∀ node sid,
       node ∈ flat_map visited body → sid ∈ definedIds node →
       Env.get (streamEnvironment L) sid = Some (Some node))
  ∧ (∀ sid, sid ∉ scopeStreamIds sparams body →
            Env.get (streamEnvironment L) sid
            = Env.get outerStreamEnvironment sid)
  ∧ (∀ node fid,
       node ∈ flat_map visited body → definedFunctionId node = Some fid →
       Env.get (functionEnvironment L) fid = Some node)
  ∧ (∀ fid, fid ∉ scopeFunctionIds body →
            Env.get (functionEnvironment L) fid
            = Env.get outerFunctionEnvironment fid).
Proof.
  intros Hrun.
  pose proof (collectLocals_collected _ _ _ _ _ Hrun)
    as [HoS HoF [_ Hreg] (_ & _ & Hfreg)].
  pose proof (collectLocals_registered _ _ _ _ _ Hrun)
    as [_ _ _ Hdom _ _ _ _ Hfdom _ _].
  split_and!.
  - intros sid Hsid. apply Env_get_local.
    by apply (collected_parameter _ _ _ _ _ _ Hrun).
  - intros node sid Hnode Hsid. apply Env_get_local. by apply Hreg.
  - intros sid Hsid. rewrite Env_get_outer, HoS; [done|].
    apply not_elem_of_dom. rewrite Hdom. set_solver.
  - intros node fid Hnode Hfid. apply Env_get_local. apply Hfreg.
    split; [done|]. by apply definedFunctionId_Some.
  - intros fid Hfid. rewrite Env_get_outer, HoF; [done|].
    apply not_elem_of_dom. by rewrite <- Hfdom.
Qed.

Lemma collector_bindings_witness :
  ∃ L,
    collectLocals ["p"]
      [ NumberLiteral 1 "x" 3;
        Application 2 "A-1" [mkOut "y" None] "add" [StreamReference 3 "x"]
          [ TreeFunctionDefinition "g" [] [] [NumberLiteral 4 "z" 0] ] ]
      (Env.new None) (seededFunctionEnvironment globalFunctions) = Ok L
    ∧ Env.get (streamEnvironment L) "p" = Some None
    ∧ Env.get (streamEnvironment L) "x" = Some (Some (NumberLiteral 1 "x" 3))
    ∧ Env.get (streamEnvironment L) "z" = None
    ∧ Env.get (functionEnvironment L) "g"
      = Some (TreeFunctionDefinition "g" [] [] [NumberLiteral 4 "z" 0])
    ∧ Env.get (functionEnvironment L) "add" = Some nativeAdd.
Proof.
  eexists. split; [vm_compute; reflexivity|].
  edestruct (collector_bindings ["p"]
      [ NumberLiteral 1 "x" 3;
        Application 2 "A-1" [mkOut "y" None] "add" [StreamReference 3 "x"]
          [ TreeFunctionDefinition "g" [] [] [NumberLiteral 4 "z" 0] ] ]
      (Env.new None) (seededFunctionEnvironment globalFunctions))
    as (Hp & Hx & Hz & Hg & Hadd); [vm_compute; reflexivity|].
  split_and!.
  - apply Hp. by left.
  - apply (Hx (NumberLiteral 1 "x" 3)); [by left|by left].
  - rewrite Hz; [reflexivity|]. vm_compute. set_solver.
  - apply Hg; [|reflexivity]. vm_compute. set_solver.
  - rewrite Hadd; [reflexivity|]. vm_compute. set_solver.
Defined.

(** ** Single assignment *)

Lemma NoDup_submseteq_inv {A} (l k : list A) : l ⊆+ k → NoDup k → NoDup l.
Proof.
  intros [k' Hk]%submseteq_Permutation. rewrite Hk.
  by intros (? & _ & _)%NoDup_app.
Qed.

Lemma flat_map_bind {A B} (f : A → list B) (l : list A) : flat_map f l = l ≫= f.
Proof. induction l as [|x l IH]; [done|]. cbn. by rewrite IH. Qed.

(** The ids of the specs emitted for the nodes of [order] are the ids
    these nodes define. *)
Lemma emitted_ids (order : list Node) :
  (CompiledDef.sid <$> omap constSpecOf order)
  ++ flat_map CompiledDef.sids (omap appSpecOf order)
  ≡ₚ flat_map definedIds order.
Proof.
  induction order as [|node order IH]; [done|].
  destruct node as [o sid|o sid v|o sid v|o sid v|o ref
                   |o aid outs func sargs fargs|idx expr|fid
                   |fid sparams fparams body]; cbn; try by rewrite IH.
  rewrite <- IH.
  by rewrite !app_assoc, (Permutation_app_comm _ (out_sid <$> outs)).
Qed.

Lemma resolved_defined_ids L N order st sparams :
  Resolved L N order st → NoDup (sparams ++ flat_map definedIds N) →
  NoDup (sparams ++ (CompiledDef.sid <$> constStreams st)
           ++ flat_map CompiledDef.sids (apps st))
  ∧ ∀ sid, sid ∈ (CompiledDef.sid <$> constStreams st)
                   ++ flat_map CompiledDef.sids (apps st) →
           sid ∈ flat_map definedIds N.
Proof.
  intros [Hp Hnd Hsc Hc Ha Hd Hdep] HN.
  assert (Hsub : flat_map definedIds order ⊆+ flat_map definedIds N).
  { rewrite !flat_map_bind. apply bind_submseteq.
    apply NoDup_submseteq; [by eapply NoDup_fmap_1|].
    intros x Hx. by apply Hsc. }
  rewrite Hc, Ha, emitted_ids. split.
  - eapply NoDup_submseteq_inv; [|exact HN]. by apply submseteq_app.
  - intros sid Hsid. rewrite emitted_ids in Hsid.
    eapply elem_of_submseteq; [exact Hsid|exact Hsub].
Qed.

(** X3: a compiled definition assigns each stream id once: the ids of its
    stream parameters, of its constant streams and of the outputs of its
    applications are pairwise distinct, none of them is visible in the
    outer stream environment, and none is among the external references
    returned with the definition. *)
Theorem compiled_single_assignment (fuel : nat) (definition : Node)
    (outerStreamEnvironment : CompilationStreamEnvironment)
    (outerFunctionEnvironment : CompilationFunctionEnvironment)
    (cd : CompiledDefinition) (ext : gset StreamID) :
  compileTreeDefinition fuel definition outerStreamEnvironment
    outerFunctionEnvironment = Ok (cd, ext) →
  NoDup (definedStreamIds cd)
  ∧ ∀ sid, sid ∈ definedStreamIds cd →
           Env.has outerStreamEnvironment sid = false ∧ sid ∉ ext.
Proof.
  intros Hrun.
  assert (Hext : ∀ ref, ref ∈ ext → Env.has outerStreamEnvironment ref = true)
    by (intros ref; by eapply compile_external_closed).
  destruct fuel as [|fuel]; [done|].
  apply compile_Ok_inv in Hrun
    as (fid & sparams & fparams & body & L & localDefs & st & ->
        & HL & _ & Hst & -> & ->).
  pose proof (collectLocals_collected _ _ _ _ _ HL) as Hcol.
  pose proof (collected_scope _ _ _ _ Hcol) as HN.
  destruct (body_resolved _ _ _ _ HN Hst) as [order Hres].
  pose proof (collectLocals_registered _ _ _ _ _ HL)
    as [_ _ Hnd _ _ Hfresh _ _ _ _ _].
  destruct (resolved_defined_ids _ _ _ _ sparams Hres Hnd) as [Hnd' Hsub].
  unfold definedStreamIds. cbn. split; [done|].
  assert (Hvis : ∀ sid,
            sid ∈ sparams ++ (CompiledDef.sid <$> constStreams st)
                  ++ flat_map CompiledDef.sids (apps st) →
            Env.has outerStreamEnvironment sid = false).
  { intros sid [Hsid|Hsid]%elem_of_app; apply Hfresh; [set_solver|].
    apply elem_of_app. right. by apply Hsub. }
  intros sid Hsid. split; [by apply Hvis|].
  intros Hin. apply Hext in Hin. rewrite (Hvis sid Hsid) in Hin. done.
Qed.

Lemma compiled_single_assignment_witness :
  ∃ cd ext,
    compileTreeDefinition 8 multiOutput (Env.new None)
      (seededFunctionEnvironment globalFunctions) = Ok (cd, ext)
    ∧ definedStreamIds cd = ["x"; "p"; "q"; "r"]
    ∧ NoDup (definedStreamIds cd)
    ∧ ∀ sid, sid ∈ definedStreamIds cd →
             Env.has (Env.new None : CompilationStreamEnvironment) sid = false
             ∧ sid ∉ ext.
Proof.
  eexists _, _. split; [vm_compute; reflexivity|]. split; [reflexivity|].
  apply (compiled_single_assignment 8 multiOutput (Env.new None)
           (seededFunctionEnvironment globalFunctions)).
  vm_compute; reflexivity.
Defined.

(** ** The yield ids *)

Lemma length_arraySet {A} (xs : list (option A)) i x :
  length (arraySet xs i x) = length xs `max` S i.
Proof.
  unfold arraySet. case_decide as Hlt.
  - rewrite length_insert. lia.
  - rewrite !length_app, length_replicate. cbn. lia.
Qed.

Lemma lookup_arraySet {A} (xs : list (option A)) i x j :
  j < length (arraySet xs i x) →
  arraySet xs i x !! j
  = if decide (j = i) then Some (Some x)
    else if decide (j < length xs) then xs !! j else Some None.
Proof.
  rewrite length_arraySet. intros Hj. unfold arraySet.
  case_decide as Hlt.
  - destruct (decide (j = i)) as [->|Hne].
    + by rewrite list_lookup_insert_eq.
    + rewrite list_lookup_insert_ne by done.
      rewrite decide_True by lia. done.
  - destruct (decide (j < length xs)) as [Hin|Hout].
    + rewrite lookup_app_l by done. by rewrite decide_False by lia.
    + rewrite lookup_app_r by lia.
      destruct (decide (j = i)) as [->|Hne].
      * rewrite list_lookup_middle; [done|]. by rewrite length_replicate.
      * rewrite lookup_app_l by (rewrite length_replicate; lia).
        apply lookup_replicate_2. lia.
Qed.

Lemma max_list_snoc (ns : list nat) n : max_list (ns ++ [n]) = max_list ns `max` n.
Proof. induction ns as [|m ns IH]; cbn; [lia|]. rewrite IH. lia. Qed.

(** The entries of the body the loop has gone through determine the
    array of yield ids. *)
Lemma body_yields L fuel body st :
  forM (bodyStep L fuel) body initialState = Ok st →
  length (yieldIds st) = max_list (S <$> omap yieldIndex body)
  ∧ ∀ i, i < length (yieldIds st) →
         yieldIds st !! i = Some (last (omap (yieldAt i) body)).
Proof.
  apply (forM_prefix_invariant
           (λ pre s,
              length (yieldIds s) = max_list (S <$> omap yieldIndex pre)
              ∧ ∀ i, i < length (yieldIds s) →
                     yieldIds s !! i = Some (last (omap (yieldAt i) pre))));
    [|split; [done|cbn; intros; lia]].
  intros pre entry post s s' _ [Hlen Hget]
    [(idx & expr & sid & s1 & -> & Hrun & Hret & _ & ->)|[Hstream Hrun]]
    %bodyStep_Ok_inv;
    apply traverse_framed in Hrun as [[_ _ _ Hy _] _].
  - cbn [yieldIds setYield]. rewrite Hy.
    rewrite length_arraySet, !omap_app, fmap_app. cbn.
    rewrite max_list_snoc, <- Hlen. split; [done|].
    intros i Hi. rewrite lookup_arraySet by (by rewrite length_arraySet).
    rewrite omap_app. cbn. unfold returnedId. rewrite Hret.
    destruct (decide (idx = i)) as [->|Hne].
    + rewrite decide_True by done. by rewrite last_snoc.
    + rewrite decide_False by done. cbn. rewrite app_nil_r.
      case_decide as Hin; [by apply Hget|].
      rewrite Hlen in Hin. do 2 f_equal. symmetry.
      destruct (last _) as [sid'|] eqn:Hlast; [|done].
      apply last_Some in Hlast as [l' Hl']. destruct Hin.
      assert (Hidx : i ∈ omap yieldIndex pre).
      { assert (Hsid : sid' ∈ omap (yieldAt i) pre) by (rewrite Hl'; set_solver).
        apply list_elem_of_omap in Hsid as (e & He & Hat).
        apply list_elem_of_omap. exists e. split; [done|].
        destruct e; try done. cbn in *. by case_decide; simplify_eq. }
      apply (max_list_elem_of_le (S i)).
      apply list_elem_of_fmap.
      exists i. split; [done|]. done.
  - rewrite Hy, !omap_app.
    assert (Hnone : yieldIndex entry = None ∧ ∀ i, yieldAt i entry = None)
      by (by destruct entry).
    destruct Hnone as [Hidx Hat]. cbn. rewrite Hidx. cbn. rewrite app_nil_r.
    split; [done|]. intros i Hi. rewrite omap_app. cbn. rewrite Hat. cbn.
    rewrite app_nil_r. by apply Hget.
Qed.

(** X4: the yield ids of a compiled definition, when every output index
    yielded in the body is an array index: the array is as long as the
    largest output index yielded in the body requires, position [i] holds
    the id returned by the expression of the last body entry that yields at
    index [i], and it is a hole when no entry yields at [i]. *)
Theorem yield_ids_by_index (fuel : nat) (fid : FunctionID)
    (sparams : list StreamID) (fparams : list FunctionID) (body : list Node)
    (outerStreamEnvironment : CompilationStreamEnvironment)
    (outerFunctionEnvironment : CompilationFunctionEnvironment)
    (cd : CompiledDefinition) (ext : gset StreamID) :
  forallb isArrayIndex (omap yieldIndex body) = true →
  compileTreeDefinition fuel
    (TreeFunctionDefinition fid sparams fparams body)
    outerStreamEnvironment outerFunctionEnvironment = Ok (cd, ext) →
  length (CompiledDef.yieldIds cd) = max_list (S <$> omap yieldIndex body)
  ∧ ∀ i, i < length (CompiledDef.yieldIds cd) →
         CompiledDef.yieldIds cd !! i = Some (last (omap (yieldAt i) body)).
Proof.
  intros _. destruct fuel as [|fuel]; [done|].
  intros (fid0 & sparams0 & fparams0 & body0 & L & localDefs & st
          & [= <- <- <- <-] & _ & _ & Hst & -> & _)%compile_Ok_inv.
  cbn. by eapply body_yields.
Qed.

Lemma yield_ids_by_index_witness :
  ∃ cd ext,
    forallb isArrayIndex [2; 0; 2] = true
    ∧ compileTreeDefinition 5 repeatedYield (Env.new None)
      (seededFunctionEnvironment globalFunctions) = Ok (cd, ext)
    ∧ CompiledDef.yieldIds cd = [Some "b"; None; Some "b"]
    ∧ length (CompiledDef.yieldIds cd)
      = max_list (S <$> omap yieldIndex
                          [ YieldExpression 2 (NumberLiteral 1 "a" 1);
                            YieldExpression 0 (NumberLiteral 2 "b" 2);
                            YieldExpression 2 (StreamReference 3 "b") ])
    ∧ ∀ i, i < length (CompiledDef.yieldIds cd) →
           CompiledDef.yieldIds cd !! i
           = Some (last (omap (yieldAt i)
                           [ YieldExpression 2 (NumberLiteral 1 "a" 1);
                             YieldExpression 0 (NumberLiteral 2 "b" 2);
                             YieldExpression 2 (StreamReference 3 "b") ])).
Proof.
  eexists _, _. split; [reflexivity|].
  split; [vm_compute; reflexivity|]. split; [reflexivity|].
  eapply (yield_ids_by_index 5 "main" [] [] _ (Env.new None)
           (seededFunctionEnvironment globalFunctions)).
  - reflexivity.
  - vm_compute; reflexivity.
Defined.

(** ** The resolver: what a call adds *)

(** A call that returns has only appended to the constant specs and to
    the application specs, and only added to the external references. *)
Lemma traverse_grows L fuel node st st' :
  traverseStreamExpr L fuel node st = Ok st' →
  constStreams st `prefix_of` constStreams st'
  ∧ apps st `prefix_of` apps st'
  ∧ externalReferencedStreamIds st ⊆ externalReferencedStreamIds st'.
Proof.
  revert node st st'. induction fuel as [|fuel IH]; intros node st st' Hrun;
    [done|].
  apply traverse_Ok_inv in Hrun.
  traverse_cases Hrun; cbn.
  - done.
  - split_and!; [by apply prefix_app_r|done|done].
  - done.
  - by apply IH in Hrun.
  - split_and!; [done|done|set_solver].
  - assert (Hloop : constStreams st `prefix_of` constStreams st1
                    ∧ apps st `prefix_of` apps st1
                    ∧ externalReferencedStreamIds st
                      ⊆ externalReferencedStreamIds st1).
    { eapply (sargs_invariant
                (λ s, constStreams st `prefix_of` constStreams s
                      ∧ apps st `prefix_of` apps s
                      ∧ externalReferencedStreamIds st
                        ⊆ externalReferencedStreamIds s));
        [| |exact Hsargs]; [|done].
      intros x s s' _ (Hc & Ha & He) (Hc' & Ha' & He')%IH.
      split_and!; [by etrans|by etrans|set_solver]. }
    destruct Hloop as (Hc & Ha & He).
    split_and!; [done|by apply prefix_app_r|done].
Qed.

(** X5: a call of the resolver that returns has left the temporary marks as
    it found them, has kept the permanent marks and added the one of its
    node, has left the yield ids alone, has only appended to the constant
    specs and to the application specs, and has only added to the external
    references. *)
Theorem resolver_call_effects (L : Locals) (fuel : nat) (node : Node)
    (st st' : CompileState) :
  traverseStreamExpr L fuel node st = Ok st' →
  temporaryMarked st' = temporaryMarked st
  ∧ permanentMarked st ⊆ permanentMarked st'
  ∧ marked (permanentMarked st') node = true
  ∧ yieldIds st' = yieldIds st
  ∧ constStreams st `prefix_of` constStreams st'
  ∧ apps st `prefix_of` apps st'
  ∧ externalReferencedStreamIds st ⊆ externalReferencedStreamIds st'.
Proof.
  intros Hrun.
  destruct (traverse_Ok_nodeId _ _ _ _ _ Hrun) as [o Ho].
  pose proof (traverse_framed _ _ _ _ _ Hrun) as [[Ht Hp _ Hy _] Hmark].
  pose proof (traverse_grows _ _ _ _ _ Hrun) as (Hc & Ha & He).
  split_and!; try done. apply (marked_true _ _ o); auto.
Qed.

Lemma resolver_call_effects_witness :
  let st' := permanentAdd 7 (addExternal "x" initialState) in
  traverseStreamExpr shadowingLocals 1 (StreamReference 7 "x") initialState
    = Ok st'
  ∧ temporaryMarked st' = temporaryMarked initialState
  ∧ permanentMarked initialState ⊆ permanentMarked st'
  ∧ marked (permanentMarked st') (StreamReference 7 "x") = true
  ∧ yieldIds st' = yieldIds initialState
  ∧ constStreams initialState `prefix_of` constStreams st'
  ∧ apps initialState `prefix_of` apps st'
  ∧ externalReferencedStreamIds initialState
    ⊆ externalReferencedStreamIds st'.
Proof.
  split; [vm_compute; reflexivity|].
  apply (resolver_call_effects shadowingLocals 1 (StreamReference 7 "x")).
  vm_compute; reflexivity.
Defined.

(** X6: resolution is idempotent: a call that has returned, made again in
    the state it returned, returns that state unchanged. *)
Theorem resolver_call_idempotent (L : Locals) (fuel : nat) (node : Node)
    (st st' : CompileState) :
  traverseStreamExpr L fuel node st = Ok st' →
  traverseStreamExpr L fuel node st' = Ok st'.
Proof.
  intros Hrun. destruct fuel as [|fuel]; [done|].
  destruct (traverse_Ok_nodeId _ _ _ _ _ Hrun) as [o Ho].
  apply traverse_framed in Hrun as [_ Hmark].
  apply traverse_permanent_marked. apply (marked_true _ _ o); auto.
Qed.

Lemma resolver_call_idempotent_witness :
  ∃ st',
    traverseStreamExpr shadowingLocals 1 (StreamReference 7 "x") initialState
      = Ok st'
    ∧ traverseStreamExpr shadowingLocals 1 (StreamReference 7 "x") st' = Ok st'.
Proof.
  eexists. split; [vm_compute; reflexivity|].
  apply (resolver_call_idempotent shadowingLocals 1 (StreamReference 7 "x")
           initialState).
  vm_compute; reflexivity.
Defined.

(** ** The resolver: every marked node has been processed *)

Lemma Processed_mono L st st' node :
  permanentMarked st ⊆ permanentMarked st' →
  externalReferencedStreamIds st ⊆ externalReferencedStreamIds st' →
  Processed L st node → Processed L st' node.
Proof.
  intros Hp He. destruct node as [| | | |o ref|o aid outs func sargs fargs| | |];
    cbn; try done.
  - case_bool_decide.
    + intros [?|(target & ot & ? & ? & ?)]; [by left|right].
      exists target, ot. split_and!; [done..|]. by apply Hp.
    + intros [? ?]. split; [done|]. by apply He.
  - intros (Hf & Hs & Hfs). split_and!; [done| |done].
    intros x Hx. destruct (Hs x Hx) as (ox & sid & ? & ? & ? & ?).
    exists ox, sid. split_and!; [done| |done..]. by apply Hp.
Qed.

Lemma Complete_same L N st st' :
  permanentMarked st' = permanentMarked st →
  externalReferencedStreamIds st' = externalReferencedStreamIds st →
  Complete L N st → Complete L N st'.
Proof.
  intros Hp He [Hproc Hext]. split.
  - intros node o Hnode Ho Hin. rewrite Hp in Hin.
    eapply Processed_mono; [| |by eapply Hproc]; [by rewrite Hp|by rewrite He].
  - intros ref Href. rewrite He in Href. by apply Hext.
Qed.

(** The state when one more node of the scope has been processed and
    permanent-marked. *)
Lemma Complete_finish L N st st' node o :
  IdentityCoherent N → Complete L N st → node ∈ N → nodeId node = Some o →
  permanentMarked st' = {[ o ]} ∪ permanentMarked st →
  externalReferencedStreamIds st ⊆ externalReferencedStreamIds st' →
  (∀ ref, ref ∈ externalReferencedStreamIds st' →
          ref ∈ externalReferencedStreamIds st
          ∨ ((ref ∉ localStreamIds L) ∧ ∃ o', StreamReference o' ref ∈ N)) →
  Processed L st' node →
  Complete L N st'.
Proof.
  intros Hcoh [Hproc Hext] Hnode Ho Hp He Hnew Hdone. split.
  - intros node' o' Hnode' Ho' Hin. rewrite Hp in Hin.
    destruct (decide (o' = o)) as [->|Hne].
    + by rewrite (Hcoh node' node o).
    + eapply Processed_mono; [| |eapply Hproc]; [|done..|set_solver].
      rewrite Hp. set_solver.
  - intros ref Href. destruct (Hnew ref Href) as [Hold|?]; [|done].
    by apply Hext.
Qed.

Lemma fargs_bound L fargs acc fids :
  forM (fargStep L) fargs acc = Ok fids →
  ∀ x, x ∈ fargs →
       ∃ fid, functionExprId x = Ok fid
              ∧ is_Some (Env.get (functionEnvironment L) fid).
Proof.
  revert acc. induction fargs as [|y ys IH]; intros acc Hrun x Hx;
    [by apply elem_of_nil in Hx|].
  rewrite forM_cons in Hrun. apply bind_Ok in Hrun as (acc' & Hy & Hrest).
  apply elem_of_cons in Hx as [->|Hx]; [|by eapply IH].
  unfold fargStep in Hy. apply bind_Ok in Hy as (fid & Hfid & Hy).
  exists fid. split; [done|]. by destruct (Env.get _ fid).
Qed.

Lemma traverse_complete L N fuel node st st' :
  Scope L N → IdentityCoherent N → node ∈ N → Complete L N st →
  traverseStreamExpr L fuel node st = Ok st' →
  Complete L N st'.
Proof.
  intros HN Hcoh. revert node st st'.
  induction fuel as [|fuel IH]; intros node st st' Hnode Hcmp Hrun; [done|].
  apply traverse_Ok_inv in Hrun.
  traverse_cases Hrun.
  - done.
  - apply (marked_false _ _ o) in Hperm, Htemp; [|done..].
    eapply (Complete_finish L N st _ node o);
      [done|done|done|done|reflexivity|cbn; set_solver|cbn; auto|].
    by destruct node.
  - eapply (Complete_finish L N st _ (StreamReference o ref) o);
      [done|done|done|done|reflexivity|cbn; set_solver|cbn; auto|].
    cbn. rewrite bool_decide_eq_true_2 by done. by left.
  - destruct (scope_target _ _ HN ref target Hlocal Hget) as [Htarget _].
    pose proof (traverse_framed _ _ _ _ _ Hrun) as [_ Hmark].
    destruct (traverse_Ok_nodeId _ _ _ _ _ Hrun) as [ot Hot].
    apply IH in Hrun;
      [|done|by eapply Complete_same; [| |exact Hcmp]].
    eapply (Complete_finish L N st1 _ (StreamReference o ref) o);
      [done|done|done|done|reflexivity|cbn; set_solver|cbn; auto|].
    cbn. rewrite bool_decide_eq_true_2 by done. right. exists target, ot.
    split_and!; [done..|]. apply elem_of_union. right. by apply Hmark.
  - eapply (Complete_finish L N st _ (StreamReference o ref) o);
      [done|done|done|done|reflexivity|cbn..].
    + set_solver.
    + intros ref' [->%elem_of_singleton|?]%elem_of_union; [right|by left].
      split; [done|]. by exists o.
    + rewrite bool_decide_eq_false_2 by done. split; [done|set_solver].
  - set (node := Application o aid outs func sargs fargs) in *.
    pose (P := λ (pre : list Node) (acc : CompileState * list StreamID),
            Complete L N acc.1
            ∧ ∀ x, x ∈ pre →
                   ∃ ox sid, nodeId x = Some ox ∧ ox ∈ permanentMarked acc.1
                             ∧ streamExprReturnedId x = Ok (Some sid)
                             ∧ sid ≠ EmptyString).
    assert (HP : P sargs (st1, ids)).
    { eapply (forM_prefix_invariant P); [| |exact Hsargs].
      - intros pre x post [s l] [s' l'] Hsplit [Hcmp1 Hpre]
          (sid & Hx & Hret & Hsid & ->)%sargStep_Ok_inv. cbn in *.
        assert (Hxin : x ∈ N).
        { eapply (scope_sargs _ _ HN); [exact Hnode|].
          rewrite Hsplit. set_solver. }
        pose proof (traverse_framed _ _ _ _ _ Hx) as [[_ Hp _ _ _] Hmark].
        destruct (traverse_Ok_nodeId _ _ _ _ _ Hx) as [ox Hox].
        apply IH in Hx; [|done..]. split; [done|].
        intros y [Hy| ->%list_elem_of_singleton]%elem_of_app.
        + destruct (Hpre y Hy) as (oy & sy & ? & ? & ? & ?).
          exists oy, sy. split_and!; [done| |done..]. by apply Hp.
        + exists ox, sid. split_and!; [done| |done..]. by apply Hmark.
      - split; cbn; [by eapply Complete_same; [| |exact Hcmp]|].
        intros x Hx. by apply elem_of_nil in Hx. }
    destruct HP as [Hcmp1 Hpre]. cbn in Hcmp1, Hpre.
    eapply (Complete_finish L N st1 _ node o);
      [done|done|done|done|reflexivity|cbn; set_solver|cbn; auto|].
    cbn. split_and!; [by eexists| |by eapply fargs_bound].
    intros x Hx. destruct (Hpre x Hx) as (ox & sid & ? & ? & ? & ?).
    exists ox, sid. split_and!; [done| |done..]. set_solver.
Qed.

Lemma Complete_initial L N : Complete L N initialState.
Proof. split; cbn; [intros ? ? _ _ ?|intros ? ?]; set_solver. Qed.

(** When the body loop has returned, the resolver state is complete and
    the expression of every body entry is permanent-marked; the expression
    of a yield has a returned id. *)
Lemma body_complete L fuel body st :
  Scope L (flat_map visited body) → IdentityCoherent (flat_map visited body) →
  forM (bodyStep L fuel) body initialState = Ok st →
  Complete L (flat_map visited body) st
  ∧ ∀ entry, entry ∈ body →
      ∃ expr o,
        entryExpression entry = Some expr ∧ nodeId expr = Some o
        ∧ o ∈ permanentMarked st
        ∧ ∀ idx e, entry = YieldExpression idx e →
                   ∃ sid, streamExprReturnedId e = Ok (Some sid)
                          ∧ sid ≠ EmptyString.
Proof.
  intros HN Hcoh Hrun.
  pose (P := λ (pre : list Node) (s : CompileState),
          Complete L (flat_map visited body) s
          ∧ ∀ entry, entry ∈ pre →
              ∃ expr o,
                entryExpression entry = Some expr ∧ nodeId expr = Some o
                ∧ o ∈ permanentMarked s
                ∧ ∀ idx e, entry = YieldExpression idx e →
                           ∃ sid, streamExprReturnedId e = Ok (Some sid)
                                  ∧ sid ≠ EmptyString).
  apply (forM_prefix_invariant P) in Hrun; [done| |].
  - intros pre entry post s s' Hsplit [Hcmp Hpre] Hstep.
    assert (Hentry : entry ∈ body) by (rewrite Hsplit; set_solver).
    assert (Hkeep : ∀ s1, permanentMarked s ⊆ permanentMarked s1 →
              ∀ y, y ∈ pre →
                ∃ expr o,
                  entryExpression y = Some expr ∧ nodeId expr = Some o
                  ∧ o ∈ permanentMarked s1
                  ∧ ∀ idx e, y = YieldExpression idx e →
                             ∃ sid, streamExprReturnedId e = Ok (Some sid)
                                    ∧ sid ≠ EmptyString).
    { intros s1 Hp y Hy. destruct (Hpre y Hy) as (expr & o & ? & ? & ? & ?).
      exists expr, o. split_and!; [done..| |done]. by apply Hp. }
    apply bodyStep_Ok_inv in Hstep
      as [(idx & expr & sid & s1 & -> & Hx & Hret & Hsid & ->)|[Hstream Hx]].
    + pose proof (traverse_framed _ _ _ _ _ Hx) as [[_ Hp _ _ _] Hmark].
      destruct (traverse_Ok_nodeId _ _ _ _ _ Hx) as [o Ho].
      apply (traverse_complete L (flat_map visited body)) in Hx;
        [|done|done| |done].
      * split; [by eapply Complete_same; [| |exact Hx]|].
        intros y [Hy| ->%list_elem_of_singleton]%elem_of_app;
          [by apply (Hkeep s1)|].
        exists expr, o. split_and!; [done|done|by apply Hmark|].
        intros idx' e [= <- <-]. by exists sid.
      * eapply body_entry_visited; [done|]. right. by eexists.
    + pose proof (traverse_framed _ _ _ _ _ Hx) as [[_ Hp _ _ _] Hmark].
      destruct (traverse_Ok_nodeId _ _ _ _ _ Hx) as [o Ho].
      apply (traverse_complete L (flat_map visited body)) in Hx;
        [|done|done| |done].
      * split; [done|].
        intros y [Hy| ->%list_elem_of_singleton]%elem_of_app;
          [by apply (Hkeep s')|].
        exists entry, o. split_and!; [|done|by apply Hmark|].
        -- unfold entryExpression. rewrite Hstream. by destruct entry.
        -- intros idx' e ->. done.
      * eapply body_entry_visited; [done|]. by left.
  - split; [apply Complete_initial|].
    intros entry Hentry. by apply elem_of_nil in Hentry.
Qed.

(** Every node reached from a processed node is permanent-marked. *)
Lemma visited_marked L N st root :
  Scope L N → Complete L N st →
  ∀ o, root ∈ N → nodeId root = Some o → o ∈ permanentMarked st →
  ∀ x ox, x ∈ visited root → nodeId x = Some ox → ox ∈ permanentMarked st.
Proof.
  intros HN Hcmp.
  induction root as [o sid|o sid v|o sid v|o sid v|o ref
                    |o aid outs func sargs fargs IHs IHf|idx expr IH|fid
                    |fid sparams fparams body IH] using Node_nested_ind;
    intros o' Hroot Ho' Hmark x ox Hx Hox; cbn in Hx, Ho';
    try (apply list_elem_of_singleton in Hx as ->; cbn in Hox; by simplify_eq);
    try done.
  destruct (cmp_processed _ _ _ Hcmp _ _ Hroot Ho' Hmark) as (_ & Hs & Hfs).
  apply elem_of_cons in Hx as [->|[Hx|Hx]%elem_of_app];
    [cbn in Hox; by simplify_eq| |].
  - apply elem_of_flat_map in Hx as (s & Hs_in & Hx).
    destruct (Hs s Hs_in) as (os & sid & Hos & Hmarked & _).
    rewrite Forall_forall in IHs.
    eapply (IHs s); [done|by eapply (scope_sargs _ _ HN)|done..].
  - apply elem_of_flat_map in Hx as (f & Hf_in & Hx).
    destruct (Hfs f Hf_in) as (fid & Hfid & _).
    destruct f; try done; cbn in Hx;
      apply list_elem_of_singleton in Hx as ->; done.
Qed.

Lemma entryExpression_inv entry expr :
  entryExpression entry = Some expr →
  entry = expr ∨ ∃ idx, entry = YieldExpression idx expr.
Proof.
  destruct entry; cbn [entryExpression];
    try (destruct (isStreamExpressionNode _); intros [= <-]; by left).
  intros [= <-]. right. by eexists.
Qed.

(** When the body loop has returned, every stream-expression node of the
    scope is permanent-marked. *)
Lemma scope_marked L fuel body st x o :
  Scope L (flat_map visited body) → IdentityCoherent (flat_map visited body) →
  forM (bodyStep L fuel) body initialState = Ok st →
  x ∈ flat_map visited body → nodeId x = Some o → o ∈ permanentMarked st.
Proof.
  intros HN Hcoh Hrun (entry & Hentry & Hx)%elem_of_flat_map Ho.
  destruct (body_complete _ _ _ _ HN Hcoh Hrun) as [Hcmp Hentries].
  destruct (Hentries entry Hentry) as (expr & oe & Hexpr & Hoe & Hmark & _).
  assert (Hin : expr ∈ flat_map visited body).
  { eapply body_entry_visited; [done|]. by apply entryExpression_inv. }
  assert (Hx' : x ∈ visited expr).
  { apply entryExpression_inv in Hexpr as [->|[idx ->]]; [done|].
    cbn in Hx. by apply elem_of_cons in Hx as [->|Hx]. }
  by eapply (visited_marked L _ st expr).
Qed.

(** ** External references, exactly *)

Lemma elem_of_referencedIds nodes ref :
  ref ∈ referencedIds nodes ↔ ∃ o, StreamReference o ref ∈ nodes.
Proof.
  unfold referencedIds. rewrite list_elem_of_omap. split.
  - intros (node & Hnode & Href). destruct node; simplify_eq. by eexists.
  - intros [o Ho]. by exists (StreamReference o ref).
Qed.

(** X7: when distinct node objects of the scope have distinct identities, the
    external references returned with a compiled definition are exactly
    the stream ids that a reference node of the scope refers to and that
    the scope does not define; each of them is visible in the outer stream
    environment. *)
Theorem external_references_exact (fuel : nat) (fid : FunctionID)
    (sparams : list StreamID) (fparams : list FunctionID) (body : list Node)
    (outerStreamEnvironment : CompilationStreamEnvironment)
    (outerFunctionEnvironment : CompilationFunctionEnvironment)
    (cd : CompiledDefinition) (ext : gset StreamID) :
  compileTreeDefinition fuel
    (TreeFunctionDefinition fid sparams fparams body)
    outerStreamEnvironment outerFunctionEnvironment = Ok (cd, ext) →
  IdentityCoherent (flat_map visited body) →
  ∀ ref,
    (ref ∈ ext ↔ ref ∈ referencedIds (flat_map visited body)
                 ∧ ref ∉ scopeStreamIds sparams body)
    ∧ (ref ∈ ext → Env.has outerStreamEnvironment ref = true).
Proof.
  intros Hrun Hcoh ref.
  split; [|by eapply compile_external_closed].
  destruct fuel as [|fuel]; [done|].
  apply compile_Ok_inv in Hrun
    as (fid0 & sparams0 & fparams0 & body0 & L & localDefs & st
        & [= <- <- <- <-] & HL & _ & Hst & -> & ->).
  pose proof (collectLocals_collected _ _ _ _ _ HL) as Hcol.
  pose proof (collected_scope _ _ _ _ Hcol) as HN.
  pose proof (collectLocals_registered _ _ _ _ _ HL)
    as [_ _ _ _ Hloc _ _ _ _ _ _].
  destruct (body_complete _ _ _ _ HN Hcoh Hst) as [Hcmp _].
  assert (Hlocal : ref ∈ localStreamIds L ↔ ref ∈ scopeStreamIds sparams body).
  { rewrite Hloc. apply elem_of_list_to_set. }
  rewrite <- Hlocal, elem_of_referencedIds. split.
  - intros [Hnot Hnode]%(cmp_external _ _ _ Hcmp). done.
  - intros [[o Hnode] Hnot].
    assert (Hmark : o ∈ permanentMarked st) by by eapply scope_marked.
    pose proof (cmp_processed _ _ _ Hcmp _ o Hnode eq_refl Hmark) as Hdone.
    cbn in Hdone. rewrite bool_decide_eq_false_2 in Hdone by done.
    by destruct Hdone.
Qed.

Lemma external_references_exact_witness :
  ∃ cd ext,
    compileTreeDefinition 4 innerFunction enclosingStreams
      (seededFunctionEnvironment globalFunctions) = Ok (cd, ext)
    ∧ elements ext = ["x"]
    ∧ ∀ ref,
        (ref ∈ ext
         ↔ ref ∈ referencedIds
                   (flat_map visited
                      [ YieldExpression 0 (StreamReference 4 "x");
                        StreamReference 5 "p" ])
           ∧ ref ∉ scopeStreamIds ["p"]
                     [ YieldExpression 0 (StreamReference 4 "x");
                       StreamReference 5 "p" ])
        ∧ (ref ∈ ext → Env.has enclosingStreams ref = true).
Proof.
  eexists _, _. split; [vm_compute; reflexivity|]. split; [reflexivity|].
  eapply (external_references_exact 4 "g" ["p"] [] _ enclosingStreams
            (seededFunctionEnvironment globalFunctions)).
  - vm_compute; reflexivity.
  - apply NoDup_identity_coherent. vm_compute.
    repeat (apply NoDup_cons_2; [set_solver|]). apply NoDup_nil_2.
Defined.

(** ** The compiled graph is closed *)

Lemma marked_in_order L N order st x o :
  IdentityCoherent N → Resolved L N order st →
  x ∈ N → nodeId x = Some o → o ∈ permanentMarked st → x ∈ order.
Proof.
  intros Hcoh Hres Hx Ho Hmark.
  rewrite (res_permanent _ _ _ _ Hres) in Hmark.
  apply elem_of_nodeIds in Hmark as (x' & Hx' & Ho').
  destruct (res_scope _ _ _ _ Hres x' Hx') as [HxN _].
  by rewrite (Hcoh x x' o).
Qed.

Lemma order_emitted L N order st x sid :
  Resolved L N order st → x ∈ order → sid ∈ definedIds x →
  sid ∈ (CompiledDef.sid <$> constStreams st)
        ++ flat_map CompiledDef.sids (apps st).
Proof.
  intros Hres Hx Hsid.
  rewrite (res_consts _ _ _ _ Hres), (res_apps _ _ _ _ Hres), emitted_ids.
  apply elem_of_flat_map. by exists x.
Qed.

(** The id returned by a processed node of the scope is the id of a
    stream parameter or of an emitted spec, or it is an external
    reference. *)
Lemma returned_available L N order st sparams x o sid :
  Scope L N → IdentityCoherent N → Resolved L N order st → Complete L N st →
  localStreamIds L = dom (Env.vars (streamEnvironment L)) →
  (∀ s, Env.vars (streamEnvironment L) !! s = Some None → s ∈ sparams) →
  x ∈ N → nodeId x = Some o → o ∈ permanentMarked st →
  streamExprReturnedId x = Ok (Some sid) →
  sid ∈ sparams ++ (CompiledDef.sid <$> constStreams st)
        ++ flat_map CompiledDef.sids (apps st)
  ∨ sid ∈ externalReferencedStreamIds st.
Proof.
  intros HN Hcoh Hres Hcmp Hdom Hpar Hx Ho Hmark Hret.
  destruct (returned_defined _ _ Hret) as [Hdef|[o' ->]].
  - left. apply elem_of_app. right.
    eapply order_emitted; [done| |done]. by eapply marked_in_order.
  - pose proof (cmp_processed _ _ _ Hcmp _ _ Hx Ho Hmark) as Hdone.
    cbn in Hdone. case_bool_decide as Hlocal; [|right; by destruct Hdone].
    left. destruct Hdone as [Hget|(target & ot & Hget & Hot & Htmark)].
    + apply elem_of_app. left. apply Hpar.
      rewrite Hdom in Hlocal. apply elem_of_dom in Hlocal as [v Hv].
      rewrite (Env_get_local _ _ _ Hv) in Hget. by simplify_eq.
    + destruct (scope_target _ _ HN sid target Hlocal Hget) as [Htarget Hdef].
      apply elem_of_app. right.
      eapply order_emitted; [done| |done]. by eapply marked_in_order.
Qed.

(** X8: a compiled definition is closed.  When distinct node objects of the
    scope have distinct identities, every stream id an application spec
    consumes and every yielded stream id is the id of a stream parameter,
    of a constant stream or of an application output of the definition, or
    it is one of the external references returned with the definition. *)
Theorem compiled_ids_available (fuel : nat) (definition : Node)
    (outerStreamEnvironment : CompilationStreamEnvironment)
    (outerFunctionEnvironment : CompilationFunctionEnvironment)
    (cd : CompiledDefinition) (ext : gset StreamID) :
  compileTreeDefinition fuel definition outerStreamEnvironment
    outerFunctionEnvironment = Ok (cd, ext) →
  IdentityCoherent (scopeNodes definition) →
  (∀ a sid,
     a ∈ CompiledDef.apps cd → sid ∈ CompiledDef.sargIds a →
     sid ∈ definedStreamIds cd ∨ sid ∈ ext)
  ∧ (∀ i sid,
       CompiledDef.yieldIds cd !! i = Some (Some sid) →
       sid ∈ definedStreamIds cd ∨ sid ∈ ext).
Proof.
  destruct fuel as [|fuel]; [done|].
  intros (fid & sparams & fparams & body & L & localDefs & st & ->
          & HL & _ & Hst & -> & ->)%compile_Ok_inv Hcoh.
  cbn [scopeNodes] in Hcoh.
  pose proof (collectLocals_collected _ _ _ _ _ HL) as Hcol.
  pose proof (collected_scope _ _ _ _ Hcol) as HN.
  pose proof (collectLocals_registered _ _ _ _ _ HL)
    as [_ _ _ Hdom Hloc _ Hpar _ _ _ _].
  destruct (body_resolved _ _ _ _ HN Hst) as [order Hres].
  destruct (body_complete _ _ _ _ HN Hcoh Hst) as [Hcmp Hentries].
  assert (Havail : ∀ x o sid,
            x ∈ flat_map visited body → nodeId x = Some o →
            o ∈ permanentMarked st → streamExprReturnedId x = Ok (Some sid) →
            sid ∈ sparams ++ (CompiledDef.sid <$> constStreams st)
                  ++ flat_map CompiledDef.sids (apps st)
            ∨ sid ∈ externalReferencedStreamIds st).
  { intros x o sid. eapply returned_available; try done. congruence. }
  unfold definedStreamIds. cbn. split.
  - intros a sid Ha Hsid. rewrite (res_apps _ _ _ _ Hres) in Ha.
    apply list_elem_of_omap in Ha as (node & Hnode & Hspec).
    destruct node as [| | | | |o aid outs func sargs fargs| | |]; try done.
    cbn in Hspec. simplify_eq. cbn in Hsid.
    apply list_elem_of_fmap in Hsid as (x & -> & Hx).
    destruct (res_scope _ _ _ _ Hres _ Hnode) as [HnodeN _].
    assert (Hmark : o ∈ permanentMarked st).
    { rewrite (res_permanent _ _ _ _ Hres). apply elem_of_nodeIds.
      by eexists. }
    destruct (cmp_processed _ _ _ Hcmp _ o HnodeN eq_refl Hmark)
      as (_ & Hs & _).
    destruct (Hs x Hx) as (ox & sid & Hox & Hxmark & Hret & _).
    unfold returnedId. rewrite Hret.
    eapply Havail; [|done..]. by eapply (scope_sargs _ _ HN).
  - intros i sid Hi.
    destruct (body_yields _ _ _ _ Hst) as [_ Hget].
    rewrite Hget in Hi by (by eapply lookup_lt_Some).
    assert (Hin : sid ∈ omap (yieldAt i) body).
    { simplify_eq. destruct (last _) as [s|] eqn:Hlast; simplify_eq.
      apply last_Some in Hlast as [l' ->]. set_solver. }
    apply list_elem_of_omap in Hin as (entry & Hentry & Hat).
    destruct entry as [| | | | | |idx expr| |]; try done.
    cbn in Hat. case_decide; simplify_eq.
    destruct (Hentries _ Hentry) as (expr' & o & Hexpr & Ho & Hmark & Hyield).
    cbn in Hexpr. simplify_eq.
    destruct (Hyield _ _ eq_refl) as (sid & Hret & _).
    unfold returnedId. rewrite Hret.
    eapply Havail; [|done..].
    eapply body_entry_visited; [done|]. right. by eexists.
Qed.

Lemma compiled_ids_available_witness :
  ∃ cd ext,
    compileTreeDefinition 8 multiOutput (Env.new None)
      (seededFunctionEnvironment globalFunctions) = Ok (cd, ext)
    ∧ (∀ a sid,
         a ∈ CompiledDef.apps cd → sid ∈ CompiledDef.sargIds a →
         sid ∈ definedStreamIds cd ∨ sid ∈ ext)
    ∧ (∀ i sid,
         CompiledDef.yieldIds cd !! i = Some (Some sid) →
         sid ∈ definedStreamIds cd ∨ sid ∈ ext).
Proof.
  eexists _, _. split; [vm_compute; reflexivity|].
  eapply (compiled_ids_available 8 multiOutput (Env.new None)
            (seededFunctionEnvironment globalFunctions)).
  - vm_compute; reflexivity.
  - apply NoDup_identity_coherent. vm_compute.
    repeat (apply NoDup_cons_2; [set_solver|]). apply NoDup_nil_2.
Defined.

(** ** The ids of the application specs *)

Lemma fargs_ids_bound L fargs acc fids :
  forM (fargStep L) fargs acc = Ok fids →
  (∀ fid, fid ∈ acc → is_Some (Env.get (functionEnvironment L) fid)) →
  ∀ fid, fid ∈ fids → is_Some (Env.get (functionEnvironment L) fid).
Proof.
  intros Hrun Hacc. revert Hrun.
  apply (forM_invariant
           (λ ids, ∀ fid, fid ∈ ids →
                          is_Some (Env.get (functionEnvironment L) fid)));
    [|done].
  intros x ids ids' _ Hids Hstep. unfold fargStep in Hstep.
  apply bind_Ok in Hstep as (fid & _ & Hstep).
  destruct (Env.get _ fid) eqn:Hget; [|done]. simplify_eq.
  intros fid' [?| ->%list_elem_of_singleton]%elem_of_app; [by apply Hids|].
  by rewrite Hget.
Qed.

Lemma traverse_apps_bound L fuel node st st' :
  Forall (AppBound L) (apps st) →
  traverseStreamExpr L fuel node st = Ok st' →
  Forall (AppBound L) (apps st').
Proof.
  revert node st st'. induction fuel as [|fuel IH]; intros node st st' Hst Hrun;
    [done|].
  apply traverse_Ok_inv in Hrun.
  traverse_cases Hrun; cbn; try done.
  - eapply IH; [|exact Hrun]. done.
  - apply (forM_invariant
             (λ acc : CompileState * list StreamID,
                Forall (AppBound L) (apps acc.1)
                ∧ ∀ sid, sid ∈ acc.2 → sid ≠ EmptyString)) in Hsargs.
    + destruct Hsargs as [Happs Hids]. cbn in Happs, Hids.
      apply Forall_app. split; [done|]. apply Forall_singleton.
      split_and!; cbn; [by eexists| |done].
      eapply fargs_ids_bound; [done|]. intros fid Hfid.
      by apply elem_of_nil in Hfid.
    + intros x [s l] [s' l'] _ [Happs Hids]
        (sid & Hx & _ & Hsid & ->)%sargStep_Ok_inv. cbn in *.
      split; [eapply IH; [|exact Hx]; done|].
      intros sid' [?| ->%list_elem_of_singleton]%elem_of_app; auto.
    + split; cbn; [done|]. intros sid Hsid. by apply elem_of_nil in Hsid.
Qed.

Lemma function_bound sparams body oS oF L fid :
  collectLocals sparams body oS oF = Ok L →
  is_Some (Env.get (functionEnvironment L) fid) → FunctionBound body oF fid.
Proof.
  intros [_ HoF _ _ _ _ _ _ Hfdom _ _]%collectLocals_registered Hget.
  destruct (Env.vars (functionEnvironment L) !! fid) as [f|] eqn:Hvar.
  - left. apply Hfdom, elem_of_dom. by eexists.
  - right. rewrite (Env_get_outer _ _ Hvar), HoF in Hget.
    by apply Env_has_get.
Qed.

(** X9: every application spec of a compiled definition names functions that
    are bound: the function it applies and each of its function arguments
    is a function definition collected in the scope or is visible in the
    outer function environment.  None of its stream argument ids is empty,
    and no yielded id is. *)
Theorem application_ids_bound (fuel : nat) (fid : FunctionID)
    (sparams : list StreamID) (fparams : list FunctionID) (body : list Node)
    (outerStreamEnvironment : CompilationStreamEnvironment)
    (outerFunctionEnvironment : CompilationFunctionEnvironment)
    (cd : CompiledDefinition) (ext : gset StreamID) :
  compileTreeDefinition fuel
    (TreeFunctionDefinition fid sparams fparams body)
    outerStreamEnvironment outerFunctionEnvironment = Ok (cd, ext) →
  (∀ a, a ∈ CompiledDef.apps cd →
        FunctionBound body outerFunctionEnvironment (CompiledDef.funcId a)
        ∧ (∀ farg, farg ∈ CompiledDef.fargIds a →
                   FunctionBound body outerFunctionEnvironment farg)
        ∧ ∀ sarg, sarg ∈ CompiledDef.sargIds a → sarg ≠ EmptyString)
  ∧ ∀ i, CompiledDef.yieldIds cd !! i ≠ Some (Some EmptyString).
Proof.
  destruct fuel as [|fuel]; [done|].
  intros (fid0 & sparams0 & fparams0 & body0 & L & localDefs & st
          & [= <- <- <- <-] & HL & _ & Hst & -> & _)%compile_Ok_inv.
  cbn. split.
  - assert (Happs : Forall (AppBound L) (apps st)).
    { revert Hst. apply (forM_invariant (λ s, Forall (AppBound L) (apps s)));
        [|by apply Forall_nil].
      intros entry s s' _ Hs
        [(idx & expr & sid & s1 & -> & Hrun & _ & _ & ->)|[_ Hrun]]
        %bodyStep_Ok_inv; cbn;
        (eapply traverse_apps_bound; [|exact Hrun]; done). }
    rewrite Forall_forall in Happs. intros a Ha.
    destruct (Happs a Ha) as (Hf & Hfs & Hs). split_and!; [|
      intros farg Hfarg|done]; eapply function_bound; eauto.
  - assert (Hyields : ∀ i, yieldIds st !! i ≠ Some (Some EmptyString)).
    { revert Hst.
      apply (forM_invariant
               (λ s, ∀ i, yieldIds s !! i ≠ Some (Some EmptyString)));
        [|by intros i; cbn].
      intros entry s s' _ Hs
        [(idx & expr & sid & s1 & -> & Hrun & _ & Hsid & ->)|[_ Hrun]]
        %bodyStep_Ok_inv;
        apply traverse_framed in Hrun as [[_ _ _ Hy _] _]; cbn;
        [|by rewrite Hy].
      rewrite Hy. intros i Hi.
      assert (Hlt : i < length (arraySet (yieldIds s) idx sid))
        by by eapply lookup_lt_Some.
      rewrite lookup_arraySet in Hi by done.
      repeat case_decide; simplify_eq. by eapply Hs. }
    done.
Qed.

Lemma application_ids_bound_witness :
  ∃ cd ext,
    compileTreeDefinition 8 localFunctions (Env.new None)
      (seededFunctionEnvironment globalFunctions) = Ok (cd, ext)
    ∧ (∀ a, a ∈ CompiledDef.apps cd →
          FunctionBound
            (match localFunctions with
             | TreeFunctionDefinition _ _ _ body => body
             | _ => []
             end)
            (seededFunctionEnvironment globalFunctions) (CompiledDef.funcId a)
          ∧ (∀ farg, farg ∈ CompiledDef.fargIds a →
               FunctionBound
                 (match localFunctions with
                  | TreeFunctionDefinition _ _ _ body => body
                  | _ => []
                  end)
                 (seededFunctionEnvironment globalFunctions) farg)
          ∧ ∀ sarg, sarg ∈ CompiledDef.sargIds a → sarg ≠ EmptyString)
    ∧ ∀ i, CompiledDef.yieldIds cd !! i ≠ Some (Some EmptyString).
Proof.
  eexists _, _. split; [vm_compute; reflexivity|].
  eapply (application_ids_bound 8 "main" [] [] _ (Env.new None)
            (seededFunctionEnvironment globalFunctions)).
  vm_compute; reflexivity.
Defined.

(** ** Only well-scoped definitions compile *)

Lemma nodeId_stream_expression node o :
  nodeId node = Some o → isStreamExpressionNode node = true.
Proof. by destruct node. Qed.

(** X10: a definition that compiles is well scoped.  When distinct node
    objects of its scope have distinct identities, every reference node of
    the scope refers to a stream id the scope defines or to one visible in
    the outer stream environment, and every application node of the scope
    applies a bound function to stream arguments that are stream
    expressions with a returned id and to function arguments that are
    function definitions. *)
Theorem compiled_scope_resolved (fuel : nat) (fid : FunctionID)
    (sparams : list StreamID) (fparams : list FunctionID) (body : list Node)
    (outerStreamEnvironment : CompilationStreamEnvironment)
    (outerFunctionEnvironment : CompilationFunctionEnvironment)
    (cd : CompiledDefinition) (ext : gset StreamID) :
  compileTreeDefinition fuel
    (TreeFunctionDefinition fid sparams fparams body)
    outerStreamEnvironment outerFunctionEnvironment = Ok (cd, ext) →
  IdentityCoherent (flat_map visited body) →
  (∀ o ref,
     StreamReference o ref ∈ flat_map visited body →
     ref ∈ scopeStreamIds sparams body
     ∨ Env.has outerStreamEnvironment ref = true)
  ∧ (∀ o aid outs func sargs fargs,
       Application o aid outs func sargs fargs ∈ flat_map visited body →
       FunctionBound body outerFunctionEnvironment func
       ∧ (∀ x, x ∈ sargs →
               isStreamExpressionNode x = true
               ∧ ∃ sid, streamExprReturnedId x = Ok (Some sid)
                        ∧ sid ≠ EmptyString)
       ∧ (∀ x, x ∈ fargs → isFunctionDefinitionNode x = true)).
Proof.
  destruct fuel as [|fuel]; [done|].
  intros (fid0 & sparams0 & fparams0 & body0 & L & localDefs & st
          & [= <- <- <- <-] & HL & _ & Hst & -> & ->)%compile_Ok_inv Hcoh.
  pose proof (collectLocals_collected _ _ _ _ _ HL) as Hcol.
  pose proof (collected_scope _ _ _ _ Hcol) as HN.
  pose proof (collectLocals_registered _ _ _ _ _ HL)
    as [_ _ _ _ Hloc _ _ _ _ _ _].
  destruct (body_complete _ _ _ _ HN Hcoh Hst) as [Hcmp _].
  split.
  - intros o ref Hnode.
    assert (Hmark : o ∈ permanentMarked st) by by eapply scope_marked.
    pose proof (cmp_processed _ _ _ Hcmp _ o Hnode eq_refl Hmark) as Hdone.
    cbn in Hdone. case_bool_decide as Hlocal.
    + left. rewrite Hloc in Hlocal. by apply elem_of_list_to_set in Hlocal.
    + right. destruct Hdone as [Hhas _].
      rewrite (collected_has _ _ _ _ _ Hcol), orb_true_iff in Hhas.
      destruct Hhas as [Hhas|Hhas]; [|done].
      by apply bool_decide_eq_true in Hhas.
  - intros o aid outs func sargs fargs Hnode.
    assert (Hmark : o ∈ permanentMarked st) by by eapply scope_marked.
    destruct (cmp_processed _ _ _ Hcmp _ o Hnode eq_refl Hmark)
      as (Hf & Hs & Hfs).
    split_and!.
    + by eapply function_bound.
    + intros x Hx. destruct (Hs x Hx) as (ox & sid & Hox & _ & Hret & Hsid).
      split; [by eapply nodeId_stream_expression|by exists sid].
    + intros x Hx. destruct (Hfs x Hx) as (fid' & Hfid & _). by destruct x.
Qed.

Lemma compiled_scope_resolved_witness :
  ∃ cd ext,
    compileTreeDefinition 4 innerFunction enclosingStreams
      (seededFunctionEnvironment globalFunctions) = Ok (cd, ext)
    ∧ (∀ o ref,
         StreamReference o ref
           ∈ flat_map visited [ YieldExpression 0 (StreamReference 4 "x");
                                StreamReference 5 "p" ] →
         ref ∈ scopeStreamIds ["p"]
                 [ YieldExpression 0 (StreamReference 4 "x");
                   StreamReference 5 "p" ]
         ∨ Env.has enclosingStreams ref = true)
    ∧ (∀ o aid outs func sargs fargs,
         Application o aid outs func sargs fargs
           ∈ flat_map visited [ YieldExpression 0 (StreamReference 4 "x");
                                StreamReference 5 "p" ] →
         FunctionBound [ YieldExpression 0 (StreamReference 4 "x");
                         StreamReference 5 "p" ]
           (seededFunctionEnvironment globalFunctions) func
         ∧ (∀ x, x ∈ sargs →
                 isStreamExpressionNode x = true
                 ∧ ∃ sid, streamExprReturnedId x = Ok (Some sid)
                          ∧ sid ≠ EmptyString)
         ∧ (∀ x, x ∈ fargs → isFunctionDefinitionNode x = true)).
Proof.
  eexists _, _. split; [vm_compute; reflexivity|].
  eapply (compiled_scope_resolved 4 "g" ["p"] [] _ enclosingStreams
            (seededFunctionEnvironment globalFunctions)).
  - vm_compute; reflexivity.
  - apply NoDup_identity_coherent. vm_compute.
    repeat (apply NoDup_cons_2; [set_solver|]). apply NoDup_nil_2.
Defined.

(** ** Unresolved names *)

(** X11: the [CompilationError] without a message comes from a call, made by
    the call that throws it or through the calls it makes, on an unmarked
    node that is a reference to a stream id visible nowhere or an
    application of a function id bound nowhere; and such a call makes the
    call that invokes it throw that error. *)
Theorem unresolved_name_error (L : Locals) (fuel : nat) (node : Node)
    (st : CompileState) :
  traverseStreamExpr L fuel node st = Throw (CompilationError EmptyString)
  ↔ ∃ fuel' node' st',
      Invokes L fuel node st (S fuel') node' st'
      ∧ marked (permanentMarked st') node' = false
      ∧ marked (temporaryMarked st') node' = false
      ∧ ((∃ o ref, node' = StreamReference o ref
                   ∧ (ref ∉ localStreamIds L)
                   ∧ Env.has (streamEnvironment L) ref = false)
         ∨ (∃ o aid outs func sargs fargs,
              node' = Application o aid outs func sargs fargs
              ∧ Env.get (functionEnvironment L) func = None)).
Proof.
  split.
  - revert node st. induction fuel as [|fuel IH]; intros node st; [done|].
    cbn [traverseStreamExpr].
    destruct (marked (permanentMarked st) node) eqn:Hperm; [done|].
    destruct (marked (temporaryMarked st) node) eqn:Htemp; [done|].
    destruct node as [o sid|o sid v|o sid v|o sid v|o ref
                     |o aid outs func sargs fargs|idx expr|fid
                     |fid sparams fparams body]; try done.
    + case_bool_decide as Hlocal.
      * destruct (Env.get _ ref) as [[target|]|] eqn:Hget; [|done..].
        destruct (traverseStreamExpr L fuel target _) as [st1| |] eqn:Hrun;
          cbn; [done| |done].
        intros [= ->].
        apply IH in Hrun as (fuel' & node' & st' & Hinv & Hrest).
        exists fuel', node', st'. split; [|done].
        eapply InvokesTarget; [done..|by apply bool_decide_eq_true_2|done|done].
      * destruct (Env.has _ ref) eqn:Hhas; [done|]. intros _.
        exists fuel, (StreamReference o ref), st.
        split_and!; [constructor|done..|]. left. by exists o, ref.
    + destruct (Env.get _ func) as [fn|] eqn:Hget.
      * destruct (forM (sargStep _) sargs _) as [acc| |] eqn:Hsargs; cbn;
          [| |done].
        -- destruct (forM (fargStep L) fargs []) as [fids| |] eqn:Hfargs;
             cbn; [done| |done].
           intros [= ->].
           apply forM_Throw_inv in Hfargs as (before & x & after & t & _ & _ & Hx).
           unfold fargStep in Hx. destruct x; cbn in Hx; try done;
             match type of Hx with
             | context [Env.get ?env ?k] => by destruct (Env.get env k)
             end.
        -- intros [= ->].
           apply forM_Throw_inv in Hsargs
             as (before & x & after & [st1 ids] & -> & Hbefore & Hx).
           unfold sargStep in Hx. cbn [fst snd] in Hx.
           destruct (traverseStreamExpr L fuel x st1) as [st2| |] eqn:Hrun;
             cbn in Hx; [| |done].
           ++ destruct (streamExprReturnedId x) as [[[|? ?]|]| |] eqn:Hret;
                cbn in Hx; try done. simplify_eq. by destruct x.
           ++ simplify_eq.
              apply IH in Hrun as (fuel' & node' & st' & Hinv & Hrest).
              exists fuel', node', st'. split; [|done].
              by eapply InvokesArgument.
      * intros _. exists fuel, (Application o aid outs func sargs fargs), st.
        split_and!; [constructor|done..|]. right.
        by exists o, aid, outs, func, sargs, fargs.
  - intros (fuel' & node' & st' & Hinv & Hperm & Htemp & Hcause).
    eapply invokes_throw; [exact Hinv|].
    cbn [traverseStreamExpr]. rewrite Hperm, Htemp.
    destruct Hcause as [(o & ref & -> & Hlocal & Hhas)
                       |(o & aid & outs & func & sargs & fargs & -> & Hget)].
    + by rewrite bool_decide_eq_false_2, Hhas.
    + by rewrite Hget.
Qed.

(** ** The entries of a body *)

Lemma forM_Ok_each {A S} (f : A → S → Result S) xs s s' x :
  forM f xs s = Ok s' → x ∈ xs → ∃ t t', f x t = Ok t'.
Proof.
  revert s. induction xs as [|y ys IH]; intros s Hrun Hx;
    [by apply elem_of_nil in Hx|].
  rewrite forM_cons in Hrun. apply bind_Ok in Hrun as (t & Hy & Hrest).
  apply elem_of_cons in Hx as [->|Hx]; [by exists s, t|by eapply IH].
Qed.

(** X23: every body entry of a definition that compiles is a stream expression
    or a yield of a stream expression: a function definition placed among
    the body entries makes the compilation fail. *)
Theorem compiled_body_entries (fuel : nat) (fid : FunctionID)
    (sparams : list StreamID) (fparams : list FunctionID) (body : list Node)
    (outerStreamEnvironment : CompilationStreamEnvironment)
    (outerFunctionEnvironment : CompilationFunctionEnvironment)
    (cd : CompiledDefinition) (ext : gset StreamID) :
  compileTreeDefinition fuel
    (TreeFunctionDefinition fid sparams fparams body)
    outerStreamEnvironment outerFunctionEnvironment = Ok (cd, ext) →
  ∀ entry, entry ∈ body →
    isFunctionDefinitionNode entry = false
    ∧ (isStreamExpressionNode entry = true
       ∨ ∃ idx expr, entry = YieldExpression idx expr
                     ∧ isStreamExpressionNode expr = true).
Proof.
  destruct fuel as [|fuel]; [done|].
  intros (fid0 & sparams0 & fparams0 & body0 & L & localDefs & st
          & [= <- <- <- <-] & _ & _ & Hst & _ & _)%compile_Ok_inv
    entry Hentry.
  destruct (forM_Ok_each _ _ _ _ _ Hst Hentry) as (t & t' & Hstep).
  apply bodyStep_Ok_inv in Hstep
    as [(idx & expr & sid & s1 & -> & Hrun & _)|[Hstream Hrun]].
  - split; [done|]. right. exists idx, expr. split; [done|].
    destruct (traverse_Ok_nodeId _ _ _ _ _ Hrun) as [o Ho].
    by eapply nodeId_stream_expression.
  - split; [by destruct entry|by left].
Qed.

Lemma compiled_body_entries_witness :
  ∃ cd ext,
    compileTreeDefinition 8 localFunctions (Env.new None)
      (seededFunctionEnvironment globalFunctions) = Ok (cd, ext)
    ∧ ∀ entry,
        entry ∈ (match localFunctions with
                 | TreeFunctionDefinition _ _ _ body => body
                 | _ => []
                 end) →
        isFunctionDefinitionNode entry = false
        ∧ (isStreamExpressionNode entry = true
           ∨ ∃ idx expr, entry = YieldExpression idx expr
                         ∧ isStreamExpressionNode expr = true).
Proof.
  eexists _, _. split; [vm_compute; reflexivity|].
  eapply (compiled_body_entries 8 "main" [] [] _ (Env.new None)
            (seededFunctionEnvironment globalFunctions)).
  vm_compute; reflexivity.
Defined.

(** ** The local definitions, in order *)

Lemma tree_functions_filter (fenv : CompilationFunctionEnvironment)
    (vs : list Node) :
  (∀ f fid, f ∈ vs → definedFunctionId f = Some fid →
            Env.get fenv fid = Some f) →
  filter (λ fid, Is_true (isTreeFunction fenv fid)) (omap definedFunctionId vs)
  = omap treeFunctionId vs.
Proof.
  induction vs as [|f vs IH]; intros Hget; [done|].
  assert (Hrest : ∀ f' fid, f' ∈ vs → definedFunctionId f' = Some fid →
                            Env.get fenv fid = Some f')
    by (intros f' fid Hf'; apply Hget; by right).
  specialize (IH Hrest).
  pose proof (Hget f) as Hf.
  destruct f as [| | | | | | |fid|fid sparams fparams body]; try done.
  - change (omap definedFunctionId (NativeFunctionDefinition fid :: vs))
      with (fid :: omap definedFunctionId vs).
    rewrite filter_cons_False; [done|].
    unfold isTreeFunction. rewrite (Hf fid) by (by left || done).
    by intros ?%bool_decide_unpack.
  - change (omap definedFunctionId
              (TreeFunctionDefinition fid sparams fparams body :: vs))
      with (fid :: omap definedFunctionId vs).
    change (omap treeFunctionId
              (TreeFunctionDefinition fid sparams fparams body :: vs))
      with (fid :: omap treeFunctionId vs).
    rewrite filter_cons_True; [by rewrite IH|].
    unfold isTreeFunction. rewrite (Hf fid) by (by left || done).
    by apply bool_decide_pack.
Qed.

(** X13: the local definitions of a compiled definition are listed in the
    order in which the collector meets the tree function definitions of
    the scope, under their ids. *)
Theorem local_definitions_in_order (fuel : nat) (fid : FunctionID)
    (sparams : list StreamID) (fparams : list FunctionID) (body : list Node)
    (outerStreamEnvironment : CompilationStreamEnvironment)
    (outerFunctionEnvironment : CompilationFunctionEnvironment)
    (cd : CompiledDefinition) (ext : gset StreamID) :
  compileTreeDefinition fuel
    (TreeFunctionDefinition fid sparams fparams body)
    outerStreamEnvironment outerFunctionEnvironment = Ok (cd, ext) →
  (CompiledDef.localDefs cd).*1 = omap treeFunctionId (flat_map visited body).
Proof.
  destruct fuel as [|fuel]; [done|].
  intros (fid0 & sparams0 & fparams0 & body0 & L & localDefs & st
          & [= <- <- <- <-] & HL & Hdefs & _ & -> & _)%compile_Ok_inv.
  pose proof (collectLocals_collected _ _ _ _ _ HL) as [_ _ _ (_ & _ & Hreg)].
  pose proof (collectLocals_registered _ _ _ _ _ HL)
    as [_ _ _ _ _ _ _ _ _ Hfloc _].
  apply localDefs_loop in Hdefs as (rest & -> & Hkeys & _).
  cbn. rewrite Hkeys, Hfloc. apply tree_functions_filter.
  intros f fid' Hf Hfid. apply Env_get_local, Hreg.
  split; [done|]. by apply definedFunctionId_Some.
Qed.

Lemma local_definitions_in_order_witness :
  ∃ cd ext,
    compileTreeDefinition 8 localFunctions (Env.new None)
      (seededFunctionEnvironment globalFunctions) = Ok (cd, ext)
    ∧ (CompiledDef.localDefs cd).*1 = ["g"]
    ∧ (CompiledDef.localDefs cd).*1
      = omap treeFunctionId
          (flat_map visited
             (match localFunctions with
              | TreeFunctionDefinition _ _ _ body => body
              | _ => []
              end)).
Proof.
  eexists _, _. split; [vm_compute; reflexivity|]. split; [reflexivity|].
  eapply (local_definitions_in_order 8 "main" [] [] _ (Env.new None)
            (seededFunctionEnvironment globalFunctions)).
  vm_compute; reflexivity.
Defined.

(** ** Nested scopes *)

(** X14: in a definition that compiles, the ids registered in the scope of a
    local tree function definition are fresh: no stream id of the inner
    scope is a stream id of the enclosing scope or visible in the outer
    stream environment, and likewise for the function ids. *)
Theorem nested_scope_ids_fresh (fuel : nat) (fid : FunctionID)
    (sparams : list StreamID) (fparams : list FunctionID) (body : list Node)
    (outerStreamEnvironment : CompilationStreamEnvironment)
    (outerFunctionEnvironment : CompilationFunctionEnvironment)
    (cd : CompiledDefinition) (ext : gset StreamID)
    (g : FunctionID) (gsparams : list StreamID) (gfparams : list FunctionID)
    (gbody : list Node) :
  compileTreeDefinition fuel
    (TreeFunctionDefinition fid sparams fparams body)
    outerStreamEnvironment outerFunctionEnvironment = Ok (cd, ext) →
  TreeFunctionDefinition g gsparams gfparams gbody ∈ flat_map visited body →
  (∀ sid, sid ∈ scopeStreamIds gsparams gbody →
          (sid ∉ scopeStreamIds sparams body)
          ∧ Env.has outerStreamEnvironment sid = false)
  ∧ (∀ f, f ∈ scopeFunctionIds gbody →
          (f ∉ scopeFunctionIds body)
          ∧ Env.has outerFunctionEnvironment f = false).
Proof.
  destruct fuel as [|fuel]; [done|].
  intros (fid0 & sparams0 & fparams0 & body0 & L & localDefs & st
          & [= <- <- <- <-] & HL & Hdefs & _ & -> & _)%compile_Ok_inv Hg.
  pose proof (collectLocals_collected _ _ _ _ _ HL)
    as [HoS HoF _ (Hids & _ & Hreg)].
  pose proof (collectLocals_registered _ _ _ _ _ HL)
    as [_ _ _ Hdom _ _ _ _ Hfdom _ _].
  set (gdef := TreeFunctionDefinition g gsparams gfparams gbody) in *.
  assert (Hvar : Env.vars (functionEnvironment L) !! g = Some gdef)
    by by apply Hreg.
  apply localDefs_loop in Hdefs as (rest & _ & Hkeys & Hcompiled).
  assert (Hin : g ∈ rest.*1).
  { rewrite Hkeys. apply list_elem_of_filter. split.
    - unfold isTreeFunction. rewrite (Env_get_local _ _ _ Hvar).
      by apply bool_decide_pack.
    - apply Hids, elem_of_dom. by eexists. }
  apply list_elem_of_fmap in Hin as ([g' d] & Heq & Hin). cbn in Heq. subst g'.
  destruct (Hcompiled _ _ Hin) as (funcDef & ext' & Hget & _ & Hrun).
  rewrite (Env_get_local _ _ _ Hvar) in Hget. simplify_eq.
  destruct fuel as [|fuel]; [done|].
  apply compile_Ok_inv in Hrun
    as (g0 & gs0 & gf0 & gb0 & L' & _ & _ & [= <- <- <- <-] & HL' & _).
  pose proof (collectLocals_registered _ _ _ _ _ HL')
    as [_ _ _ _ _ Hfresh _ _ _ _ Hffresh].
  split.
  - intros sid Hsid%Hfresh.
    apply (Env_has_false_frame _ outerStreamEnvironment) in Hsid as [Hnot ?];
      [|done].
    split; [|done]. rewrite Hdom in Hnot. set_solver.
  - intros f Hf%Hffresh.
    apply (Env_has_false_frame _ outerFunctionEnvironment) in Hf as [Hnot ?];
      [|done].
    split; [|done]. by rewrite Hfdom.
Qed.

Lemma nested_scope_ids_fresh_witness :
  ∃ cd ext,
    compileTreeDefinition 8 localFunctions (Env.new None)
      (seededFunctionEnvironment globalFunctions) = Ok (cd, ext)
    ∧ (∀ sid, sid ∈ scopeStreamIds ["p"]
                      [ YieldExpression 0 (StreamReference 4 "x");
                        StreamReference 5 "p" ] →
              (sid ∉ scopeStreamIds []
                       (match localFunctions with
                        | TreeFunctionDefinition _ _ _ body => body
                        | _ => []
                        end))
              ∧ Env.has (Env.new None : CompilationStreamEnvironment) sid
                = false)
    ∧ (∀ f, f ∈ scopeFunctionIds
                  [ YieldExpression 0 (StreamReference 4 "x");
                    StreamReference 5 "p" ] →
            (f ∉ scopeFunctionIds
                   (match localFunctions with
                    | TreeFunctionDefinition _ _ _ body => body
                    | _ => []
                    end))
            ∧ Env.has (seededFunctionEnvironment globalFunctions) f = false).
Proof.
  eexists _, _. split; [vm_compute; reflexivity|].
  eapply (nested_scope_ids_fresh 8 "main" [] [] _ (Env.new None)
            (seededFunctionEnvironment globalFunctions) _ _ "g" ["p"] []).
  - vm_compute; reflexivity.
  - vm_compute. set_solver.
Defined.

(** ** Paths *)

(** [===] on two elements of a path is equality, except that [NaN] is
    not equal to itself. *)
Lemma strictEquals_true (x y : PathSegment) :
  strictEquals (Some x) (Some y) = true ↔ x = y ∧ x ≠ Index NaN.
Proof.
  destruct x as [s|[m|]], y as [t|[n|]]; cbn;
    rewrite ?bool_decide_eq_true; split;
    try (intros [? ?]; congruence); try done.
  - intros ->. by split.
  - intros ->. by split.
Qed.

(** X15: [pathIsPrefix a b] holds exactly when [b] is [a] followed by some
    more segments and no segment of [a] is [NaN]: a path with the segment
    [NaN] is a prefix of no path, itself included. *)
Theorem pathIsPrefix_prefix (a b : list PathSegment) :
  pathIsPrefix a b = true ↔ a `prefix_of` b ∧ Index NaN ∉ a.
Proof.
  unfold pathIsPrefix. case_decide as Hlen.
  - split; [done|]. intros [Hpre%prefix_length _]. lia.
  - rewrite forallb_forall. split.
    + intros Hall.
      assert (Heach : ∀ i x, a !! i = Some x → b !! i = Some x ∧ x ≠ Index NaN).
      { intros i x Hx. pose proof (lookup_lt_Some _ _ _ Hx) as Hi.
        destruct (lookup_lt_is_Some_2 b i) as [y Hy]; [lia|].
        specialize (Hall i). rewrite Hx, Hy in Hall.
        apply strictEquals_true in Hall as [-> ?]; [done|].
        apply in_seq. lia. }
      split.
      * exists (drop (length a) b).
        rewrite <- (take_drop (length a) b) at 1. f_equal.
        apply list_eq. intros i.
        destruct (decide (i < length a)) as [Hi|Hi].
        -- rewrite lookup_take_lt by done.
           destruct (lookup_lt_is_Some_2 a i Hi) as [x Hx].
           rewrite Hx. symmetry. by destruct (Heach i x Hx).
        -- rewrite lookup_take_ge by lia. by rewrite lookup_ge_None_2 by lia.
      * intros [i Hx]%list_elem_of_lookup. by apply Heach in Hx as [_ ?].
    + intros [Hpre Hnan] i [_ Hi]%in_seq.
      destruct (lookup_lt_is_Some_2 a i Hi) as [x Hx].
      rewrite <- (prefix_lookup_lt _ _ _ Hi Hpre), Hx.
      apply strictEquals_true. split; [done|]. intros ->.
      apply Hnan. by eapply list_elem_of_lookup_2.
Qed.

(** A walk that has reached [cur] goes on from there. *)
Lemma walk_from {JsValue : Type}
    (getProperty : JsValue → PathSegment → Result JsValue)
    (root cur : JsValue) (p q : list PathSegment) :
  nodeFromPath getProperty root p = Ok cur →
  nodeFromPath getProperty root (p ++ q) = nodeFromPath getProperty cur q.
Proof.
  revert root. induction p as [|seg p IH]; intros root; [by intros [= ->]|].
  cbn. destruct (getProperty root seg); [apply IH|done..].
Qed.

(** X16: walking a path made of two parts is walking the first part and then
    the second part from where the first one ends; the walk fails where
    the walk of the first part fails. *)
Theorem nodeFromPath_app {JsValue : Type}
    (getProperty : JsValue → PathSegment → Result JsValue)
    (root : JsValue) (p q : list PathSegment) :
  nodeFromPath getProperty root (p ++ q)
  = match nodeFromPath getProperty root p with
    | Ok cur => nodeFromPath getProperty cur q
    | Throw e => Throw e
    | OutOfFuel => OutOfFuel
    end.
Proof.
  revert root. induction p as [|seg p IH]; intros root; [done|].
  cbn [app nodeFromPath]. destruct (getProperty root seg); [apply IH|done..].
Qed.

Lemma SplitAt_unique {JsValue : Type}
    (getProperty : JsValue → PathSegment → Result JsValue)
    node root path b1 a1 b2 a2 :
  SplitAt getProperty node root path b1 a1 →
  SplitAt getProperty node root path b2 a2 →
  b1 = b2 ∧ a1 = a2.
Proof.
  intros (H1 & Hw1 & Hm1) (H2 & Hw2 & Hm2).
  assert (Hlen : length b1 = length b2).
  { destruct (Nat.lt_trichotomy (length b1) (length b2)) as [Hlt|[?|Hlt]];
      [|done|].
    - destruct (Hm2 _ Hlt).
      replace (take (length b1) b2) with b1; [done|].
      rewrite <- (take_app_le b2 a2 (length b1)) by lia.
      by rewrite H2, <- H1, take_app_length.
    - destruct (Hm1 _ Hlt).
      replace (take (length b2) b1) with b2; [done|].
      rewrite <- (take_app_le b1 a1 (length b2)) by lia.
      by rewrite H1, <- H2, take_app_length. }
  rewrite <- H2 in H1. by apply app_inj_1 in H1.
Qed.

(** The outcome of the loop of [nodeSplitPath], entered at the end of the
    prefix [pre] of the path, none of whose shorter prefixes leads to the
    node. *)
Lemma nodeSplitPathFrom_outcome {JsValue : Type} `{EqDecision JsValue}
    (getProperty : JsValue → PathSegment → Result JsValue)
    node root path pre cur rest :
  path = pre ++ rest → nodeFromPath getProperty root pre = Ok cur →
  (∀ j, j < length pre → nodeFromPath getProperty root (take j path) ≠ Ok node) →
  match nodeSplitPathFrom getProperty node cur path (length pre) rest with
  | Ok (before, after) => SplitAt getProperty node root path before after
  | Throw e =>
      (∀ j, nodeFromPath getProperty root (take j path) ≠ Ok node)
      ∧ (nodeFromPath getProperty root path = Throw e
         ∨ (e = Error "node was not in path" ∧ is_Some (
              match nodeFromPath getProperty root path with Ok v => Some v | _ => None end)))
  | OutOfFuel =>
      (∀ j, nodeFromPath getProperty root (take j path) ≠ Ok node)
      ∧ nodeFromPath getProperty root path = OutOfFuel
  end.
Proof.
  revert pre cur. induction rest as [|seg rest IH]; intros pre cur -> Hpre Hmin.
  - cbn [nodeSplitPathFrom]. rewrite app_nil_r in *.
    rewrite firstn_all, drop_all. case_bool_decide as Hnode.
    + subst cur. split_and!; [by rewrite app_nil_r|done|done].
    + split.
      * intros j. destruct (decide (j < length pre)) as [Hj|Hj]; [by apply Hmin|].
        rewrite take_ge by lia. rewrite Hpre. congruence.
      * right. split; [done|]. rewrite Hpre. by eexists.
  - cbn [nodeSplitPathFrom]. case_bool_decide as Hnode.
    + subst cur. rewrite take_app_length, drop_app_length.
      split_and!; [done|done|].
      intros j Hj. specialize (Hmin j Hj).
      by rewrite take_app_le in Hmin by lia.
    + assert (Hmin' : ∀ j, j < S (length pre) →
                nodeFromPath getProperty root (take j (pre ++ seg :: rest)) ≠ Ok node).
      { intros j Hj. destruct (decide (j < length pre)) as [?|?];
          [by apply Hmin|].
        assert (j = length pre) as -> by lia.
        rewrite take_app_length, Hpre. congruence. }
      assert (Hstep : ∀ q,
                nodeFromPath getProperty root (pre ++ seg :: q)
                = getProperty cur seg ≫= λ v, nodeFromPath getProperty v q).
      { intros q. rewrite (walk_from _ _ _ _ _ Hpre). cbn.
        by destruct (getProperty cur seg). }
      destruct (getProperty cur seg) as [cur'|e|] eqn:Hget.
      * specialize (IH (pre ++ [seg]) cur').
        rewrite <- app_assoc, length_app, Nat.add_1_r in IH. cbn in IH.
        apply IH; [done| |done].
        rewrite (walk_from _ _ _ _ _ Hpre). cbn. by rewrite Hget.
      * split; [|left; by rewrite Hstep].
        intros j. destruct (decide (j < S (length pre))) as [?|?];
          [by apply Hmin'|].
        rewrite take_app_ge by lia.
        destruct (j - length pre) as [|k] eqn:Hk; [lia|]. cbn.
        by rewrite Hstep.
      * split; [|by rewrite Hstep].
        intros j. destruct (decide (j < S (length pre))) as [?|?];
          [by apply Hmin'|].
        rewrite take_app_ge by lia.
        destruct (j - length pre) as [|k] eqn:Hk; [lia|]. cbn.
        by rewrite Hstep.
Qed.

Lemma nodeSplitPath_outcome {JsValue : Type} `{EqDecision JsValue}
    (getProperty : JsValue → PathSegment → Result JsValue)
    node root path :
  match nodeSplitPath getProperty node root path with
  | Ok (before, after) => SplitAt getProperty node root path before after
  | Throw e =>
      (∀ j, nodeFromPath getProperty root (take j path) ≠ Ok node)
      ∧ (nodeFromPath getProperty root path = Throw e
         ∨ (e = Error "node was not in path" ∧ is_Some (
              match nodeFromPath getProperty root path with Ok v => Some v | _ => None end)))
  | OutOfFuel =>
      (∀ j, nodeFromPath getProperty root (take j path) ≠ Ok node)
      ∧ nodeFromPath getProperty root path = OutOfFuel
  end.
Proof.
  apply (nodeSplitPathFrom_outcome getProperty node root path [] root path);
    [done..|].
  intros j Hj. cbn in Hj. lia.
Qed.

(** X17: [nodeSplitPath] returns the pair [before], [after] exactly when
    [before] followed by [after] is the path, [before] leads from the root
    to the node, and no shorter prefix of the path does. *)
Theorem nodeSplitPath_shortest_prefix {JsValue : Type} `{EqDecision JsValue}
    (getProperty : JsValue → PathSegment → Result JsValue)
    (node root : JsValue)
    (path before after : list PathSegment) :
  nodeSplitPath getProperty node root path = Ok (before, after)
  ↔ SplitAt getProperty node root path before after.
Proof.
  pose proof (nodeSplitPath_outcome getProperty node root path) as Hout.
  destruct (nodeSplitPath _ node root path) as [[b a]|e|] eqn:Hrun.
  - split; [by intros [= <- <-]|].
    intros Hsplit. by destruct (SplitAt_unique _ _ _ _ _ _ _ _ Hout Hsplit) as [-> ->].
  - split; [done|]. intros (Happ & Hwalk & _). destruct Hout as [Hno _].
    destruct (Hno (length before)).
    by rewrite <- Happ, take_app_length.
  - split; [done|]. intros (Happ & Hwalk & _). destruct Hout as [Hno _].
    destruct (Hno (length before)).
    by rewrite <- Happ, take_app_length.
Qed.

(** X18: when the whole path can be walked and no prefix of it, the path
    itself included, leads to the node, [nodeSplitPath] throws the error
    ['node was not in path']. *)
Theorem nodeSplitPath_not_in_path {JsValue : Type} `{EqDecision JsValue}
    (getProperty : JsValue → PathSegment → Result JsValue)
    (node root end_ : JsValue)
    (path : list PathSegment) :
  nodeFromPath getProperty root path = Ok end_ →
  (∀ j, nodeFromPath getProperty root (take j path) ≠ Ok node) →
  nodeSplitPath getProperty node root path
  = Throw (Error "node was not in path").
Proof.
  intros Hwalk Hno.
  pose proof (nodeSplitPath_outcome getProperty node root path) as Hout.
  destruct (nodeSplitPath _ node root path) as [[b a]|e|].
  - destruct Hout as (Happ & Hb & _). destruct (Hno (length b)).
    by rewrite <- Happ, take_app_length.
  - destruct Hout as [_ [Hthrow|[-> _]]]; [congruence|done].
  - destruct Hout as [_ Hfuel]. congruence.
Qed.

(** X24: a path relative to the node found by [nodeSplitPath], put after the
    first part of the split, leads from the root to where it leads from
    that node; the path that was split is such a path, with the second
    part of the split. *)
Theorem nodeSplitPath_rebase {JsValue : Type} `{EqDecision JsValue}
    (getProperty : JsValue → PathSegment → Result JsValue)
    (node root : JsValue) (path before after : list PathSegment) :
  nodeSplitPath getProperty node root path = Ok (before, after) →
  (∀ subpath, nodeFromPath getProperty root (before ++ subpath)
              = nodeFromPath getProperty node subpath)
  ∧ nodeFromPath getProperty root path = nodeFromPath getProperty node after.
Proof.
  intros Hrun.
  pose proof (nodeSplitPath_outcome getProperty node root path) as Hout.
  rewrite Hrun in Hout. destruct Hout as (Happ & Hwalk & _).
  split; [intros subpath; by apply walk_from|].
  rewrite <- Happ. by apply walk_from.
Qed.

Lemma nodeSplitPath_rebase_witness :
  nodeSplitPath addressTree [Field "mainDefinition"] []
    [Field "mainDefinition"; Field "expressions"; Index (Integer 0)]
  = Ok ([Field "mainDefinition"], [Field "expressions"; Index (Integer 0)])
  ∧ (∀ subpath,
       nodeFromPath addressTree [] ([Field "mainDefinition"] ++ subpath)
       = nodeFromPath addressTree [Field "mainDefinition"] subpath)
  ∧ nodeFromPath addressTree []
      [Field "mainDefinition"; Field "expressions"; Index (Integer 0)]
    = nodeFromPath addressTree [Field "mainDefinition"]
        [Field "expressions"; Index (Integer 0)].
Proof.
  split; [reflexivity|].
  apply (nodeSplitPath_rebase addressTree [Field "mainDefinition"] []
           [Field "mainDefinition"; Field "expressions"; Index (Integer 0)]).
  reflexivity.
Defined.

Lemma nodeSplitPath_not_in_path_witness :
  nodeSplitPath addressTree [Index (Integer 7)] [] [Field "expressions"; Index (Integer 0)]
  = Throw (Error "node was not in path").
Proof.
  apply (nodeSplitPath_not_in_path addressTree [Index (Integer 7)] []
           [Field "expressions"; Index (Integer 0)] [Field "expressions"; Index (Integer 0)]).
  - reflexivity.
  - intros [|[|[|j]]]; vm_compute; congruence.
Defined.

(** ** Deleting and moving among the expressions of a user function *)

Lemma length_slice_to {A} (xs : list A) (r : Z) :
  (0 ≤ r)%Z → slice xs (Integer 0) (Integer r) = take (Z.to_nat r) xs.
Proof.
  intros Hr. unfold slice, sliceIndex, toIntegerOrInfinity.
  rewrite !decide_False by lia. change (Z.to_nat 0) with 0.
  rewrite Nat.min_0_l, Nat.sub_0_r, drop_0.
  destruct (decide (Z.to_nat r ≤ length xs)) as [?|?].
  - by rewrite Nat.min_l by done.
  - rewrite Nat.min_r by lia. by rewrite !take_ge by lia.
Qed.

Lemma sliceFrom_drop {A} (xs : list A) (r : Z) :
  (0 ≤ r)%Z → sliceFrom xs (Integer r) = drop (Z.to_nat r) xs.
Proof.
  intros Hr. unfold sliceFrom, sliceIndex, toIntegerOrInfinity.
  rewrite decide_False by lia.
  destruct (decide (Z.to_nat r ≤ length xs)) as [?|?].
  - by rewrite Nat.min_l by done.
  - rewrite Nat.min_r by lia. by rewrite !drop_ge by lia.
Qed.

(** X19: [deleteDefinitionExpression] on a safe integer, within the array or
    not: it returns a function with at least one expression and the path
    of one of its expressions, and it copies the other properties of the
    function.  On [NaN] it removes nothing, and unless the function has no
    expression the index in the path it returns is [NaN], which is the
    index of no expression. *)
Theorem deleteDefinitionExpression_selects_expression {Expr Other : Type}
    (undefinedExpression : string → Expr) (uid : string)
    (node : UserFunctionNode Expr Other) (removeIdx : Z) :
  (isSafeInteger (Integer removeIdx) = true →
   ∃ newNode newIdx editState,
     deleteDefinitionExpression undefinedExpression uid node
       (Integer removeIdx)
     = (newNode, [Field "expressions"; Index (Integer newIdx)], editState)
     ∧ other newNode = other node
     ∧ (0 ≤ newIdx < Z.of_nat (length (expressions newNode)))%Z)
  ∧ deleteDefinitionExpression undefinedExpression uid node NaN
    = match expressions node with
      | [] =>
          (mkUserFunction (other node) [undefinedExpression uid],
           [Field "expressions"; Index (Integer 0)],
           Some (undefinedExpression uid, undefinedExpression uid))
      | _ :: _ =>
          (mkUserFunction (other node) (expressions node),
           [Field "expressions"; Index NaN], None)
      end.
Proof.
  split.
  - intros _. unfold deleteDefinitionExpression. case_bool_decide as Hlen.
    + eexists _, _, _. split; [reflexivity|]. split; [done|].
      cbn [expressions]. unfold slice, sliceFrom in *.
      cbn [numberAdd toIntegerOrInfinity] in *.
      rewrite length_app, length_take, !length_drop in Hlen |- *.
      unfold sliceIndex in *. repeat case_decide; lia.
    + eexists _, _, _. split; [reflexivity|]. split; [done|]. cbn.
      rewrite length_app. cbn. lia.
  - unfold deleteDefinitionExpression, slice, sliceFrom.
    cbn [numberAdd toIntegerOrInfinity]. unfold sliceIndex.
    rewrite !decide_False by lia. change (Z.to_nat 0) with 0.
    rewrite Nat.min_0_l, Nat.sub_0_r, drop_0, take_0.
    by destruct (expressions node).
Qed.

(** The theorem at the index 5 of a function with two expressions, and at
    [NaN]. *)
Lemma deleteDefinitionExpression_selects_expression_witness :
  (∃ newNode newIdx editState,
     deleteDefinitionExpression (λ uid, uid) "u"
       (mkUserFunction tt ["a"; "b"]) (Integer 5)
     = (newNode, [Field "expressions"; Index (Integer newIdx)], editState)
     ∧ other newNode = tt
     ∧ (0 ≤ newIdx < Z.of_nat (length (expressions newNode)))%Z)
  ∧ deleteDefinitionExpression (λ uid, uid) "u"
      (mkUserFunction tt ["a"; "b"]) NaN
    = (mkUserFunction tt ["a"; "b"], [Field "expressions"; Index NaN], None).
Proof.
  destruct (deleteDefinitionExpression_selects_expression (λ uid, uid) "u"
              (mkUserFunction tt ["a"; "b"]) 5) as [Hsafe Hnan].
  split; [apply Hsafe; reflexivity|exact Hnan].
Defined.

(** X20: for an index within the array, the expressions returned are those of
    the function without the one at the index and the selection moves to
    the expression before it (to the first one if there is none before);
    when that leaves no expression, the function gets a single new
    undefined expression, which is selected and under edit. *)
Theorem deleteDefinitionExpression_removes {Expr Other : Type}
    (undefinedExpression : string → Expr) (uid : string)
    (node : UserFunctionNode Expr Other) (removeIdx : nat) :
  removeIdx < length (expressions node) →
  deleteDefinitionExpression undefinedExpression uid node
    (Integer (Z.of_nat removeIdx))
  = if decide (length (expressions node) = 1) then
      (mkUserFunction (other node) [undefinedExpression uid],
       [Field "expressions"; Index (Integer 0)],
       Some (undefinedExpression uid, undefinedExpression uid))
    else
      (mkUserFunction (other node) (delete removeIdx (expressions node)),
       [Field "expressions"; Index (Integer (Z.of_nat (removeIdx - 1)))],
       None).
Proof.
  intros Hlt. unfold deleteDefinitionExpression. cbn [numberAdd numberSub].
  rewrite length_slice_to, sliceFrom_drop by lia.
  replace (Z.to_nat (Z.of_nat removeIdx)) with removeIdx by lia.
  replace (Z.to_nat (Z.of_nat removeIdx + 1)) with (S removeIdx) by lia.
  rewrite <- delete_take_drop.
  assert (Hdel : length (delete removeIdx (expressions node))
                 = length (expressions node) - 1).
  { rewrite delete_take_drop, length_app, length_take, length_drop. lia. }
  case_decide as Hone.
  - rewrite bool_decide_eq_false_2 by lia.
    destruct (delete removeIdx (expressions node)) eqn:Hnil; [done|].
    cbn in Hdel. lia.
  - rewrite bool_decide_eq_true_2 by lia. cbn [mathMax mathMin].
    do 6 f_equal. lia.
Qed.

Lemma deleteDefinitionExpression_removes_witness :
  deleteDefinitionExpression (λ uid, uid) "u"
    (mkUserFunction tt ["a"; "b"; "c"]) (Integer (Z.of_nat 1))
  = (mkUserFunction tt ["a"; "c"], [Field "expressions"; Index (Integer 0)],
     None).
Proof.
  apply (deleteDefinitionExpression_removes (λ uid, uid) "u"
           (mkUserFunction tt ["a"; "b"; "c"]) 1).
  cbn. lia.
Defined.

(** X21: in a function with at least one expression, the handler of [MOVE_UP]
    and [MOVE_DOWN] moves a selected expression to the previous or to the
    next one and leaves it where it is at either end: when the index
    selected is a safe integer, the new index is within the array, and it
    is one away from an old index within the array unless that index is at
    the end moved towards.  The function itself is returned unchanged and
    no edit is started.  When the index selected is [NaN], so is the new
    index. *)
Theorem moveExpressionHandler_in_bounds {Expr Other : Type} (moveUp : bool)
    (node : UserFunctionNode Expr Other) (idx : Z) :
  (isSafeInteger (Integer idx) = true →
   0 < length (expressions node) →
   ∃ newIdx,
     moveExpressionHandler moveUp node
       [Field "expressions"; Index (Integer idx)]
     = Ok (Some (node, [Field "expressions"; Index (Integer newIdx)], None))
     ∧ (0 ≤ newIdx < Z.of_nat (length (expressions node)))%Z
     ∧ ((0 ≤ idx < Z.of_nat (length (expressions node)))%Z →
        newIdx
        = if moveUp
          then (if decide (idx = 0)%Z then idx else idx - 1)%Z
          else (if decide (idx = Z.of_nat (length (expressions node)) - 1)%Z
                then idx else idx + 1)%Z))
  ∧ moveExpressionHandler moveUp node [Field "expressions"; Index NaN]
    = Ok (Some (node, [Field "expressions"; Index NaN], None)).
Proof.
  split; [|reflexivity].
  intros _ Hlen. eexists. split; [reflexivity|]. split; [lia|].
  intros Hin. destruct moveUp; case_decide; lia.
Qed.

(** The theorem at a move down from the last of two expressions. *)
Lemma moveExpressionHandler_in_bounds_witness :
  moveExpressionHandler false (mkUserFunction tt ["a"; "b"])
    [Field "expressions"; Index (Integer 1)]
  = Ok (Some (mkUserFunction tt ["a"; "b"],
              [Field "expressions"; Index (Integer 1)], None)).
Proof.
  destruct (moveExpressionHandler_in_bounds false
              (mkUserFunction tt ["a"; "b"]) 1) as [Hsafe _].
  destruct Hsafe as (newIdx & Hrun & _ & Hnew); [reflexivity|cbn; lia|].
  rewrite Hrun, Hnew; [reflexivity|cbn; lia].
Defined.

(** ** Ids *)

(** X22: an id made by one of the three generators is valid for its own kind
    and for neither of the other two kinds, and no string is a valid id of
    two kinds. *)
Theorem generated_ids_valid (uid s : string) :
  (validStreamId (generateStreamId uid) = true
   ∧ validFunctionId (generateFunctionId uid) = true
   ∧ validApplicationId (generateApplicationId uid) = true)
  ∧ (validFunctionId (generateStreamId uid) = false
     ∧ validApplicationId (generateStreamId uid) = false
     ∧ validStreamId (generateFunctionId uid) = false
     ∧ validApplicationId (generateFunctionId uid) = false
     ∧ validStreamId (generateApplicationId uid) = false
     ∧ validFunctionId (generateApplicationId uid) = false)
  ∧ (validStreamId s && validFunctionId s = false
     ∧ validStreamId s && validApplicationId s = false
     ∧ validFunctionId s && validApplicationId s = false).
Proof.
  split_and!; try (by destruct uid).
  all: destruct s as [|c s]; [reflexivity|].
  all: unfold validStreamId, validFunctionId, validApplicationId,
         STREAM_ID_PREFIX, FUNCTION_ID_PREFIX, APPLICATION_ID_PREFIX;
       cbn [String.prefix].
  all: match goal with
       | |- context [Ascii.ascii_dec ?a ?b] =>
           destruct (Ascii.ascii_dec a b) as [<-|?];
             [apply andb_false_iff; right; reflexivity|reflexivity]
       end.
Qed.

